(** * openshift-coordination-engine: incident store and MCO stabilisation waits

    A shallow embedding of
    - [internal/storage]: [IncidentStore] with its file persistence, and
    - [internal/integrations]: [MCOClient], its status parser and its polling
      waits, and
    - [pkg/api/v1]: the historical recommendations of [RecommendationsHandler],
      which reads the store,
    each followed further down by its properties. *)

From Stdlib Require Import ZArith String List Lia.
From Stdlib Require Floats.
From stdpp Require Import base numbers option list gmap strings sorting fin_maps pretty.

Local Open Scope string_scope.
Local Open Scope list_scope.
Local Open Scope Z_scope.

(* ===================================================================== *)
(** ** Package storage *)
(* ===================================================================== *)

Module Storage.

(** [time.Time] as an instant (nanoseconds on the time line); [Before] and
    [After] are the strict orders. *)
Definition Time := Z.
Definition Before (t u : Time) : bool := t <? u.
Definition After (t u : Time) : bool := u <? t.

(** Modelled from the spec: the struct [models.Incident] is declared in
    [pkg/models], which is not among the sources.  These are the fields the
    store reads and writes; [ResolvedAt] is a [*time.Time]. *)
Record Incident := mkIncident {
  ID : string;
  Target : string;
  Severity : string;
  Status : string;
  CreatedAt : Time;
  UpdatedAt : Time;
  ResolvedAt : option Time;
}.

#[global] Instance Incident_eq_dec : EqDecision Incident.
Proof. solve_decision. Defined.

(** The zero value [Incident{}]. *)
Definition zeroIncident : Incident := mkIncident "" "" "" "" 0 0 None.

#[global] Instance Incident_inhabited : Inhabited Incident := populate zeroIncident.

(** Modelled from the spec: the constants [models.IncidentStatusActive] and
    [models.IncidentStatusResolved] of the missing package. *)
Definition IncidentStatusActive : string := "active".
Definition IncidentStatusResolved : string := "resolved".

Definition set_ID (v : string) (i : Incident) : Incident :=
  mkIncident v (Target i) (Severity i) (Status i) (CreatedAt i) (UpdatedAt i) (ResolvedAt i).
Definition set_Status (v : string) (i : Incident) : Incident :=
  mkIncident (ID i) (Target i) (Severity i) v (CreatedAt i) (UpdatedAt i) (ResolvedAt i).
Definition set_CreatedAt (v : Time) (i : Incident) : Incident :=
  mkIncident (ID i) (Target i) (Severity i) (Status i) v (UpdatedAt i) (ResolvedAt i).
Definition set_UpdatedAt (v : Time) (i : Incident) : Incident :=
  mkIncident (ID i) (Target i) (Severity i) (Status i) (CreatedAt i) v (ResolvedAt i).

(** A non-nil [*models.Incident]: the address of an [Incident] object. *)
Definition ptr := positive.

(** Go errors, one constructor per [fmt.Errorf] of the package; a [%w]
    argument is the [cause]. *)
Inductive error :=
  | ErrValidation (cause : string)      (* "validation failed: %w" *)
  | ErrNotFound (id : string)           (* "incident not found: %s" *)
  | ErrPersistIncident (cause : error)  (* "failed to persist incident: %w" *)
  | ErrPersistUpdate (cause : error)    (* "failed to persist incident update: %w" *)
  | ErrPersistDeletion (cause : error)  (* "failed to persist incident deletion: %w" *)
  | ErrPersistCleanup (cause : error)   (* "failed to persist cleanup: %w" *)
  | ErrNoFilePath                       (* "no file path configured for persistence" *)
  | ErrMarshal                          (* "failed to marshal incidents: %w" *)
  | ErrWriteTemp                        (* "failed to write temp file: %w" *)
  | ErrRenameTemp                       (* "failed to rename temp file: %w" *)
  | ErrReadFile                         (* "failed to read incidents file: %w" *)
  | ErrUnmarshal                        (* "failed to unmarshal incidents: %w" *)
  | ErrMkdir.                           (* "failed to create data directory: %w" *)

#[global] Instance error_eq_dec : EqDecision error.
Proof. solve_decision. Defined.

(** Calls that leave the package, in the order they are made. *)
Inductive Call :=
  | CallMarshal (snapshot : gmap string Incident)  (* json.MarshalIndent(s.incidents, ..) *)
  | CallWriteFile (path data : string)             (* os.WriteFile *)
  | CallRename (from to : string)                  (* os.Rename *)
  | CallRemove (path : string)                     (* os.Remove *)
  | CallReadFile (path : string)                   (* os.ReadFile *)
  | CallMkdirAll (path : string)                   (* os.MkdirAll *)
  | LogWarn (err : option error) (msg : string).   (* log.WithError(err).Warn(msg) *)

(** The state an operation runs in.  [incidents] and [filePath] are the
    fields of [IncidentStore] (the lock and the logger carry no data);
    [heap] holds the [Incident] objects the pointers of the map and of the
    callers refer to; [files] is the file system; [faults] decides the
    coming fallible [os] calls, one entry per call ([true]: the call
    fails and leaves the files as they were; when none is left the call
    succeeds); [calls] is the trace. *)
Record State := mkState {
  incidents : gmap string ptr;
  filePath : string;
  heap : gmap ptr Incident;
  files : gmap string string;
  faults : list bool;
  calls : list Call;
}.

Definition set_incidents (m : gmap string ptr) (s : State) : State :=
  mkState m (filePath s) (heap s) (files s) (faults s) (calls s).
Definition set_filePath (f : string) (s : State) : State :=
  mkState (incidents s) f (heap s) (files s) (faults s) (calls s).
Definition set_heap (h : gmap ptr Incident) (s : State) : State :=
  mkState (incidents s) (filePath s) h (files s) (faults s) (calls s).
Definition set_files (f : gmap string string) (s : State) : State :=
  mkState (incidents s) (filePath s) (heap s) f (faults s) (calls s).
Definition set_faults (f : list bool) (s : State) : State :=
  mkState (incidents s) (filePath s) (heap s) (files s) f (calls s).
Definition record (c : Call) (s : State) : State :=
  mkState (incidents s) (filePath s) (heap s) (files s) (faults s) (calls s ++ [c]).

(** [*p]: the object a pointer refers to (the zero value at an address no
    object was written to). *)
Definition deref (s : State) (p : ptr) : Incident := heap s !!! p.

(** [*p = i] *)
Definition store (p : ptr) (i : Incident) (s : State) : State :=
  set_heap (<[p := i]> (heap s)) s.

(** Whether the next fallible [os] call fails. *)
Definition next_fault (s : State) : bool * State :=
  match faults s with
  | [] => (false, s)
  | b :: rest => (b, set_faults rest s)
  end.

(** What the map holds, pointers followed: the value [json.MarshalIndent]
    serialises and what [Get] lets a caller read. *)
Definition snapshot (s : State) : gmap string Incident := deref s <$> incidents s.

(** Two neighbours [a], [b] of a slice are in the order of [less] when [b]
    does not have to come before [a]. *)
Definition inOrder (less : ptr → ptr → bool) (a b : ptr) : Prop := less b a = false.

#[global] Instance inOrder_dec less : RelDecision (inOrder less).
Proof. intros a b. unfold inOrder. apply _. Defined.

Section WithEnvironment.

(** [incident.Validate()], a method of the missing package [pkg/models]:
    the caller-supplied rules are a parameter, returning the error text, or
    [None] for a valid record; they read the incident and write nothing. *)
Variable Validate : Incident → option string.

(** [json.MarshalIndent] on the map ([None]: it returns an error). *)
Variable json_MarshalIndent : gmap string Incident → option string.

(** [json.Unmarshal(data, &s.incidents)]: the map and the heap after the
    call, and whether it returned an error. *)
Variable json_Unmarshal :
  string → gmap string ptr * gmap ptr Incident → gmap string ptr * gmap ptr Incident * bool.

(** [t.AddDate(0, 0, days)]: calendar arithmetic of package [time]. *)
Variable AddDate : Time → Z → Time.

(** The order in which a [range] over the map yields its entries. *)
Variable range : gmap string ptr → list (string * ptr).

(** [sort.Slice(results, less)]. *)
Variable sort_Slice : (ptr → ptr → bool) → list ptr → list ptr.

(** func NewIncidentStore() *IncidentStore *)
Definition NewIncidentStore (s : State) : State :=
  set_filePath "" (set_incidents ∅ s).

(** func (s *IncidentStore) saveToFileUnsafe() error *)
Definition saveToFileUnsafe (s : State) : option error * State :=
  if decide (filePath s = "") then (Some ErrNoFilePath, s)
  else
    let s := record (CallMarshal (snapshot s)) s in
    match json_MarshalIndent (snapshot s) with
    | None => (Some ErrMarshal, s)
    | Some data =>
      let tempFile := String.append (filePath s) ".tmp" in
      let s := record (CallWriteFile tempFile data) s in
      let '(failed, s) := next_fault s in
      if failed then (Some ErrWriteTemp, s)
      else
        let s := set_files (<[tempFile := data]> (files s)) s in
        let s := record (CallRename tempFile (filePath s)) s in
        let '(failed, s) := next_fault s in
        if failed then
          let s := record (CallRemove tempFile) s in
          let '(failed, s) := next_fault s in
          let s := if failed
                   then record (LogWarn None "Failed to remove temp file after rename failure") s
                   else set_files (delete tempFile (files s)) s in
          (Some ErrRenameTemp, s)
        else
          (None, set_files (<[filePath s := data]> (delete tempFile (files s))) s)
    end.

(** func generateIncidentID() string: the fresh identifier is an input
    ([newID]) of [Create]. *)

(** [func (s *IncidentStore) Create(incident *models.Incident)], returning
    the stored pointer or an error. *)
Definition Create (now : Time) (newID : string) (incident : ptr) (s : State)
  : (error + ptr) * State :=
  match Validate (deref s incident) with
  | Some err => (inl (ErrValidation err), s)
  | None =>
    let s := if decide (ID (deref s incident) = "")
             then store incident (set_ID newID (deref s incident)) s else s in
    let s := store incident (set_CreatedAt now (deref s incident)) s in
    let s := store incident (set_UpdatedAt now (deref s incident)) s in
    let s := if decide (Status (deref s incident) = "")
             then store incident (set_Status IncidentStatusActive (deref s incident)) s
             else s in
    let s := set_incidents (<[ID (deref s incident) := incident]> (incidents s)) s in
    if decide (filePath s ≠ "") then
      match saveToFileUnsafe s with
      | (Some err, s) =>
        (inl (ErrPersistIncident err),
         set_incidents (delete (ID (deref s incident)) (incidents s)) s)
      | (None, s) => (inr incident, s)
      end
    else (inr incident, s)
  end.

(** [func (s *IncidentStore) Get(id string)], returning the stored pointer or
    an error. *)
Definition Get (id : string) (s : State) : error + ptr :=
  match incidents s !! id with
  | None => inl (ErrNotFound id)
  | Some incident => inr incident
  end.

(** func (s *IncidentStore) Update(incident *models.Incident) error *)
Definition Update (now : Time) (incident : ptr) (s : State) : option error * State :=
  match incidents s !! ID (deref s incident) with
  | None => (Some (ErrNotFound (ID (deref s incident))), s)
  | Some oldIncident =>
    let s := store incident (set_UpdatedAt now (deref s incident)) s in
    let s := set_incidents (<[ID (deref s incident) := incident]> (incidents s)) s in
    if decide (filePath s ≠ "") then
      match saveToFileUnsafe s with
      | (Some err, s) =>
        (Some (ErrPersistUpdate err),
         set_incidents (<[ID (deref s incident) := oldIncident]> (incidents s)) s)
      | (None, s) => (None, s)
      end
    else (None, s)
  end.

(** func (s *IncidentStore) Delete(id string) error *)
Definition Delete (id : string) (s : State) : option error * State :=
  match incidents s !! id with
  | None => (Some (ErrNotFound id), s)
  | Some deleted =>
    let s := set_incidents (delete id (incidents s)) s in
    if decide (filePath s ≠ "") then
      match saveToFileUnsafe s with
      | (Some err, s) =>
        (Some (ErrPersistDeletion err), set_incidents (<[id := deleted]> (incidents s)) s)
      | (None, s) => (None, s)
      end
    else (None, s)
  end.

(** func (s *IncidentStore) Count() int *)
Definition Count (s : State) : nat := size (incidents s).

(** func (s *IncidentStore) SaveToFile() error *)
Definition SaveToFile (s : State) : option error * State := saveToFileUnsafe s.

(** type ListFilter struct; the fields [Severity] and [Status] are
    [FSeverity] and [FStatus] here, apart from those of [Incident]. *)
Record ListFilter := mkListFilter {
  Namespace : string;
  FSeverity : string;
  FStatus : string;
  Limit : Z;
}.

(** The body of the [for _, incident := range s.incidents] loop of [List];
    each [continue] leaves [results] as it is. *)
Definition List_body (filter : ListFilter) (s : State)
    (results : list ptr) (entry : string * ptr) : list ptr :=
  let incident := entry.2 in
  if bool_decide (Namespace filter ≠ "")
     && bool_decide (Target (deref s incident) ≠ Namespace filter) then results
  else if bool_decide (FSeverity filter ≠ "")
     && bool_decide (Severity (deref s incident) ≠ FSeverity filter) then results
  else if bool_decide (FStatus filter ≠ "")
     && bool_decide (Status (deref s incident) ≠ FStatus filter) then results
  else results ++ [incident].

(** func (s *IncidentStore) List(filter ListFilter) []*models.Incident *)
Definition List (filter : ListFilter) (s : State) : list ptr :=
  let results := foldl (List_body filter s) [] (range (incidents s)) in
  let results :=
    sort_Slice (λ i j, After (CreatedAt (deref s i)) (CreatedAt (deref s j))) results in
  if (0 <? Limit filter) && (Limit filter <? Z.of_nat (length results))
  then take (Z.to_nat (Limit filter)) results
  else results.

(** func (s *IncidentStore) LoadFromFile() error.  [os.Stat] reports a path
    that is not in [files] as not existing. *)
Definition LoadFromFile (s : State) : option error * State :=
  if decide (filePath s = "") then (Some ErrNoFilePath, s)
  else
    match files s !! filePath s with
    | None => (None, s)
    | Some content =>
      let s := record (CallReadFile (filePath s)) s in
      let '(failed, s) := next_fault s in
      if failed then (Some ErrReadFile, s)
      else
        let '(m, h, failed) := json_Unmarshal content (incidents s, heap s) in
        let s := set_heap h (set_incidents m s) in
        if failed then (Some ErrUnmarshal, s) else (None, s)
    end.

(** The elements of a path, between its separators. *)
Fixpoint pathElements (path : string) : list string :=
  match path with
  | EmptyString => [""]
  | String c rest =>
    if bool_decide (String c "" = "/") then "" :: pathElements rest
    else match pathElements rest with
         | element :: elements => String c element :: elements
         | [] => [String c ""]
         end
  end.

(** [strings.Join(elements, "/")] *)
Fixpoint joinElements (elements : list string) : string :=
  match elements with
  | [] => ""
  | [element] => element
  | element :: rest => String.append element (String.append "/" (joinElements rest))
  end.

(** One element in the loop of [filepath.Clean], on the elements written so
    far: an empty element and [.] are skipped; [..] removes the element
    written last when there is one other than [..], is skipped at the root,
    and is written otherwise; any other element is written. *)
Definition Clean_element (rooted : bool) (out : list string) (element : string)
  : list string :=
  if decide (element = "") then out
  else if decide (element = ".") then out
  else if decide (element = "..") then
    let backtrack :=
      match last out with
      | Some written => bool_decide (written ≠ "..")
      | None => false
      end in
    if backtrack then removelast out
    else if rooted then out
    else out ++ [".."]
  else out ++ [element].

(** [filepath.Clean(path)] with the separator [/]: the shortest path that
    names the same file by the rules of the package; the empty result
    becomes [.]. *)
Definition filepath_Clean (path : string) : string :=
  if decide (path = "") then "."
  else
    let rooted :=
      match path with
      | String c _ => bool_decide (String c "" = "/")
      | EmptyString => false
      end in
    let out := foldl (Clean_element rooted) [] (pathElements path) in
    let cleaned := String.append (if rooted then "/" else "") (joinElements out) in
    if decide (cleaned = "") then "." else cleaned.

(** [filepath.Join(dataDir, name)]: the elements from the first one that is
    not empty on, joined with separators, and the result cleaned; the empty
    path when both are empty. *)
Definition filepath_Join (dataDir name : string) : string :=
  if decide (dataDir = "") then
    if decide (name = "") then "" else filepath_Clean name
  else filepath_Clean (String.append dataDir (String.append "/" name)).

(** func NewIncidentStoreWithPersistence(dataDir string, log *logrus.Logger):
    the error it returns, and the state whose [incidents] and [filePath] are
    those of the store it returns. *)
Definition NewIncidentStoreWithPersistence (dataDir : string) (s : State)
  : option error * State :=
  let s := record (CallMkdirAll dataDir) s in
  let '(failed, s) := next_fault s in
  if failed then (Some ErrMkdir, s)
  else
    let s := set_filePath (filepath_Join dataDir "incidents.json") (set_incidents ∅ s) in
    match LoadFromFile s with
    | (Some err, s) =>
      (None,
       record (LogWarn (Some err)
                 "Failed to load incidents from file, starting with empty store") s)
    | (None, s) => (None, s)
    end.

(** The condition under which [CleanupOldIncidents] deletes an entry. *)
Definition expired (cutoffTime : Time) (i : Incident) : bool :=
  bool_decide (Status i = IncidentStatusResolved)
  && match ResolvedAt i with
     | Some resolvedAt => Before resolvedAt cutoffTime
     | None => false
     end.

(** The body of the [for id, incident := range s.incidents] loop of
    [CleanupOldIncidents], on the map and the counter [deleted]. *)
Definition Cleanup_body (cutoffTime : Time) (s : State)
    (acc : gmap string ptr * nat) (entry : string * ptr) : gmap string ptr * nat :=
  let '(id, incident) := entry in
  if expired cutoffTime (deref s incident)
  then (delete id acc.1, S acc.2)
  else acc.

(** func (s *IncidentStore) CleanupOldIncidents(retentionDays int) error *)
Definition CleanupOldIncidents (now : Time) (retentionDays : Z) (s : State)
  : option error * State :=
  if decide (retentionDays <= 0) then (None, s)
  else
    let cutoffTime := AddDate now (- retentionDays) in
    let '(m, deleted) :=
      foldl (Cleanup_body cutoffTime s) (incidents s, 0%nat) (range (incidents s)) in
    let s := set_incidents m s in
    if (0 <? deleted)%nat && bool_decide (filePath s ≠ "") then
      match saveToFileUnsafe s with
      | (Some err, s) => (Some (ErrPersistCleanup err), s)
      | (None, s) => (None, s)
      end
    else (None, s).

(** The states a program reaches through the store: a new store over any
    heap of caller objects, then any sequence of mutating calls. *)
Inductive reachable : State → Prop :=
  | reach_New s : reachable (NewIncidentStore s)
  | reach_NewWithPersistence dataDir s s' :
      NewIncidentStoreWithPersistence dataDir s = (None, s') → reachable s'
  | reach_Create now newID incident s :
      reachable s → reachable (Create now newID incident s).2
  | reach_Update now incident s : reachable s → reachable (Update now incident s).2
  | reach_Delete id s : reachable s → reachable (Delete id s).2
  | reach_LoadFromFile s : reachable s → reachable (LoadFromFile s).2
  | reach_Cleanup now retentionDays s :
      reachable s → reachable (CleanupOldIncidents now retentionDays s).2.

End WithEnvironment.

(** *** Vocabulary of the properties *)

(** An incident satisfies a filter when it agrees with every predicate of
    the filter that is not empty. *)
Definition matchesFilter (filter : ListFilter) (i : Incident) : Prop :=
  (Namespace filter = "" ∨ Target i = Namespace filter)
  ∧ (FSeverity filter = "" ∨ Severity i = FSeverity filter)
  ∧ (FStatus filter = "" ∨ Status i = FStatus filter).

#[global] Instance matchesFilter_dec filter i : Decision (matchesFilter filter i).
Proof. unfold matchesFilter. apply _. Defined.

(** The entries of the map whose incident satisfies the filter. *)
Definition matching (filter : ListFilter) (s : State) : list ptr :=
  (base.filter (λ e : string * ptr, matchesFilter filter (deref s e.2))
               (map_to_list (incidents s))).*2.

(** [a] may stand before [b] in a list that is newest first. *)
Definition newestFirst (s : State) (a b : ptr) : Prop :=
  CreatedAt (deref s b) ≤ CreatedAt (deref s a).

(** What [sort.Slice] asks of [less]: a strict weak ordering. *)
Definition StrictWeak (less : ptr → ptr → bool) : Prop :=
  (∀ a, less a a = false)
  ∧ (∀ a b c, less a b = true → less b c = true → less a c = true)
  ∧ (∀ a b c, less a b = false → less b c = false → less a c = false).

(** The entries [CleanupOldIncidents] keeps, for a cutoff. *)
Definition retained (cutoffTime : Time) (s : State) : gmap string ptr :=
  filter (λ e : string * ptr, expired cutoffTime (deref s e.2) = false) (incidents s).


(** *** An environment to run the store in *)

(** Validation rules of a caller: an incident names its target. *)
Definition requireTarget (i : Incident) : option string :=
  if decide (Target i = "") then Some "target is required" else None.

(** A serialiser that never fails (it writes the identifiers only). *)
Definition marshalIDs (m : gmap string Incident) : option string :=
  Some (foldr (λ e acc, String.append e.1 (String.append ";" acc)) "" (map_to_list m)).

(** A parser that accepts the empty document and calls every other text
    malformed, leaving the map as it is. *)
Definition unmarshalEmpty (data : string) (st : gmap string ptr * gmap ptr Incident)
  : gmap string ptr * gmap ptr Incident * bool :=
  (st.1, st.2, negb (bool_decide (data = "{}"))).

(** [AddDate] in UTC, where every day has 24 hours. *)
Definition utcAddDate (t : Time) (days : Z) : Time := t + days * 86400 * 1000000000.

(** [int64(n)]: the value of [n] in 64 bits, two's complement. *)
Definition wrapInt64 (n : Z) : Z := (n + 2 ^ 63) `mod` 2 ^ 64 - 2 ^ 63.

(** The seconds from year 1, from which package [time] counts, to 1970. *)
Definition unixToInternal : Z := 62135596800.

(** [t.AddDate(0, 0, days)] in UTC as package [time] computes it, for
    instants in nanoseconds from 1970: the day of the date is moved by
    [days] and the instant is put together again as seconds from year 1 in
    an [int64], which wraps; the nanoseconds within the second stay. *)
Definition wrappingAddDate (t : Time) (days : Z) : Time :=
  let sec := t `div` 1000000000 in
  let nsec := t `mod` 1000000000 in
  (wrapInt64 (sec + unixToInternal + days * 86400) - unixToInternal) * 1000000000 + nsec.

(** The largest [int]. *)
Definition maxInt : Z := 9223372036854775807.

(** Entries in the order of [map_to_list]. *)
Definition rangeToList (m : gmap string ptr) : list (string * ptr) := map_to_list m.

(** A sort by merging. *)
Definition mergeSlice (less : ptr → ptr → bool) (l : list ptr) : list ptr :=
  merge_sort (inOrder less) l.

(** An empty in-memory store in an empty world, and one with persistence. *)
Definition emptyState : State := mkState ∅ "" ∅ ∅ [] [].
Definition persistentState (path : string) (faults : list bool) : State :=
  mkState ∅ path ∅ ∅ faults [].

(** Records of a caller: [recordA] and [recordB] carry the same identifier,
    [recordB] has an older creation time, [recordInvalid] names no target. *)
Definition recordA : Incident := mkIncident "inc-1" "ns1" "high" "" 0 0 None.
Definition recordB : Incident := mkIncident "inc-1" "ns2" "low" "active" 5 5 None.
Definition recordInvalid : Incident := mkIncident "inc-1" "" "low" "active" 0 0 None.

Definition callerHeap : gmap ptr Incident :=
  <[1%positive := recordA]> (<[2%positive := recordB]> (<[3%positive := recordInvalid]> ∅)).

(** A store with persistence that holds [recordA], created at instant 100. *)
Definition storeWithA : State :=
  (Create requireTarget marshalIDs 100 "inc-0a1b2c3d" 1%positive
     (set_heap callerHeap (persistentState "/data/incidents.json" []))).2.

(** Three incidents of target ["ns1"]: A created at 1, B at 3 and C at 2, in
    an in-memory store. *)
Definition threeIncidents : State :=
  let h : gmap ptr Incident :=
    <[11%positive := mkIncident "inc-a" "ns1" "low" "" 0 0 None]>
    (<[12%positive := mkIncident "inc-b" "ns1" "high" "" 0 0 None]>
    (<[13%positive := mkIncident "inc-c" "ns1" "low" "" 0 0 None]> ∅)) in
  let s := set_heap h emptyState in
  let s := (Create requireTarget marshalIDs 1 "" 11%positive s).2 in
  let s := (Create requireTarget marshalIDs 3 "" 12%positive s).2 in
  (Create requireTarget marshalIDs 2 "" 13%positive s).2.

(** Incidents of several ages, in a store with persistence: resolved 100
    days ago, resolved 10 days ago, active and 200 days old, and resolved
    without a [ResolvedAt]; the instant 0 is now. *)
Definition day : Z := 86400 * 1000000000.

Definition agedIncidents (faults : list bool) : State :=
  mkState
    (<["inc-old" := 21%positive]> (<["inc-recent" := 22%positive]>
       (<["inc-active" := 23%positive]> (<["inc-open" := 24%positive]> ∅))))
    "/data/incidents.json"
    (<[21%positive := mkIncident "inc-old" "ns1" "low" "resolved"
                        (-120 * day) (-100 * day) (Some (-100 * day))]>
       (<[22%positive := mkIncident "inc-recent" "ns1" "high" "resolved"
                           (-20 * day) (-10 * day) (Some (-10 * day))]>
          (<[23%positive := mkIncident "inc-active" "ns2" "low" "active"
                              (-200 * day) (-200 * day) None]>
             (<[24%positive := mkIncident "inc-open" "ns2" "low" "resolved"
                                 (-200 * day) (-200 * day) None]> ∅))))
    ∅ faults [].

(** *** Vocabulary of further properties *)

(** The record [Create] leaves behind the caller's pointer, from the record
    [i] the caller supplied. *)
Definition created (now : Time) (newID : string) (i : Incident) : Incident :=
  mkIncident (if decide (ID i = "") then newID else ID i)
             (Target i) (Severity i)
             (if decide (Status i = "") then IncidentStatusActive else Status i)
             now now (ResolvedAt i).


(** The three incidents again, in a store with persistence, and a record
    with no identifier yet that a caller is about to create. *)
Definition threeIncidentsOnDisk : State :=
  store 14%positive (mkIncident "" "ns3" "medium" "" 0 0 None)
    (set_filePath "/data/incidents.json" threeIncidents).

End Storage.

(* ===================================================================== *)
(** ** Package integrations: the MCO client *)
(* ===================================================================== *)

Module Integrations.

(** [time.Time] and [time.Duration] in nanoseconds. *)
Definition Time := Z.
Definition Duration := Z.
Definition Second : Duration := 1000000000.

(** [10 * time.Second], the delay between two polls. *)
Definition pollInterval : Duration := 10 * Second.

(** type MachineConfigPoolStatus struct *)
Record MachineConfigPoolStatus := mkStatus {
  Name : string;
  MachineCount : Z;
  UpdatedMachineCount : Z;
  ReadyMachineCount : Z;
  DegradedMachineCount : Z;
  Updating : bool;
  Degraded : bool;
  CurrentConfiguration : string;
}.

(** [ctx.Err()] of a context that is done. *)
Inductive ctxError := Canceled | DeadlineExceeded.

(** Go errors, one constructor per [fmt.Errorf] of the client. *)
Inductive error :=
  | ErrGetPool (poolName cause : string)          (* "failed to get MachineConfigPool %s: %w" *)
  | ErrParseStatus                                (* "failed to parse pool status: %w" *)
  | ErrCancelled (poolName : string) (cause : ctxError)
      (* "context cancelled while waiting for pool %s: %w" *)
  | ErrNotStabilized (poolName : string) (timeout : Duration)
      (* "MachineConfigPool %s did not stabilize within %v" *)
  | ErrListMCP (cause : string)                   (* "failed to list MachineConfigPools: %w" *)
  | ErrListPools (cause : error)                  (* "failed to list pools: %w" *)
  | ErrPoolFailed (poolName : string) (cause : error)
      (* "pool %s failed to stabilize: %w" *)
  | ErrHealthCheck (cause : error).               (* "MCO health check failed: %w" *)

(** What the client does that is visible outside: the requests to the
    cluster and the log lines of level Info and Warn (the Debug lines are
    left out). *)
Inductive Event :=
  | CallGet (poolName : string)         (* dynamicClient.Resource(mcpGVR).Get *)
  | CallList                            (* dynamicClient.Resource(mcpGVR).List *)
  | InfoWaiting (poolName : string) (timeout : Duration)
      (* "Waiting for MachineConfigPool to stabilize" *)
  | WarnCheckFailed (err : error)       (* "Failed to check pool stability" *)
  | InfoStable (poolName : string)      (* "MachineConfigPool is stable" *)
  | InfoWaitingAll (timeout : Duration) (* "Waiting for all MachineConfigPools to stabilize" *)
  | WarnNoPools                         (* "No MachineConfigPools found" *)
  | InfoAllStable.                      (* "All MachineConfigPools are stable" *)

(** The running program: the clock, the number of interactions with the
    outside so far, and the trace. *)
Record World := mkWorld {
  clock : Time;
  tick : nat;
  trace : list Event;
}.

Definition emit (e : Event) (w : World) : World :=
  mkWorld (clock w) (tick w) (trace w ++ [e]).

(** What [select] returned on. *)
Inductive Selected := CtxDone (err : ctxError) | TimerFired.

(** *** Vocabulary of the properties *)

(** The stability predicate of [IsPoolStable]. *)
Definition stable (status : MachineConfigPoolStatus) : Prop :=
  Updating status = false
  ∧ Degraded status = false
  ∧ UpdatedMachineCount status = MachineCount status.

(** The waits a trace shows as started, with their timeouts, and the pools
    it shows as queried. *)
Definition waitsStarted (tr : list Event) : list (string * Duration) :=
  omap (λ e, match e with InfoWaiting p t => Some (p, t) | _ => None end) tr.
Definition poolsQueried (tr : list Event) : list string :=
  omap (λ e, match e with CallGet p => Some p | _ => None end) tr.

Section WithCluster.

(** [*unstructured.Unstructured], the objects of the dynamic client. *)
Variable Unstructured : Type.

(** [pool.GetName()] *)
Variable GetName : Unstructured → string.

(** [mc.parsePoolStatus(pool)], [None] when it returns an error. *)
Variable parsePoolStatus : Unstructured → option MachineConfigPoolStatus.

(** The outside of the client.  Interactions are numbered; [elapsed k] is
    the time interaction [k] takes, [answerGet k] and [answerList k] what the
    cluster answers when interaction [k] is a request, [ctxDone] the instant
    at which [ctx] is done and its [ctx.Err()] ([None]: never), and
    [timerFirst k] whether the timer wins when both channels of the
    [select] of interaction [k] are ready at the same instant. *)
Record Env := mkEnv {
  elapsed : nat → N;
  answerGet : nat → string → string + Unstructured;
  answerList : nat → string + list Unstructured;
  ctxDone : option (Time * ctxError);
  timerFirst : nat → bool;
}.

(** One interaction: time passes, the counter advances. *)
Definition interact (env : Env) (w : World) : World :=
  mkWorld (clock w + Z.of_N (elapsed env (tick w))) (S (tick w)) (trace w).

(** [time.Now()] *)
Definition time_Now (env : Env) (w : World) : Time * World :=
  let w := interact env w in (clock w, w).

(** func (mc *MCOClient) GetPoolStatus(ctx, poolName) *)
Definition GetPoolStatus (env : Env) (poolName : string) (w : World)
  : (error + MachineConfigPoolStatus) * World :=
  let answer := answerGet env (tick w) poolName in
  let w := interact env (emit (CallGet poolName) w) in
  match answer with
  | inl err => (inl (ErrGetPool poolName err), w)
  | inr pool =>
    match parsePoolStatus pool with
    | None => (inl ErrParseStatus, w)
    | Some status => (inr status, w)
    end
  end.

(** func (mc *MCOClient) IsPoolStable(ctx, poolName) (bool, error) *)
Definition IsPoolStable (env : Env) (poolName : string) (w : World)
  : (error + bool) * World :=
  match GetPoolStatus env poolName w with
  | (inl err, w) => (inl err, w)
  | (inr status, w) =>
    let stable := negb (Updating status)
                  && negb (Degraded status)
                  && (UpdatedMachineCount status =? MachineCount status) in
    (inr stable, w)
  end.

(** The [select] of [WaitForPoolStable]: [<-ctx.Done()] against
    [<-time.After(d)]. *)
Definition select_Done_After (env : Env) (d : Duration) (w : World) : Selected * World :=
  let fire := clock w + d in
  match ctxDone env with
  | Some (at_, err) =>
    if (at_ <? fire) || ((at_ =? fire) && negb (timerFirst env (tick w)))
    then (CtxDone err, mkWorld (Z.max (clock w) at_) (S (tick w)) (trace w))
    else (TimerFired, interact env (mkWorld fire (tick w) (trace w)))
  | None => (TimerFired, interact env (mkWorld fire (tick w) (trace w)))
  end.

(** The [for time.Now().Before(deadline)] loop of [WaitForPoolStable] and
    the [return] after it; [fuel] bounds the number of iterations and
    [None] means it ran out. *)
Fixpoint WaitForPoolStable_loop (fuel : nat) (env : Env) (poolName : string)
    (timeout : Duration) (deadline : Time) (w : World) : option (option error * World) :=
  match fuel with
  | O => None
  | S fuel =>
    let '(now, w) := time_Now env w in
    if now <? deadline then
      let '(r, w) := IsPoolStable env poolName w in
      match r with
      | inr true => Some (None, emit (InfoStable poolName) w)
      | _ =>
        let w := match r with
                 | inl err => emit (WarnCheckFailed err) w
                 | inr _ => w
                 end in
        let '(_, w) := GetPoolStatus env poolName w in
        match select_Done_After env pollInterval w with
        | (CtxDone err, w) => Some (Some (ErrCancelled poolName err), w)
        | (TimerFired, w) => WaitForPoolStable_loop fuel env poolName timeout deadline w
        end
      end
    else Some (Some (ErrNotStabilized poolName timeout), w)
  end.

(** func (mc *MCOClient) WaitForPoolStable(ctx, poolName, timeout) error *)
Definition WaitForPoolStable (fuel : nat) (env : Env) (poolName : string)
    (timeout : Duration) (w : World) : option (option error * World) :=
  let w := emit (InfoWaiting poolName timeout) w in
  let '(now, w) := time_Now env w in
  let deadline := now + timeout in
  WaitForPoolStable_loop fuel env poolName timeout deadline w.

(** func (mc *MCOClient) ListMachineConfigPools(ctx) ([]string, error) *)
Definition ListMachineConfigPools (env : Env) (w : World)
  : (error + list string) * World :=
  let answer := answerList env (tick w) in
  let w := interact env (emit CallList w) in
  match answer with
  | inl err => (inl (ErrListMCP err), w)
  | inr items => (inr (map GetName items), w)
  end.

(** The [for _, poolName := range pools] loop of [WaitForAllPoolsStable] and
    what follows it. *)
Fixpoint WaitForAllPoolsStable_loop (fuel : nat) (env : Env) (timeout : Duration)
    (pools : list string) (w : World) : option (option error * World) :=
  match pools with
  | [] => Some (None, emit InfoAllStable w)
  | poolName :: pools =>
    match WaitForPoolStable fuel env poolName timeout w with
    | None => None
    | Some (Some err, w) => Some (Some (ErrPoolFailed poolName err), w)
    | Some (None, w) => WaitForAllPoolsStable_loop fuel env timeout pools w
    end
  end.

(** func (mc *MCOClient) WaitForAllPoolsStable(ctx, timeout) error *)
Definition WaitForAllPoolsStable (fuel : nat) (env : Env) (timeout : Duration)
    (w : World) : option (option error * World) :=
  let w := emit (InfoWaitingAll timeout) w in
  match ListMachineConfigPools env w with
  | (inl err, w) => Some (Some (ErrListPools err), w)
  | (inr pools, w) =>
    if (length pools =? 0)%nat then Some (None, emit WarnNoPools w)
    else WaitForAllPoolsStable_loop fuel env timeout pools w
  end.

(** func (mc *MCOClient) HealthCheck(ctx) error *)
Definition HealthCheck (env : Env) (w : World) : option error * World :=
  match ListMachineConfigPools env w with
  | (inl err, w) => (Some (ErrHealthCheck err), w)
  | (inr _, w) => (None, w)
  end.

(** [waitsInTurn fuel env timeout pools w w']: waiting for the pools one
    after the other from [w], each wait with the timeout [timeout],
    succeeds for every pool and ends in [w']. *)
Inductive waitsInTurn (fuel : nat) (env : Env) (timeout : Duration)
  : list string → World → World → Prop :=
  | waitsInTurn_nil w : waitsInTurn fuel env timeout [] w w
  | waitsInTurn_cons poolName pools w w1 w2 :
      WaitForPoolStable fuel env poolName timeout w = Some (None, w1) →
      waitsInTurn fuel env timeout pools w1 w2 →
      waitsInTurn fuel env timeout (poolName :: pools) w w2.

(** The rest of an iteration of the loop of [WaitForPoolStable] once the
    pool was not found stable: the request for the status that is logged,
    then the [select]. *)
Definition afterCheck (fuel : nat) (env : Env) (poolName : string)
    (timeout : Duration) (deadline : Time) (w : World) : option (option error * World) :=
  let '(_, w) := GetPoolStatus env poolName w in
  match select_Done_After env pollInterval w with
  | (CtxDone err, w) => Some (Some (ErrCancelled poolName err), w)
  | (TimerFired, w) => WaitForPoolStable_loop fuel env poolName timeout deadline w
  end.

(** How a wait for [poolName] that started at [w] can have ended in [w']
    with result [r]: the deadline was reached, [ctx] was done, or the last
    interaction was a request for the pool, made during the wait, whose
    answer is a stable status. *)
Definition ended (env : Env) (poolName : string) (timeout : Duration) (deadline : Time)
    (w : World) (r : option error) (w' : World) : Prop :=
  (r = Some (ErrNotStabilized poolName timeout) ∧ deadline ≤ clock w')
  ∨ (∃ at_ err, r = Some (ErrCancelled poolName err)
                ∧ ctxDone env = Some (at_, err) ∧ at_ ≤ clock w')
  ∨ (r = None
     ∧ ∃ k pool status tr, (tick w ≤ k)%nat ∧ tick w' = S k
                           ∧ answerGet env k poolName = inr pool
                           ∧ parsePoolStatus pool = Some status ∧ stable status
                           ∧ trace w' = tr ++ [CallGet poolName; InfoStable poolName]).

End WithCluster.

Arguments mkEnv {Unstructured}.
Arguments elapsed {Unstructured}.
Arguments answerGet {Unstructured}.
Arguments answerList {Unstructured}.
Arguments ctxDone {Unstructured}.
Arguments timerFirst {Unstructured}.
Arguments interact {Unstructured}.
Arguments time_Now {Unstructured}.
Arguments select_Done_After {Unstructured}.
Arguments GetPoolStatus {Unstructured}.
Arguments IsPoolStable {Unstructured}.
Arguments WaitForPoolStable_loop {Unstructured}.
Arguments WaitForPoolStable {Unstructured}.
Arguments ListMachineConfigPools {Unstructured}.
Arguments WaitForAllPoolsStable_loop {Unstructured}.
Arguments WaitForAllPoolsStable {Unstructured}.
Arguments HealthCheck {Unstructured}.
Arguments waitsInTurn {Unstructured}.
Arguments ended {Unstructured}.
Arguments afterCheck {Unstructured}.

(** *** A cluster to run the client against *)

(** Objects that are their own parsed status. *)
Definition statusName (st : MachineConfigPoolStatus) : string := Name st.
Definition statusParse (st : MachineConfigPoolStatus) : option MachineConfigPoolStatus :=
  Some st.

Definition stablePool (name : string) : MachineConfigPoolStatus :=
  mkStatus name 3 3 3 0 false false "rendered-1".
Definition updatingPool (name : string) : MachineConfigPoolStatus :=
  mkStatus name 3 2 2 0 true false "rendered-0".

Definition startWorld : World := mkWorld 0 0 [].

(** A cluster in which every interaction takes a millisecond; a request
    among the first three interactions fails, later ones find the pool
    stable; [ctx] is never done. *)
Definition flakyThenStable : Env MachineConfigPoolStatus :=
  mkEnv
    (λ _, 1000000%N)
    (λ k name, if (k <? 3)%nat then inl "connection refused" else inr (stablePool name))
    (λ _, inr [stablePool "master"; stablePool "worker"])
    None
    (λ _, true).

(** A cluster whose pool ["master"] keeps updating while ["worker"] is stable. *)
Definition masterUpdating : Env MachineConfigPoolStatus :=
  mkEnv
    (λ _, 1000000%N)
    (λ _ name, if decide (name = "master") then inr (updatingPool name)
               else inr (stablePool name))
    (λ _, inr [stablePool "master"; stablePool "worker"])
    None
    (λ _, true).

(** *** Reading the status of a pool *)

Definition maxInt32 : Z := 2147483647.
Definition minInt32 : Z := -2147483648.

(** The two warnings [safeInt32Convert] logs, with their [value] field. *)
Inductive ClampWarning :=
  | ExceedsMax (value : Z)   (* "Machine count exceeds int32 max, clamping to max" *)
  | BelowMin (value : Z).    (* "Machine count below int32 min, clamping to min" *)

(** func (mc *MCOClient) safeInt32Convert(val int64) int32, with the
    warnings it logs. *)
Definition safeInt32Convert (val : Z) : Z * list ClampWarning :=
  if maxInt32 <? val then (maxInt32, [ExceedsMax val])
  else if val <? minInt32 then (minInt32, [BelowMin val])
  else (val, []).

Definition set_MachineCount (v : Z) (st : MachineConfigPoolStatus) :=
  mkStatus (Name st) v (UpdatedMachineCount st) (ReadyMachineCount st)
    (DegradedMachineCount st) (Updating st) (Degraded st) (CurrentConfiguration st).
Definition set_UpdatedMachineCount (v : Z) (st : MachineConfigPoolStatus) :=
  mkStatus (Name st) (MachineCount st) v (ReadyMachineCount st)
    (DegradedMachineCount st) (Updating st) (Degraded st) (CurrentConfiguration st).
Definition set_ReadyMachineCount (v : Z) (st : MachineConfigPoolStatus) :=
  mkStatus (Name st) (MachineCount st) (UpdatedMachineCount st) v
    (DegradedMachineCount st) (Updating st) (Degraded st) (CurrentConfiguration st).
Definition set_DegradedMachineCount (v : Z) (st : MachineConfigPoolStatus) :=
  mkStatus (Name st) (MachineCount st) (UpdatedMachineCount st) (ReadyMachineCount st)
    v (Updating st) (Degraded st) (CurrentConfiguration st).
Definition set_Updating (v : bool) (st : MachineConfigPoolStatus) :=
  mkStatus (Name st) (MachineCount st) (UpdatedMachineCount st) (ReadyMachineCount st)
    (DegradedMachineCount st) v (Degraded st) (CurrentConfiguration st).
Definition set_Degraded (v : bool) (st : MachineConfigPoolStatus) :=
  mkStatus (Name st) (MachineCount st) (UpdatedMachineCount st) (ReadyMachineCount st)
    (DegradedMachineCount st) (Updating st) v (CurrentConfiguration st).
Definition set_CurrentConfiguration (v : string) (st : MachineConfigPoolStatus) :=
  mkStatus (Name st) (MachineCount st) (UpdatedMachineCount st) (ReadyMachineCount st)
    (DegradedMachineCount st) (Updating st) (Degraded st) v.

(** [&MachineConfigPoolStatus{Name: name}] *)
Definition newStatus (name : string) : MachineConfigPoolStatus :=
  mkStatus name 0 0 0 0 false false "".

Section WithUnstructured.

(** [*unstructured.Unstructured], its [GetName()] and its field [Object], a
    [map[string]interface{}]; [interface{}] for the items of a slice. *)
Variable Unstructured : Type.
Variable Obj : Type.
Variable value : Type.
Variable GetName : Unstructured → string.
Variable Object : Unstructured → Obj.

(** The accessors of package [unstructured].  Each returns a value, [found]
    and [err]; the client only ever asks whether [err == nil && found], and
    the result here is [Some] of the value in that case and [None] in every
    other. *)
Variable NestedMap : Obj → list string → option Obj.
Variable NestedInt64 : Obj → list string → option Z.
Variable NestedString : Obj → list string → option string.
Variable NestedSlice : Obj → list string → option (list value).

(** The type assertion [cond.(map[string]interface{})], [None] when it is
    not [ok]. *)
Variable asMap : value → option Obj.

(** One [if count, found, err := unstructured.NestedInt64(statusMap, field);
    err == nil && found] of [parseMachineCounts], storing through [set]. *)
Definition parseCount (statusMap : Obj) (field : string)
    (set : Z → MachineConfigPoolStatus → MachineConfigPoolStatus)
    (acc : MachineConfigPoolStatus * list ClampWarning)
  : MachineConfigPoolStatus * list ClampWarning :=
  match NestedInt64 statusMap [field] with
  | Some count =>
    let '(v, warnings) := safeInt32Convert count in (set v acc.1, acc.2 ++ warnings)
  | None => acc
  end.

(** func (mc *MCOClient) parseMachineCounts(statusMap, status), with the
    warnings logged on the way. *)
Definition parseMachineCounts (statusMap : Obj) (status : MachineConfigPoolStatus)
  : MachineConfigPoolStatus * list ClampWarning :=
  let acc := (status, []) in
  let acc := parseCount statusMap "machineCount" set_MachineCount acc in
  let acc := parseCount statusMap "updatedMachineCount" set_UpdatedMachineCount acc in
  let acc := parseCount statusMap "readyMachineCount" set_ReadyMachineCount acc in
  parseCount statusMap "degradedMachineCount" set_DegradedMachineCount acc.

(** func (mc *MCOClient) parseConfiguration(statusMap, status) *)
Definition parseConfiguration (statusMap : Obj) (status : MachineConfigPoolStatus)
  : MachineConfigPoolStatus :=
  match NestedString statusMap ["configuration"; "name"] with
  | Some config => set_CurrentConfiguration config status
  | None => status
  end.

(** The body of the [for _, cond := range conditions] loop of
    [parseConditions]; each [continue] leaves [status] as it is. *)
Definition parseConditions_body (status : MachineConfigPoolStatus) (cond : value)
  : MachineConfigPoolStatus :=
  match asMap cond with
  | None => status
  | Some condMap =>
    match NestedString condMap ["type"], NestedString condMap ["status"] with
    | Some condType, Some condStatus =>
      let status :=
        if bool_decide (condType = "Updating") && bool_decide (condStatus = "True")
        then set_Updating true status else status in
      if bool_decide (condType = "Degraded") && bool_decide (condStatus = "True")
      then set_Degraded true status else status
    | _, _ => status
    end
  end.

(** func (mc *MCOClient) parseConditions(statusMap, status) *)
Definition parseConditions (statusMap : Obj) (status : MachineConfigPoolStatus)
  : MachineConfigPoolStatus :=
  match NestedSlice statusMap ["conditions"] with
  | None => status
  | Some conditions => foldl parseConditions_body status conditions
  end.

(** func (mc *MCOClient) parsePoolStatus(pool): the status, or [None] for
    the error "status not found in MachineConfigPool", and the warnings
    logged on the way. *)
Definition parsePoolStatus (pool : Unstructured)
  : option MachineConfigPoolStatus * list ClampWarning :=
  let status := newStatus (GetName pool) in
  match NestedMap (Object pool) ["status"] with
  | None => (None, [])
  | Some statusMap =>
    let '(status, warnings) := parseMachineCounts statusMap status in
    let status := parseConfiguration statusMap status in
    let status := parseConditions statusMap status in
    (Some status, warnings)
  end.

(** [parsePoolStatus] as [GetPoolStatus] uses it, where only the status
    or the error counts. *)
Definition parsedStatus (pool : Unstructured) : option MachineConfigPoolStatus :=
  (parsePoolStatus pool).1.

(** A condition of the slice that says [condType] is ["True"]. *)
Definition conditionTrue (condType : string) (cond : value) : Prop :=
  ∃ condMap, asMap cond = Some condMap
             ∧ NestedString condMap ["type"] = Some condType
             ∧ NestedString condMap ["status"] = Some "True".

(** What a count field holds after parsing: the reported value clamped, or
    what was there when the map reports none. *)
Definition parsedCount (statusMap : Obj) (field : string) (before : Z) : Z :=
  match NestedInt64 statusMap [field] with
  | Some count => (safeInt32Convert count).1
  | None => before
  end.

(** The conditions a status map carries. *)
Definition conditionsOf (statusMap : Obj) : list value :=
  default [] (NestedSlice statusMap ["conditions"]).

End WithUnstructured.

(** Within the range of [int32]. *)
Definition inInt32 (v : Z) : Prop := minInt32 ≤ v ≤ maxInt32.

(** *** Objects of a cluster, for running the parser *)

(** JSON-like values as the dynamic client decodes them. *)
#[local] Unset Elimination Schemes.
Inductive jsonValue :=
  | JNull
  | JBool (b : bool)
  | JInt64 (n : Z)
  | JString (s : string)
  | JMap (fields : list (string * jsonValue))
  | JSlice (items : list jsonValue).
#[local] Set Elimination Schemes.

Definition jsonObject := list (string * jsonValue).

Fixpoint jsonField (obj : jsonObject) (field : string) : option jsonValue :=
  match obj with
  | [] => None
  | (k, v) :: rest => if decide (k = field) then Some v else jsonField rest field
  end.

(** The value found by walking [fields] down the maps. *)
Fixpoint jsonNested (obj : jsonObject) (fields : list string) : option jsonValue :=
  match fields with
  | [] => Some (JMap obj)
  | [field] => jsonField obj field
  | field :: rest =>
    match jsonField obj field with
    | Some (JMap m) => jsonNested m rest
    | _ => None
    end
  end.

Definition jsonNestedMap (obj : jsonObject) (fields : list string) : option jsonObject :=
  match jsonNested obj fields with Some (JMap m) => Some m | _ => None end.
Definition jsonNestedInt64 (obj : jsonObject) (fields : list string) : option Z :=
  match jsonNested obj fields with Some (JInt64 n) => Some n | _ => None end.
Definition jsonNestedString (obj : jsonObject) (fields : list string) : option string :=
  match jsonNested obj fields with Some (JString s) => Some s | _ => None end.
Definition jsonNestedSlice (obj : jsonObject) (fields : list string)
  : option (list jsonValue) :=
  match jsonNested obj fields with Some (JSlice l) => Some l | _ => None end.
Definition jsonAsMap (v : jsonValue) : option jsonObject :=
  match v with JMap m => Some m | _ => None end.

(** The name of an object, under [metadata.name]. *)
Definition jsonName (obj : jsonObject) : string :=
  default "" (jsonNestedString obj ["metadata"; "name"]).

(** The parser on these objects. *)
Definition jsonParsePoolStatus (pool : jsonObject)
  : option MachineConfigPoolStatus * list ClampWarning :=
  parsePoolStatus jsonObject jsonObject jsonValue jsonName (λ o, o)
    jsonNestedMap jsonNestedInt64 jsonNestedString jsonNestedSlice jsonAsMap pool.

(** The parser as [GetPoolStatus] uses it on these objects. *)
Definition jsonParsedStatus (pool : jsonObject) : option MachineConfigPoolStatus :=
  (jsonParsePoolStatus pool).1.

Definition jsonCondition (condType condStatus : string) : jsonValue :=
  JMap [("type", JString condType); ("status", JString condStatus)].

(** A worker pool in the middle of a rollout, one machine count beyond
    [int32], and a pool whose status is an empty map. *)
Definition rollingPool : jsonObject :=
  [("metadata", JMap [("name", JString "worker")]);
   ("status",
    JMap [("machineCount", JInt64 3);
          ("updatedMachineCount", JInt64 2);
          ("readyMachineCount", JInt64 5000000000);
          ("configuration", JMap [("name", JString "rendered-worker-1")]);
          ("conditions",
           JSlice [jsonCondition "Updated" "False";
                   JString "not a condition";
                   JMap [("type", JString "Degraded")];
                   jsonCondition "Updating" "True";
                   jsonCondition "Degraded" "False"])])].

Definition blankPool : jsonObject :=
  [("metadata", JMap [("name", JString "infra")]); ("status", JMap [])].

(** A pool in the middle of a rollout whose two counts are both beyond
    [int32]. *)
Definition oversizedPool : jsonObject :=
  [("metadata", JMap [("name", JString "huge")]);
   ("status",
    JMap [("machineCount", JInt64 4000000000);
          ("updatedMachineCount", JInt64 3000000000)])].

(** A cluster that always answers with the same object. *)
Definition clusterOf (pool : jsonObject) : Env jsonObject :=
  mkEnv (λ _, 1000000%N) (λ _ _, inr pool) (λ _, inr [pool]) None (λ _, true).

(** A cluster whose requests fail, with an already cancelled [ctx]. *)
Definition unreachableCancelled : Env MachineConfigPoolStatus :=
  mkEnv (λ _, 1000000%N) (λ _ _, inl "context canceled") (λ _, inl "context canceled")
    (Some (0, Canceled)) (λ _, true).

End Integrations.

(* ===================================================================== *)
(** ** The recommendations handler: recurring issues of the store *)
(* ===================================================================== *)

Module Recommendations.

(** Characters, and [float64] with its constants. *)
Import Strings.Ascii.
Import PrimFloat.

(** type Recommendation struct; the field [Type] is [RType] here. *)
Record Recommendation := mkRecommendation {
  ID : string;
  RType : string;
  IssueType : string;
  Target : string;
  Namespace : string;
  Severity : string;
  Confidence : PrimFloat.float;
  PredictedTime : string;
  RecommendedActions : list string;
  Evidence : list string;
  Source : string;
  RelatedIncidentID : string;
}.

(** The decimal constants of the source denote the nearest [float64]. *)
#[local] Set Warnings "-inexact-float".

(** func calculateHistoricalConfidence(count int) float64 *)
Definition calculateHistoricalConfidence (count : Z) : PrimFloat.float :=
  if 10 <=? count then 0.95%float
  else if 5 <=? count then 0.85%float
  else if 3 <=? count then 0.75%float
  else 0.65%float.

(** The default that [GetRecommendations] gives [req.ConfidenceThreshold]
    when it is zero. *)
Definition withDefaultThreshold (threshold : PrimFloat.float) : PrimFloat.float :=
  if PrimFloat.eqb threshold 0%float then 0.7%float else threshold.

#[local] Set Warnings "inexact-float".

(** func mapCountToSeverity(count int) string *)
Definition mapCountToSeverity (count : Z) : string :=
  if 10 <=? count then "critical"
  else if 5 <=? count then "high"
  else if 3 <=? count then "medium"
  else "low".

(** The [actionMap] of [getRecommendedActions]. *)
Definition actionMap : gmap string (list string) :=
  list_to_map
    [("pod_crash_loop",
      ["check_container_logs"; "verify_resource_limits"; "review_health_probes"]);
     ("memory_pressure",
      ["increase_memory_limit"; "add_horizontal_scaling"; "optimize_memory_usage"]);
     ("cpu_throttling",
      ["increase_cpu_limit"; "optimize_cpu_usage"; "consider_vertical_scaling"]);
     ("high",
      ["investigate_root_cause"; "increase_resources"; "review_deployment_config"]);
     ("critical",
      ["immediate_investigation"; "scale_resources"; "contact_on_call"])].

(** func getRecommendedActions(issueType string) []string *)
Definition getRecommendedActions (issueType : string) : list string :=
  match actionMap !! issueType with
  | Some actions => actions
  | None => ["investigate_issue"; "review_logs"; "check_metrics"]
  end.

(** [k] characters ['0']. *)
Fixpoint zeros (k : nat) : string :=
  match k with
  | O => ""
  | S k => String "0"%char (zeros k)
  end.

(** [fmt.Sprintf] with the verb [%d] and with the verb [%03d]: at least
    three characters, the zeros after the sign. *)
Definition Sprintf_d (n : Z) : string := pretty n.

Definition Sprintf_03d (n : Z) : string :=
  let digits := pretty (Z.abs n) in
  let sign := if n <? 0 then "-" else "" in
  sign +:+ zeros (3 - String.length sign - String.length digits) +:+ digits.

(** The index at which the loop [for i, c := range key] finds [c == ':'].
    The loop decodes UTF-8, and a decoded character is a colon only at a
    byte that is a colon, [i] being the index of that byte. *)
Fixpoint indexColon (key : string) : option nat :=
  match key with
  | EmptyString => None
  | String c rest => if Strings.Ascii.eqb c ":"%char then Some O else S <$> indexColon rest
  end.

(** [var issueType, namespace string] and the [if len(key) > 0] that fills
    them: [key[:i]] and [key[i+1:]] at the first colon, both empty without
    one. *)
Definition splitKey (key : string) : string * string :=
  if (0 <? String.length key)%nat then
    match indexColon key with
    | Some i => (substring 0 i key, substring (S i) (String.length key - S i) key)
    | None => ("", "")
    end
  else ("", "").

(** [issueFrequency[key]++] on a [map[string]int]; a count is at most the
    number of incidents and workflows, far from the limit of [int]. *)
Definition increment (key : string) (issueFrequency : gmap string Z) : gmap string Z :=
  <[key := default 0 (issueFrequency !! key) + 1]> issueFrequency.

(** The key under which an incident is counted. *)
Definition incidentKey (i : Storage.Incident) : string :=
  Storage.Severity i +:+ ":" +:+ Storage.Target i.

(** The body of the loop [for key, count := range issueFrequency] of
    [getHistoricalRecommendations], on [recID] and [recommendations]; each
    [continue] leaves both as they are. *)
Definition recommend_body (acc : Z * list Recommendation) (entry : string * Z)
  : Z * list Recommendation :=
  let '(recID, recommendations) := acc in
  let '(key, count) := entry in
  if count <? 2 then acc
  else
    let '(issueType, namespace) := splitKey key in
    if bool_decide (issueType = "") || bool_decide (namespace = "") then acc
    else
      let recID := recID + 1 in
      let rec :=
        mkRecommendation
          ("rec-hist-" +:+ Sprintf_03d recID)
          "proactive"
          issueType
          namespace
          namespace
          (mapCountToSeverity count)
          (calculateHistoricalConfidence count)
          ""
          (getRecommendedActions issueType)
          ["Issue occurred " +:+ Sprintf_d count +:+ " times in recent history";
           "Pattern detected in namespace: " +:+ namespace]
          "historical_analysis"
          "" in
      (recID, recommendations ++ [rec]).

(** The two filters at the end of [GetRecommendations]: by
    [rec.Confidence >= req.ConfidenceThreshold], and by [rec.Namespace ==
    req.Namespace] when a namespace is asked for. *)
Definition filterByConfidence (threshold : PrimFloat.float)
    (recommendations : list Recommendation) : list Recommendation :=
  filter (λ rec, PrimFloat.leb threshold (Confidence rec) = true) recommendations.

Definition filterByNamespace (reqNamespace : string)
    (filteredRecs : list Recommendation) : list Recommendation :=
  if decide (reqNamespace = "") then filteredRecs
  else filter (λ rec, Namespace rec = reqNamespace) filteredRecs.

Section WithHandler.

(** [*models.Workflow] of the missing package [pkg/models], with the two
    fields the handler reads, [wf.IssueType] and [wf.Namespace]. *)
Variable Workflow : Type.
Variable WIssueType : Workflow → string.
Variable WNamespace : Workflow → string.

(** The order of a [range] over the store's map and over [issueFrequency],
    and [sort.Slice], as in the store. *)
Variable range : gmap string Storage.ptr → list (string * Storage.ptr).
Variable sort_Slice :
  (Storage.ptr → Storage.ptr → bool) → list Storage.ptr → list Storage.ptr.
Variable rangeFrequency : gmap string Z → list (string * Z).

(** The map [issueFrequency] after the two counting loops.  [orchestrator]
    is [None] for a nil [h.orchestrator] and holds the result of
    [ListWorkflows()] otherwise.  The map [namespaceIssues] that the loops
    also fill is never read, and is left out. *)
Definition issueFrequency (orchestrator : option (list Workflow)) (reqNamespace : string)
    (s : Storage.State) : gmap string Z :=
  let filter := Storage.mkListFilter reqNamespace "" "" 100 in
  let incidents := Storage.List range sort_Slice filter s in
  let workflows := default [] orchestrator in
  let issueFrequency :=
    foldl (λ m inc, increment (incidentKey (Storage.deref s inc)) m) ∅ incidents in
  foldl (λ m wf, increment (WIssueType wf +:+ ":" +:+ WNamespace wf) m)
        issueFrequency workflows.

(** func (h *RecommendationsHandler) getHistoricalRecommendations(ctx, req)
    []Recommendation; of [req] only [Namespace] is read. *)
Definition getHistoricalRecommendations (orchestrator : option (list Workflow))
    (reqNamespace : string) (s : Storage.State) : list Recommendation :=
  let issueFrequency := issueFrequency orchestrator reqNamespace s in
  (foldl recommend_body (0, []) (rangeFrequency issueFrequency)).2.

End WithHandler.

(** *** Vocabulary of the properties *)

(** An entry [key, count] of [issueFrequency] for which the loop appends a
    recommendation. *)
Definition recurring (entry : string * Z) : Prop :=
  2 ≤ entry.2 ∧ (splitKey entry.1).1 ≠ "" ∧ (splitKey entry.1).2 ≠ "".

#[global] Instance recurring_dec entry : Decision (recurring entry).
Proof. unfold recurring. apply _. Defined.

(** [rec] is the recommendation of the entry [key, count]: the key is its
    issue type and its namespace around a colon, and the other fields are
    those of a historical recommendation for [count] occurrences. *)
Definition recommends (entry : string * Z) (rec : Recommendation) : Prop :=
  entry.1 = IssueType rec +:+ ":" +:+ Namespace rec
  ∧ indexColon (IssueType rec) = None
  ∧ IssueType rec ≠ "" ∧ Namespace rec ≠ ""
  ∧ 2 ≤ entry.2
  ∧ Target rec = Namespace rec
  ∧ Severity rec = mapCountToSeverity entry.2
  ∧ Confidence rec = calculateHistoricalConfidence entry.2
  ∧ RecommendedActions rec = getRecommendedActions (IssueType rec)
  ∧ RType rec = "proactive" ∧ Source rec = "historical_analysis"
  ∧ PredictedTime rec = "" ∧ RelatedIncidentID rec = "".

(** The sum of the counts of a frequency map. *)
Definition occurrences (issueFrequency : gmap string Z) : Z :=
  foldr (λ entry total, entry.2 + total) 0 (map_to_list issueFrequency).

(** *** Sample handler *)

(** Workflows as pairs of an issue type and a namespace. *)
Definition pairWorkflow : Type := string * string.

(** The historical recommendations of a store, without orchestrator, the
    maps ranged over in the order of their lists. *)
Definition historyOf (reqNamespace : string) (s : Storage.State) : list Recommendation :=
  getHistoricalRecommendations pairWorkflow fst snd Storage.rangeToList Storage.mergeSlice
    map_to_list None reqNamespace s.

Definition frequencyOf (reqNamespace : string) (s : Storage.State) : gmap string Z :=
  issueFrequency pairWorkflow fst snd Storage.rangeToList Storage.mergeSlice
    None reqNamespace s.

(** The recommendation for two incidents of severity ["low"] in ["ns1"]. *)
Definition lowTwice : Recommendation :=
  mkRecommendation "rec-hist-001" "proactive" "low" "ns1" "ns1"
    (mapCountToSeverity 2) (calculateHistoricalConfidence 2) ""
    (getRecommendedActions "low")
    ["Issue occurred 2 times in recent history"; "Pattern detected in namespace: ns1"]
    "historical_analysis" "".

(** Two incidents of target ["ns1"] whose severity holds a colon. *)
Definition colonSeverities : Storage.State :=
  let h : gmap Storage.ptr Storage.Incident :=
    <[21%positive := Storage.mkIncident "inc-x" "ns1" "sev:1" "" 0 0 None]>
    (<[22%positive := Storage.mkIncident "inc-y" "ns1" "sev:1" "" 0 0 None]> ∅) in
  let s := Storage.set_heap h Storage.emptyState in
  let s := (Storage.Create Storage.requireTarget Storage.marshalIDs 1 "" 21%positive s).2 in
  (Storage.Create Storage.requireTarget Storage.marshalIDs 2 "" 22%positive s).2.

End Recommendations.

(* ===================================================================== *)
(** ** Properties of the incident store *)
(* ===================================================================== *)

Module StorageSpec.
Import Storage.

(** *** Reading and writing through pointers *)

Lemma deref_store_eq p i s : deref (store p i s) p = i.
Proof. unfold deref, store. simpl. apply lookup_total_insert_eq. Qed.

Lemma deref_store_ne p q i s : p ≠ q → deref (store p i s) q = deref s q.
Proof. intros. unfold deref, store. simpl. by apply lookup_total_insert_ne. Qed.

Lemma deref_set_incidents m s p : deref (set_incidents m s) p = deref s p.
Proof. reflexivity. Qed.

(** *** What persisting changes *)

Lemma next_fault_memory s :
  incidents (next_fault s).2 = incidents s ∧ heap (next_fault s).2 = heap s
  ∧ filePath (next_fault s).2 = filePath s ∧ files (next_fault s).2 = files s
  ∧ calls (next_fault s).2 = calls s.
Proof. unfold next_fault. destruct (faults s); simpl; auto. Qed.

(** [saveToFileUnsafe] reads the map and the heap and writes neither. *)
Lemma saveToFileUnsafe_memory marshal s :
  incidents (saveToFileUnsafe marshal s).2 = incidents s
  ∧ heap (saveToFileUnsafe marshal s).2 = heap s
  ∧ filePath (saveToFileUnsafe marshal s).2 = filePath s.
Proof.
  unfold saveToFileUnsafe.
  destruct (decide (filePath s = "")); [done|].
  destruct (marshal _); [|done].
  repeat (match goal with
          | |- context [next_fault ?x] =>
            let H := fresh in
            pose proof (next_fault_memory x) as H;
            destruct (next_fault x) as [[] ?]; simpl in H; destruct H as (?&?&?&?&?)
          end; simpl in * ); simpl; repeat split; congruence.
Qed.

Lemma saveToFileUnsafe_incidents marshal s r s' :
  saveToFileUnsafe marshal s = (r, s') → incidents s' = incidents s.
Proof. intros H. pose proof (saveToFileUnsafe_memory marshal s) as M. rewrite H in M. apply M. Qed.

Lemma saveToFileUnsafe_heap marshal s r s' :
  saveToFileUnsafe marshal s = (r, s') → heap s' = heap s.
Proof. intros H. pose proof (saveToFileUnsafe_memory marshal s) as M. rewrite H in M. apply M. Qed.

Lemma saveToFileUnsafe_deref marshal s r s' p :
  saveToFileUnsafe marshal s = (r, s') → deref s' p = deref s p.
Proof. intros H. unfold deref. by rewrite (saveToFileUnsafe_heap _ _ _ _ H). Qed.

(** *** Rollback after a failed write *)

(** [Delete] puts the entry back. *)
Lemma Delete_rollback marshal id s err s' :
  Delete marshal id s = (Some (ErrPersistDeletion err), s') →
  incidents s' = incidents s ∧ heap s' = heap s.
Proof.
  unfold Delete. destruct (incidents s !! id) as [deleted|] eqn:Hid; [|congruence].
  destruct (decide _); [|congruence].
  destruct (saveToFileUnsafe _ _) as [[e|] s1] eqn:Hsave; [|congruence].
  intros [= <- <-].
  pose proof (saveToFileUnsafe_incidents _ _ _ _ Hsave) as Hi.
  pose proof (saveToFileUnsafe_heap _ _ _ _ Hsave) as Hh.
  simpl in *. rewrite Hi, Hh. split; [|done].
  rewrite insert_delete_eq. by apply insert_id.
Qed.

(** [Update] puts the old pointer back; the write of [UpdatedAt] through
    the caller's pointer stays. *)
Lemma Update_rollback marshal now incident s err s' :
  Update marshal now incident s = (Some (ErrPersistUpdate err), s') →
  incidents s' = incidents s
  ∧ heap s' = <[incident := set_UpdatedAt now (deref s incident)]> (heap s).
Proof.
  unfold Update. destruct (incidents s !! _) as [old|] eqn:Hid; [|congruence].
  destruct (decide _); [|congruence].
  destruct (saveToFileUnsafe _ _) as [[e|] s1] eqn:Hsave; [|congruence].
  intros [= <- <-].
  pose proof (saveToFileUnsafe_incidents _ _ _ _ Hsave) as Hi.
  pose proof (saveToFileUnsafe_heap _ _ _ _ Hsave) as Hh.
  simpl in *. rewrite Hi, Hh. split; [|done].
  rewrite (saveToFileUnsafe_deref _ _ _ _ incident Hsave), deref_set_incidents.
  rewrite !deref_store_eq. simpl.
  rewrite insert_insert_eq. by apply insert_id.
Qed.

(** C1, at an input on which the rollback of [Create] fails: the store holds
    an incident ["inc-1"]; a [Create] of another record with that identifier
    whose write to the file fails returns the persistence error, and
    afterwards [Get] no longer finds ["inc-1"] and [Count] went from 1 to 0. *)
Theorem C1_Create_rollback_drops_existing_entry :
  let before := set_faults [true] storeWithA in
  let result := Create requireTarget marshalIDs 200 "inc-9f8e7d6c" 2%positive before in
  Get "inc-1" before = inr 1%positive
  ∧ Count before = 1%nat
  ∧ result.1 = inl (ErrPersistIncident ErrWriteTemp)
  ∧ Get "inc-1" result.2 = inl (ErrNotFound "inc-1")
  ∧ Count result.2 = 0%nat.
Proof. vm_compute. repeat split. Qed.

(** A failed [Update] through the pointer the store holds: the map is
    restored, and the incident it leads to keeps the new [UpdatedAt]. *)
Example Update_rollback_keeps_UpdatedAt :
  let before := set_faults [true] storeWithA in
  let result := Update marshalIDs 300 1%positive before in
  result.1 = Some (ErrPersistUpdate ErrWriteTemp)
  ∧ Get "inc-1" before = inr 1%positive
  ∧ Get "inc-1" result.2 = inr 1%positive
  ∧ UpdatedAt (deref before 1%positive) = 100
  ∧ UpdatedAt (deref result.2 1%positive) = 300.
Proof. vm_compute. repeat split. Qed.

(** The same call on a store that does not hold the identifier leaves the
    map as it was. *)
Lemma Create_rollback_fresh Validate marshal now newID incident s err s' :
  Create Validate marshal now newID incident s = (inl (ErrPersistIncident err), s') →
  incidents s !! ID (deref s' incident) = None →
  incidents s' = incidents s.
Proof.
  unfold Create. destruct (Validate _); [congruence|]. cbv zeta.
  set (s1 := if decide (ID (deref s incident) = "") then _ else _).
  set (s2 := store incident (set_CreatedAt now (deref s1 incident)) s1).
  set (s3 := store incident (set_UpdatedAt now (deref s2 incident)) s2).
  set (s4 := if decide (Status (deref s3 incident) = "") then _ else _).
  assert (incidents s4 = incidents s) as Hinc.
  { subst s4 s3 s2 s1. repeat (case_decide; simpl); done. }
  clearbody s4. clear s1 s2 s3.
  case_decide; [|congruence].
  destruct (saveToFileUnsafe _ _) as [[e|] s5] eqn:Hsave; [|congruence].
  intros [= <- <-] Hfresh.
  pose proof (saveToFileUnsafe_incidents _ _ _ _ Hsave) as Hi.
  pose proof (saveToFileUnsafe_deref _ _ _ _ incident Hsave) as Hd.
  simpl in *. rewrite deref_set_incidents in Hd. rewrite Hi, Hinc, Hd.
  rewrite delete_insert_eq. apply delete_id. by rewrite <- Hd.
Qed.

(** *** Validation *)

(** C2, refuted as stated: after a [Create] of a valid record, an [Update]
    with a record of the same identifier that fails validation succeeds,
    and the store then holds an incident that never passed validation. *)
Lemma C2_counterexample_Update_skips_validation :
  ¬ (∀ s, reachable requireTarget marshalIDs unmarshalEmpty utcAddDate rangeToList s →
          ∀ id p, incidents s !! id = Some p → requireTarget (deref s p) = None).
Proof.
  intros H.
  pose (s0 := NewIncidentStore (set_heap callerHeap emptyState)).
  pose (s1 := (Create requireTarget marshalIDs 100 "inc-0a1b2c3d" 1%positive s0).2).
  pose (s2 := (Update marshalIDs 200 3%positive s1).2).
  assert (reachable requireTarget marshalIDs unmarshalEmpty utcAddDate rangeToList s2) as R.
  { apply reach_Update, reach_Create, reach_New. }
  specialize (H s2 R "inc-1" 3%positive).
  vm_compute in H. specialize (H eq_refl). discriminate H.
Qed.

(** C2, as the code has it: [Create] validates the record before anything
    else.  A record that fails validation is rejected with the validation
    error and the state is left as it was; when [Create] succeeds the record
    passed validation as the caller supplied it, and the map is the old map
    with that record under its identifier.  ([Update] and [LoadFromFile] do
    not call [Validate].) *)
Theorem C2_Create_validates Validate marshal now newID incident s :
  (∀ err, Validate (deref s incident) = Some err →
     Create Validate marshal now newID incident s = (inl (ErrValidation err), s))
  ∧ (∀ p s', Create Validate marshal now newID incident s = (inr p, s') →
       Validate (deref s incident) = None
       ∧ p = incident
       ∧ incidents s' = <[ID (deref s' incident) := incident]> (incidents s)).
Proof.
  split.
  - intros err Hv. unfold Create. by rewrite Hv.
  - intros p s'. unfold Create. destruct (Validate _); [congruence|]. cbv zeta.
    set (s1 := if decide (ID (deref s incident) = "") then _ else _).
    set (s2 := store incident (set_CreatedAt now (deref s1 incident)) s1).
    set (s3 := store incident (set_UpdatedAt now (deref s2 incident)) s2).
    set (s4 := if decide (Status (deref s3 incident) = "") then _ else _).
    assert (incidents s4 = incidents s) as Hinc.
    { subst s4 s3 s2 s1. repeat (case_decide; simpl); done. }
    clearbody s4. clear s1 s2 s3.
    case_decide.
    + destruct (saveToFileUnsafe _ _) as [[e|] s5] eqn:Hsave; [congruence|].
      intros [= <- <-].
      pose proof (saveToFileUnsafe_incidents _ _ _ _ Hsave) as Hi.
      pose proof (saveToFileUnsafe_deref _ _ _ _ incident Hsave) as Hd.
      simpl in *. rewrite deref_set_incidents in Hd. rewrite Hi, Hinc, Hd. done.
    + intros [= <- <-]. simpl. rewrite deref_set_incidents, Hinc. done.
Qed.

Lemma C2_Create_validates_witness :
  requireTarget (deref storeWithA 3%positive) = Some "target is required"
  ∧ Create requireTarget marshalIDs 200 "inc-9f8e7d6c" 3%positive storeWithA
    = (inl (ErrValidation "target is required"), storeWithA).
Proof.
  split; [reflexivity|].
  apply (proj1 (C2_Create_validates requireTarget marshalIDs 200 "inc-9f8e7d6c"
                  3%positive storeWithA)).
  reflexivity.
Defined.

(** *** Timestamps on update *)

(** A successful [Update] stores the caller's pointer and writes
    [UpdatedAt] through it. *)
Lemma Update_success marshal now incident s s' :
  Update marshal now incident s = (None, s') →
  incidents s' = <[ID (deref s incident) := incident]> (incidents s)
  ∧ heap s' = <[incident := set_UpdatedAt now (deref s incident)]> (heap s).
Proof.
  unfold Update. destruct (incidents s !! _) as [old|]; [|congruence]. cbv zeta.
  rewrite !deref_store_eq. simpl.
  case_decide.
  - destruct (saveToFileUnsafe _ _) as [[e|] s2] eqn:Hsave; [congruence|].
    intros [= <-].
    pose proof (saveToFileUnsafe_incidents _ _ _ _ Hsave) as Hi.
    pose proof (saveToFileUnsafe_heap _ _ _ _ Hsave) as Hh.
    by rewrite Hi, Hh.
  - by intros [= <-].
Qed.

(** C3, refuted as stated: the store holds ["inc-1"] created at instant 100;
    an [Update] with a caller's record of that identifier whose [CreatedAt]
    is 5 succeeds, and the stored [CreatedAt] is then 5. *)
Lemma C3_counterexample_Update_takes_CreatedAt :
  ¬ (∀ now incident s s' old new,
       incidents s !! ID (deref s incident) = Some old →
       Update marshalIDs now incident s = (None, s') →
       incidents s' !! ID (deref s incident) = Some new →
       CreatedAt (deref s' new) = CreatedAt (deref s old)
       ∧ UpdatedAt (deref s' new) = now).
Proof.
  intros H.
  destruct (H 200 2%positive storeWithA (Update marshalIDs 200 2%positive storeWithA).2
              1%positive 2%positive) as [Hc _]; [reflexivity..|].
  vm_compute in Hc. discriminate Hc.
Qed.

(** C3, as the code has it: a successful [Update] stores the caller's
    pointer under the record's identifier and writes [UpdatedAt] only, so
    afterwards the stored [UpdatedAt] is the time of the call and the stored
    [CreatedAt] is the one of the caller's record; it is the [CreatedAt]
    stored before when the caller's pointer is the stored one. *)
Theorem C3_Update_timestamps marshal now incident s s' :
  Update marshal now incident s = (None, s') →
  incidents s' !! ID (deref s incident) = Some incident
  ∧ deref s' incident = set_UpdatedAt now (deref s incident)
  ∧ UpdatedAt (deref s' incident) = now
  ∧ CreatedAt (deref s' incident) = CreatedAt (deref s incident)
  ∧ (∀ old, incidents s !! ID (deref s incident) = Some old → old = incident →
       CreatedAt (deref s' incident) = CreatedAt (deref s old)).
Proof.
  intros Hup. destruct (Update_success _ _ _ _ _ Hup) as [Hi Hh].
  assert (deref s' incident = set_UpdatedAt now (deref s incident)) as Hd.
  { unfold deref at 1. rewrite Hh. apply lookup_total_insert_eq. }
  rewrite Hi, Hd, lookup_insert_eq. simpl.
  repeat split. by intros ? _ ->.
Qed.

Lemma C3_Update_timestamps_witness :
  let s' := (Update marshalIDs 200 2%positive storeWithA).2 in
  incidents s' !! "inc-1" = Some 2%positive
  ∧ deref s' 2%positive = set_UpdatedAt 200 recordB
  ∧ UpdatedAt (deref s' 2%positive) = 200
  ∧ CreatedAt (deref s' 2%positive) = 5
  ∧ (∀ old, incidents storeWithA !! "inc-1" = Some old → old = 2%positive →
       CreatedAt (deref s' 2%positive) = CreatedAt (deref storeWithA old)).
Proof.
  apply (C3_Update_timestamps marshalIDs 200 2%positive storeWithA). reflexivity.
Defined.

(** *** Listing *)

(** The loop of [List] appends the pointers of the entries that satisfy the
    filter, in the order of the iteration. *)
Lemma List_loop f s (l : list (string * ptr)) (acc : list ptr) :
  foldl (List_body f s) acc l
  = acc ++ (base.filter (λ e : string * ptr, matchesFilter f (deref s e.2)) l).*2.
Proof.
  revert acc. induction l as [|e l IH]; intros acc; simpl.
  { by rewrite app_nil_r. }
  rewrite IH. unfold List_body. rewrite filter_cons.
  destruct (decide (matchesFilter f (deref s e.2))) as [M|M].
  - destruct M as (M1 & M2 & M3).
    repeat (case_bool_decide; simpl; try (by intuition)).
    all: by rewrite <- app_assoc.
  - unfold matchesFilter in M.
    repeat (case_bool_decide; simpl; try done).
    all: exfalso; apply M; repeat split; try (by left); try (by right);
      destruct (decide (Namespace f = "")), (decide (FSeverity f = "")),
        (decide (FStatus f = "")); intuition.
Qed.

Lemma StronglySorted_weaken {A} (R R' : A → A → Prop) (l : list A) :
  (∀ a b, R a b → R' a b) → StronglySorted R l → StronglySorted R' l.
Proof.
  intros HR. induction 1 as [|a l Hs IH Hall]; constructor; [done|].
  eapply Forall_impl; [exact Hall|]. intros b. apply HR.
Qed.

(** Comparing by [CreatedAt] with [After] is a strict weak ordering. *)
Lemma After_CreatedAt_StrictWeak s :
  StrictWeak (λ i j, After (CreatedAt (deref s i)) (CreatedAt (deref s j))).
Proof.
  unfold StrictWeak, After. repeat split; intros *.
  - apply Z.ltb_irrefl.
  - rewrite !Z.ltb_lt. lia.
  - rewrite !Z.ltb_ge. lia.
Qed.

Section Listing.

Variable range : gmap string ptr → list (string * ptr).
Variable sort_Slice : (ptr → ptr → bool) → list ptr → list ptr.

(** A [range] yields every entry of the map once, in some order. *)
Hypothesis range_entries : ∀ m, range m ≡ₚ map_to_list m.

(** [sort.Slice] rearranges the slice, and leaves it in the order of a
    [less] that is a strict weak ordering. *)
Hypothesis sort_Slice_permutes : ∀ less l, sort_Slice less l ≡ₚ l.
Hypothesis sort_Slice_sorts :
  ∀ less l, StrictWeak less → StronglySorted (inOrder less) (sort_Slice less l).

(** C5: [List] returns the incidents of the store that satisfy every
    non-empty predicate of the filter, newest first by [CreatedAt], cut
    after [Limit] items when [Limit] is positive. *)
Theorem C5_List_filters_sorts_limits (f : ListFilter) (s : State) :
  ∃ sorted : list ptr,
    sorted ≡ₚ matching f s
    ∧ StronglySorted (newestFirst s) sorted
    ∧ List range sort_Slice f s
      = (if 0 <? Limit f then take (Z.to_nat (Limit f)) sorted else sorted)
    ∧ (0 < Limit f → Z.of_nat (length (List range sort_Slice f s)) ≤ Limit f)
    ∧ (∀ p, p ∈ sorted ↔
            ∃ id, incidents s !! id = Some p ∧ matchesFilter f (deref s p)).
Proof.
  set (less := λ i j, After (CreatedAt (deref s i)) (CreatedAt (deref s j))).
  set (results := foldl (List_body f s) [] (range (incidents s))).
  exists (sort_Slice less results).
  assert (sort_Slice less results ≡ₚ matching f s) as Hperm.
  { rewrite sort_Slice_permutes. subst results. rewrite List_loop. simpl.
    unfold matching. by rewrite range_entries. }
  split; [exact Hperm|]. split; [|split; [|split]].
  - eapply StronglySorted_weaken; [|apply sort_Slice_sorts, After_CreatedAt_StrictWeak].
    intros a b. unfold inOrder, newestFirst, less, After. rewrite Z.ltb_ge. done.
  - unfold List. fold results. fold less.
    destruct (0 <? Limit f) eqn:Hpos; simpl; [|done].
    destruct (Limit f <? _) eqn:Hlen; [done|].
    apply Z.ltb_ge in Hlen. symmetry. apply take_ge. lia.
  - intros Hpos. unfold List. fold results. fold less.
    apply Z.ltb_lt in Hpos as Hpos'. rewrite Hpos'. simpl.
    destruct (Limit f <? _) eqn:Hlen.
    + rewrite length_take. lia.
    + apply Z.ltb_ge in Hlen. done.
  - intros p. rewrite Hperm. unfold matching. rewrite list_elem_of_fmap. split.
    + intros [[id q] [-> Hin]]. apply list_elem_of_filter in Hin as [Hm Hin].
      apply elem_of_map_to_list in Hin. by exists id.
    + intros [id [Hin Hm]]. exists (id, p). split; [done|].
      apply list_elem_of_filter. split; [done|]. by apply elem_of_map_to_list.
Qed.

End Listing.

(** The sample environment meets the assumptions on [range] and [sort.Slice]. *)
Lemma rangeToList_entries m : rangeToList m ≡ₚ map_to_list m.
Proof. done. Qed.

Lemma mergeSlice_permutes less l : mergeSlice less l ≡ₚ l.
Proof. apply merge_sort_Permutation. Qed.

Lemma mergeSlice_sorts less l :
  StrictWeak less → StronglySorted (inOrder less) (mergeSlice less l).
Proof.
  intros (Hirr & Htr & Hneg).
  assert (Transitive (inOrder less)) as HT.
  { intros a b c. unfold inOrder. intros ? ?. by apply (Hneg c b a). }
  assert (Total (inOrder less)) as Htot.
  { intros a b. unfold inOrder. destruct (less b a) eqn:Hba; [|by left].
    right. destruct (less a b) eqn:Hab; [|done].
    pose proof (Htr a b a Hab Hba) as Haa. by rewrite Hirr in Haa. }
  apply StronglySorted_merge_sort; done.
Qed.

Example P4_filter_sort_limit :
  List rangeToList mergeSlice (mkListFilter "ns1" "" "" 2) threeIncidents
  = [12%positive; 13%positive].
Proof. vm_compute. reflexivity. Qed.

Lemma C5_List_filters_sorts_limits_witness :
  ∃ sorted : list ptr,
    sorted ≡ₚ matching (mkListFilter "ns1" "" "" 2) threeIncidents
    ∧ StronglySorted (newestFirst threeIncidents) sorted
    ∧ List rangeToList mergeSlice (mkListFilter "ns1" "" "" 2) threeIncidents
      = take 2 sorted
    ∧ (0 < 2 → Z.of_nat (length (List rangeToList mergeSlice
                                    (mkListFilter "ns1" "" "" 2) threeIncidents)) ≤ 2)
    ∧ (∀ p, p ∈ sorted ↔
            ∃ id, incidents threeIncidents !! id = Some p
                  ∧ matchesFilter (mkListFilter "ns1" "" "" 2) (deref threeIncidents p)).
Proof.
  exact (C5_List_filters_sorts_limits rangeToList mergeSlice rangeToList_entries
           mergeSlice_permutes mergeSlice_sorts
           (mkListFilter "ns1" "" "" 2) threeIncidents).
Defined.

(** *** Retention *)

Lemma expired_true cutoffTime i :
  expired cutoffTime i = true
  ↔ Status i = IncidentStatusResolved
    ∧ ∃ resolvedAt, ResolvedAt i = Some resolvedAt ∧ resolvedAt < cutoffTime.
Proof.
  unfold expired, Before. rewrite andb_true_iff, bool_decide_eq_true.
  destruct (ResolvedAt i) as [t|].
  - rewrite Z.ltb_lt. split.
    + intros [? ?]. eauto.
    + intros [? (? & [= <-] & ?)]. done.
  - split; [intros [? ?]; done | intros [? (? & ? & ?)]; done].
Qed.

Lemma expired_false cutoffTime i :
  expired cutoffTime i = false
  ↔ Status i ≠ IncidentStatusResolved
    ∨ ResolvedAt i = None
    ∨ ∃ resolvedAt, ResolvedAt i = Some resolvedAt ∧ cutoffTime ≤ resolvedAt.
Proof.
  unfold expired, Before. rewrite andb_false_iff, bool_decide_eq_false.
  destruct (ResolvedAt i) as [t|].
  - rewrite Z.ltb_ge. split.
    + intros [?|?]; eauto.
    + intros [?|[?|(? & [= <-] & ?)]]; auto; done.
  - split; auto.
Qed.

(** The loop of [CleanupOldIncidents] over any list of entries: the key
    [id] is gone when the list holds an expired entry for it, and is as
    before otherwise; the counter grows by the number of expired entries. *)
Lemma Cleanup_loop_lookup cutoffTime s (l : list (string * ptr)) acc id :
  (foldl (Cleanup_body cutoffTime s) acc l).1 !! id
  = if existsb (λ e, bool_decide (e.1 = id) && expired cutoffTime (deref s e.2)) l
    then None else acc.1 !! id.
Proof.
  revert acc. induction l as [|[k p] l IH]; intros acc; simpl; [done|].
  rewrite IH. destruct (existsb _ l); [by rewrite orb_true_r|].
  rewrite orb_false_r. unfold Cleanup_body.
  destruct (expired cutoffTime (deref s p)); simpl.
  - rewrite lookup_delete. case_bool_decide; case_decide; done.
  - by rewrite andb_false_r.
Qed.

Lemma Cleanup_loop_count cutoffTime s (l : list (string * ptr)) acc :
  (foldl (Cleanup_body cutoffTime s) acc l).2
  = (acc.2 + length (List.filter (λ e, expired cutoffTime (deref s e.2)) l))%nat.
Proof.
  revert acc. induction l as [|[k p] l IH]; intros acc; simpl; [lia|].
  rewrite IH. unfold Cleanup_body.
  destruct (expired cutoffTime (deref s p)); simpl; lia.
Qed.


Section Retention.

Variable json_MarshalIndent : gmap string Incident → option string.
Variable AddDate : Time → Z → Time.
Variable range : gmap string ptr → list (string * ptr).

Hypothesis range_entries : ∀ m, range m ≡ₚ map_to_list m.

Lemma range_elem_of m id p : (id, p) ∈ range m ↔ m !! id = Some p.
Proof. rewrite range_entries. apply elem_of_map_to_list. Qed.

(** Over the entries of the map the loop leaves the retained entries. *)
Lemma Cleanup_loop_retained cutoffTime s :
  (foldl (Cleanup_body cutoffTime s) (incidents s, 0%nat) (range (incidents s))).1
  = retained cutoffTime s.
Proof.
  apply map_eq. intros id. rewrite Cleanup_loop_lookup. simpl. unfold retained.
  destruct (existsb _ _) eqn:Hex.
  - apply existsb_exists in Hex as [[k p] [Hin Hk]]. simpl in Hk.
    apply andb_true_iff in Hk as [Hk Hexp]. apply bool_decide_eq_true in Hk. subst k.
    apply list_elem_of_In, range_elem_of in Hin.
    symmetry. apply map_lookup_filter_None. right. intros q Hq. simpl.
    rewrite Hin in Hq. injection Hq as <-. by rewrite Hexp.
  - destruct (incidents s !! id) as [p|] eqn:Hid.
    + symmetry. apply map_lookup_filter_Some. split; [done|]. simpl.
      destruct (expired cutoffTime (deref s p)) eqn:Hexp; [|done].
      assert (existsb (λ e, bool_decide (e.1 = id) && expired cutoffTime (deref s e.2))
                (range (incidents s)) = true) as Hex'; [|congruence].
      apply existsb_exists. exists (id, p). split.
      * by apply list_elem_of_In, range_elem_of.
      * simpl. rewrite Hexp. by rewrite bool_decide_eq_true_2.
    + symmetry. apply map_lookup_filter_None. by left.
Qed.

(** The counter is positive exactly when an entry of the map expired. *)
Lemma Cleanup_loop_deleted cutoffTime s :
  (0 < (foldl (Cleanup_body cutoffTime s) (incidents s, 0%nat) (range (incidents s))).2)%nat
  ↔ ∃ id p, incidents s !! id = Some p ∧ expired cutoffTime (deref s p) = true.
Proof.
  rewrite Cleanup_loop_count. simpl. split.
  - intros Hlen.
    destruct (List.filter _ _) as [|[id p] rest] eqn:Hf; [simpl in Hlen; lia|].
    assert (In (id, p) (List.filter (λ e, expired cutoffTime (deref s e.2))
                          (range (incidents s)))) as Hin by (rewrite Hf; by left).
    apply filter_In in Hin as [Hin Hexp]. exists id, p. split; [|done].
    by apply range_elem_of, list_elem_of_In.
  - intros (id & p & Hid & Hexp).
    assert (In (id, p) (List.filter (λ e, expired cutoffTime (deref s e.2))
                          (range (incidents s)))) as Hin.
    { apply filter_In. split; [|done]. by apply list_elem_of_In, range_elem_of. }
    destruct (List.filter _ _); [done|]. simpl. lia.
Qed.

(** [CleanupOldIncidents] with a positive retention, loop resolved. *)
Lemma CleanupOldIncidents_positive now retentionDays s :
  0 < retentionDays →
  let cutoffTime := AddDate now (- retentionDays) in
  let cleaned := set_incidents (retained cutoffTime s) s in
  CleanupOldIncidents json_MarshalIndent AddDate range now retentionDays s
  = if (0 <? (foldl (Cleanup_body cutoffTime s) (incidents s, 0%nat)
                (range (incidents s))).2)%nat
       && bool_decide (filePath s ≠ "")
    then match saveToFileUnsafe json_MarshalIndent cleaned with
         | (Some err, s') => (Some (ErrPersistCleanup err), s')
         | (None, s') => (None, s')
         end
    else (None, cleaned).
Proof.
  intros Hpos. unfold CleanupOldIncidents.
  destruct (decide (retentionDays ≤ 0)); [lia|]. cbv zeta.
  rewrite <- Cleanup_loop_retained.
  destruct (foldl _ _ _) as [m deleted]. simpl. done.
Qed.

(** C6, as the code has it.  With [retentionDays <= 0] the call changes
    nothing and succeeds.  With a positive [retentionDays], an entry whose
    incident is not resolved or has no [ResolvedAt] stays with its incident
    untouched, and no entry is added, whatever the cutoff; and when
    [AddDate] gives the instant [retentionDays] days of 24 hours before
    [now], an entry is removed exactly when its incident has status
    resolved and a [ResolvedAt] before [now] minus [retentionDays] days,
    every entry resolved at that instant or later staying with its incident
    untouched. *)
Theorem C6_Cleanup_removes_expired_only now retentionDays s :
  let after := (CleanupOldIncidents json_MarshalIndent AddDate range now retentionDays s).2 in
  let cutoffTime := now - retentionDays * day in
  (retentionDays ≤ 0 →
     CleanupOldIncidents json_MarshalIndent AddDate range now retentionDays s = (None, s))
  ∧ (0 < retentionDays →
     (∀ id p, incidents s !! id = Some p →
        Status (deref s p) ≠ IncidentStatusResolved ∨ ResolvedAt (deref s p) = None →
        incidents after !! id = Some p ∧ deref after p = deref s p)
     ∧ (∀ id, incidents s !! id = None → incidents after !! id = None)
     ∧ (AddDate now (- retentionDays) = cutoffTime →
        ∀ id p, incidents s !! id = Some p →
          (Status (deref s p) = IncidentStatusResolved
           ∧ (∃ resolvedAt, ResolvedAt (deref s p) = Some resolvedAt
                            ∧ resolvedAt < cutoffTime)
           → incidents after !! id = None)
          ∧ (Status (deref s p) ≠ IncidentStatusResolved
             ∨ ResolvedAt (deref s p) = None
             ∨ (∃ resolvedAt, ResolvedAt (deref s p) = Some resolvedAt
                              ∧ cutoffTime ≤ resolvedAt)
             → incidents after !! id = Some p ∧ deref after p = deref s p))).
Proof.
  cbv zeta. split.
  - intros Hle. unfold CleanupOldIncidents. by destruct (decide (retentionDays ≤ 0)).
  - intros Hpos. rewrite (CleanupOldIncidents_positive _ _ _ Hpos). cbv zeta.
    set (cutoffTime := AddDate now (- retentionDays)).
    set (cleaned := set_incidents (retained cutoffTime s) s).
    assert (∃ after, incidents after = retained cutoffTime s ∧ heap after = heap s
                     ∧ (if (0 <? (foldl (Cleanup_body cutoffTime s) (incidents s, 0%nat)
                                    (range (incidents s))).2)%nat
                           && bool_decide (filePath s ≠ "")
                        then match saveToFileUnsafe json_MarshalIndent cleaned with
                             | (Some err, s') => (Some (ErrPersistCleanup err), s')
                             | (None, s') => (None, s')
                             end
                        else (None, cleaned)).2 = after) as (after & Hi & Hh & ->).
    { destruct (_ && _).
      - pose proof (saveToFileUnsafe_memory json_MarshalIndent cleaned) as (Hi & Hh & _).
        destruct (saveToFileUnsafe _ _) as [[e|] s']; by exists s'.
      - by exists cleaned. }
    assert (∀ p, deref after p = deref s p) as Hd.
    { intros p. unfold deref. by rewrite Hh. }
    rewrite Hi. unfold retained.
    assert (∀ id p, incidents s !! id = Some p →
              expired cutoffTime (deref s p) = false →
              filter (λ e : string * ptr, expired cutoffTime (deref s e.2) = false)
                (incidents s) !! id = Some p
              ∧ deref after p = deref s p) as Hkeep.
    { intros id p Hid Hfalse. split; [|apply Hd]. apply map_lookup_filter_Some. done. }
    split; [|split].
    + intros id p Hid Hor. apply (Hkeep id p Hid). apply expired_false.
      destruct Hor as [Hstatus|Hnone]; [by left|by right; left].
    + intros id Hid. apply map_lookup_filter_None. by left.
    + intros Hexact id p Hid. rewrite <- Hexact. split.
      * intros Hexp%expired_true.
        apply map_lookup_filter_None. right. intros q Hq. simpl.
        rewrite Hid in Hq. injection Hq as <-. by rewrite Hexp.
      * intros Hfalse%expired_false. by apply Hkeep.
Qed.


End Retention.

(** In UTC, and while the seconds fit in 64 bits, [AddDate] subtracts days
    of 24 hours. *)
Lemma wrappingAddDate_exact now retentionDays :
  - 2 ^ 62 ≤ now `div` 1000000000 ≤ 2 ^ 62 →
  0 < retentionDays ≤ 50000000000000 →
  wrappingAddDate now (- retentionDays) = now - retentionDays * day.
Proof.
  intros Hnow Hdays. unfold wrappingAddDate, wrapInt64, unixToInternal, day. cbv zeta.
  pose proof (Z.div_mod now 1000000000 ltac:(lia)) as Hdiv.
  change (2 ^ 62) with 4611686018427387904 in Hnow.
  change (2 ^ 63) with 9223372036854775808.
  change (2 ^ 64) with 18446744073709551616.
  rewrite Z.mod_small by lia. lia.
Qed.

(** C6, refuted as stated: with the largest [int] for [retentionDays] the
    seconds of the cutoff wrap around to one day after [now], and
    ["inc-recent"], resolved ten days ago and so not before [now] minus
    [retentionDays] days, is removed. *)
Lemma C6_counterexample_cutoff_wraps :
  ¬ (∀ now retentionDays s id p,
       0 < retentionDays ≤ maxInt →
       incidents s !! id = Some p →
       incidents (CleanupOldIncidents marshalIDs wrappingAddDate rangeToList
                    now retentionDays s).2 !! id = None →
       Status (deref s p) = IncidentStatusResolved
       ∧ ∃ resolvedAt, ResolvedAt (deref s p) = Some resolvedAt
                       ∧ resolvedAt < now - retentionDays * day).
Proof.
  intros H.
  destruct (H 0 maxInt (agedIncidents []) "inc-recent" 22%positive)
    as (_ & resolvedAt & Hresolved & Hbefore).
  - unfold maxInt. lia.
  - reflexivity.
  - vm_compute. reflexivity.
  - vm_compute in Hresolved. injection Hresolved as <-.
    vm_compute in Hbefore. discriminate.
Qed.

(** The cutoff of that run, against the one of a run with 90 days. *)
Example cutoff_of_maxInt :
  wrappingAddDate 0 (- maxInt) = day ∧ wrappingAddDate 0 (- 90) = - 90 * day.
Proof. vm_compute. done. Qed.

Lemma C6_Cleanup_removes_expired_only_witness :
  0 < 90
  ∧ wrappingAddDate 0 (- 90) = 0 - 90 * day
  ∧ incidents (agedIncidents []) !! "inc-old" = Some 21%positive
  ∧ incidents (CleanupOldIncidents marshalIDs wrappingAddDate rangeToList 0 90
                 (agedIncidents [])).2 !! "inc-old" = None
  ∧ incidents (CleanupOldIncidents marshalIDs wrappingAddDate rangeToList 0 90
                 (agedIncidents [])).2 !! "inc-recent" = Some 22%positive
  ∧ incidents (CleanupOldIncidents marshalIDs wrappingAddDate rangeToList 0 90
                 (agedIncidents [])).2 !! "inc-open" = Some 24%positive.
Proof.
  pose proof (C6_Cleanup_removes_expired_only marshalIDs wrappingAddDate rangeToList
                rangeToList_entries 0 90 (agedIncidents [])) as [_ H].
  assert (wrappingAddDate 0 (- 90) = 0 - 90 * day) as Hexact.
  { apply (wrappingAddDate_exact 0 90); [split; vm_compute; discriminate|lia]. }
  destruct (H ltac:(lia)) as (Hother & _ & Hentries).
  split; [lia|]. split; [exact Hexact|]. split; [reflexivity|]. split; [|split].
  - apply (Hentries Hexact "inc-old" 21%positive); [reflexivity|].
    split; [reflexivity|]. eexists. split; [reflexivity|]. vm_compute. reflexivity.
  - apply (Hentries Hexact "inc-recent" 22%positive); [reflexivity|].
    right. right. eexists. split; [reflexivity|]. vm_compute. discriminate.
  - apply (Hother "inc-open" 24%positive); [reflexivity|].
    right. reflexivity.
Defined.


(** On that store the rename fails: the call reports it and ["inc-old"]
    stays removed. *)
Example P5_retention_with_failed_persist :
  let result := CleanupOldIncidents marshalIDs utcAddDate rangeToList 0 90
                  (agedIncidents [false; true]) in
  result.1 = Some (ErrPersistCleanup ErrRenameTemp)
  ∧ Get "inc-old" result.2 = inl (ErrNotFound "inc-old")
  ∧ Get "inc-recent" result.2 = inr 22%positive
  ∧ Get "inc-active" result.2 = inr 23%positive
  ∧ Count result.2 = 3%nat.
Proof. vm_compute. repeat split. Qed.

(** *** Loading at start *)

(** C8, refuted as stated: the data directory holds an [incidents.json]
    that does not parse; [LoadFromFile] on the new store returns the
    unmarshal error, yet [NewIncidentStoreWithPersistence] returns no error. *)
Lemma C8_counterexample_load_error_not_returned :
  ¬ (∀ dataDir s err,
       (LoadFromFile unmarshalEmpty
          (set_filePath (filepath_Join dataDir "incidents.json")
             (set_incidents ∅ (next_fault (record (CallMkdirAll dataDir) s)).2))).1
       = Some err →
       (NewIncidentStoreWithPersistence unmarshalEmpty dataDir s).1 ≠ None).
Proof.
  intros H.
  apply (H "/data" (set_files {["/data/incidents.json" := "{not json"]} emptyState)
           ErrUnmarshal); reflexivity.
Qed.

(** [filepath.Join] on some directories: trailing and doubled separators,
    [.] and [..] are cleaned away. *)
Example filepath_Join_cleans :
  filepath_Join "/data" "incidents.json" = "/data/incidents.json"
  ∧ filepath_Join "/data/" "incidents.json" = "/data/incidents.json"
  ∧ filepath_Join "" "incidents.json" = "incidents.json"
  ∧ filepath_Join "." "incidents.json" = "incidents.json"
  ∧ filepath_Join "var//lib/./data" "incidents.json" = "var/lib/data/incidents.json"
  ∧ filepath_Join "/var/lib/../data" "incidents.json" = "/var/data/incidents.json"
  ∧ filepath_Join "../.." "incidents.json" = "../../incidents.json"
  ∧ filepath_Join "/.." "incidents.json" = "/incidents.json".
Proof. vm_compute. repeat split. Qed.

Lemma filepath_Clean_nonempty path : filepath_Clean path ≠ "".
Proof.
  unfold filepath_Clean. destruct (decide (path = "")); [done|]. cbv zeta.
  by destruct (decide (_ = "")).
Qed.

Lemma filepath_Join_nonempty dataDir : filepath_Join dataDir "incidents.json" ≠ "".
Proof.
  unfold filepath_Join. destruct (decide (dataDir = "")).
  - destruct (decide ("incidents.json" = "")); [done|]. apply filepath_Clean_nonempty.
  - apply filepath_Clean_nonempty.
Qed.

(** C8, as the code has it.  With the data directory in place, a missing
    file makes [LoadFromFile] succeed and the store start empty; a file for
    which [json.Unmarshal] reports an error makes [LoadFromFile] return the
    unmarshal error, and [NewIncidentStoreWithPersistence] logs that error
    as a warning and returns the store with no error. *)
Theorem C8_startup_load json_Unmarshal dataDir s :
  let path := filepath_Join dataDir "incidents.json" in
  let s0 := record (CallMkdirAll dataDir) s in
  let fresh := set_filePath path (set_incidents ∅ (next_fault s0).2) in
  (next_fault s0).1 = false →
  (files s !! path = None →
     LoadFromFile json_Unmarshal fresh = (None, fresh)
     ∧ NewIncidentStoreWithPersistence json_Unmarshal dataDir s = (None, fresh)
     ∧ incidents fresh = ∅)
  ∧ (∀ content m h,
       files s !! path = Some content →
       (next_fault (record (CallReadFile path) fresh)).1 = false →
       json_Unmarshal content (∅, heap s) = (m, h, true) →
       ∃ loaded,
         LoadFromFile json_Unmarshal fresh = (Some ErrUnmarshal, loaded)
         ∧ NewIncidentStoreWithPersistence json_Unmarshal dataDir s
           = (None,
              record (LogWarn (Some ErrUnmarshal)
                        "Failed to load incidents from file, starting with empty store")
                     loaded)).
Proof.
  cbv zeta. intros Hmk.
  pose proof (filepath_Join_nonempty dataDir) as Hpath.
  pose proof (next_fault_memory (record (CallMkdirAll dataDir) s)) as (_ & Hh & _ & Hf & _).
  set (fresh := set_filePath _ _).
  assert (files fresh = files s) as Hfiles by (subst fresh; simpl; by rewrite Hf).
  assert (heap fresh = heap s) as Hheap by (subst fresh; simpl; by rewrite Hh).
  assert (filePath fresh = filepath_Join dataDir "incidents.json") as Hfp by done.
  assert (NewIncidentStoreWithPersistence json_Unmarshal dataDir s
          = match LoadFromFile json_Unmarshal fresh with
            | (Some err, s) =>
              (None, record (LogWarn (Some err)
                       "Failed to load incidents from file, starting with empty store") s)
            | (None, s) => (None, s)
            end) as HNew.
  { unfold NewIncidentStoreWithPersistence. cbv zeta.
    destruct (next_fault _) as [failed s1] eqn:Hnf. simpl in Hmk. rewrite Hmk. done. }
  split.
  - intros Hmissing.
    assert (LoadFromFile json_Unmarshal fresh = (None, fresh)) as HLoad.
    { unfold LoadFromFile.
      change (filePath fresh) with (filepath_Join dataDir "incidents.json").
      destruct (decide _); [done|].
      by rewrite Hfiles, Hmissing. }
    rewrite HNew, HLoad. done.
  - intros content m h Hcontent Hread Hparse.
    assert (∃ loaded, LoadFromFile json_Unmarshal fresh = (Some ErrUnmarshal, loaded))
      as [loaded HLoad].
    { unfold LoadFromFile.
      change (filePath fresh) with (filepath_Join dataDir "incidents.json").
      destruct (decide _); [done|].
      rewrite Hfiles, Hcontent. cbv zeta.
      pose proof (next_fault_memory
                    (record (CallReadFile (filepath_Join dataDir "incidents.json")) fresh))
        as (Hi' & Hh' & _).
      destruct (next_fault (record (CallReadFile _) fresh)) as [failed s1] eqn:Hnf.
      simpl in Hread, Hi', Hh'. rewrite Hread, Hi', Hh', Hh. simpl.
      rewrite Hparse. by eexists. }
    exists loaded. rewrite HNew, HLoad. done.
Qed.

Lemma C8_startup_load_witness :
  let s := set_files {["/data/incidents.json" := "{not json"]} emptyState in
  ∃ loaded,
    LoadFromFile unmarshalEmpty
      (set_filePath "/data/incidents.json" (set_incidents ∅ (record (CallMkdirAll "/data") s)))
    = (Some ErrUnmarshal, loaded)
    ∧ NewIncidentStoreWithPersistence unmarshalEmpty "/data" s
      = (None,
         record (LogWarn (Some ErrUnmarshal)
                   "Failed to load incidents from file, starting with empty store")
                loaded).
Proof.
  intros s.
  destruct (C8_startup_load unmarshalEmpty "/data" s eq_refl) as [_ Hmal].
  exact (Hmal "{not json" ∅ ∅ eq_refl eq_refl eq_refl).
Defined.

(** *** Create, in full *)

(** [Create] on a record that passes validation, its assignments resolved. *)
Lemma Create_valid Validate marshal now newID incident s :
  Validate (deref s incident) = None →
  let i' := created now newID (deref s incident) in
  let s1 := set_incidents (<[ID i' := incident]> (incidents s)) (store incident i' s) in
  Create Validate marshal now newID incident s
  = if decide (filePath s = "") then (inr incident, s1)
    else match saveToFileUnsafe marshal s1 with
         | (Some err, s2) =>
           (inl (ErrPersistIncident err), set_incidents (delete (ID i') (incidents s2)) s2)
         | (None, s2) => (inr incident, s2)
         end.
Proof.
  intros Hv. cbv zeta. unfold Create. rewrite Hv. cbv zeta.
  set (i := deref s incident).
  set (sa := if decide (ID i = "") then _ else _).
  set (sb := store incident (set_CreatedAt now (deref sa incident)) sa).
  set (sc := store incident (set_UpdatedAt now (deref sb incident)) sb).
  set (sd := if decide (Status (deref sc incident) = "") then _ else _).
  assert (sd = store incident (created now newID i) s) as ->.
  { subst sd sc sb sa. unfold created.
    destruct s as [m path h fs fl tr]. unfold store, deref, set_heap in *. simpl in *.
    repeat (case_decide; simpl in * );
      rewrite ?lookup_total_insert_eq in *; simpl in *;
      rewrite ?insert_insert_eq; simpl; try done;
      rewrite ?lookup_total_insert_eq in *; simpl in *; try done.
    all: try (f_equal; f_equal; done). }
  rewrite deref_store_eq.
  change (filePath (set_incidents _ (store incident (created now newID i) s))) with (filePath s).
  destruct (decide (filePath s = "")) as [Hp|Hp].
  - destruct (decide (filePath s ≠ "")); [done|]. done.
  - destruct (decide (filePath s ≠ "")); [|done].
    pose proof (saveToFileUnsafe_memory marshal
      (set_incidents (<[ID (created now newID i) := incident]> (incidents s))
         (store incident (created now newID i) s))) as (_ & Hh & _).
    destruct (saveToFileUnsafe _ _) as [[e|] s2]; [|done].
    simpl in Hh. unfold deref. rewrite Hh. simpl. rewrite lookup_total_insert_eq. done.
Qed.

(** A successful [Create], in full. *)
Lemma Create_success Validate marshal now newID incident s p s' :
  Create Validate marshal now newID incident s = (inr p, s') →
  p = incident
  ∧ Validate (deref s incident) = None
  ∧ heap s' = <[incident := created now newID (deref s incident)]> (heap s)
  ∧ incidents s'
    = <[ID (created now newID (deref s incident)) := incident]> (incidents s).
Proof.
  intros H.
  destruct (Validate (deref s incident)) as [e|] eqn:Hv.
  { unfold Create in H. rewrite Hv in H. done. }
  rewrite (Create_valid _ _ _ _ _ _ Hv) in H. cbv zeta in H.
  destruct (decide (filePath s = "")).
  - injection H as <- <-. done.
  - pose proof (saveToFileUnsafe_memory marshal
      (set_incidents (<[ID (created now newID (deref s incident)) := incident]> (incidents s))
         (store incident (created now newID (deref s incident)) s))) as (Hi & Hh & _).
    destruct (saveToFileUnsafe _ _) as [[e|] s2]; [done|].
    injection H as <- <-. done.
Qed.

(** X1: when [Create] succeeds, the record behind the caller's pointer has
    both timestamps set to the time of the call, the generated identifier
    if it had none and its own otherwise, the status active if it had none
    and its own otherwise, and target, severity and [ResolvedAt] as
    supplied; that pointer is what [Create] returns and what [Get] finds
    under the identifier; every other object of the heap is untouched. *)
Theorem X1_Create_sets_defaults Validate marshal now newID incident s p s' :
  Create Validate marshal now newID incident s = (inr p, s') →
  let old := deref s incident in
  let new := deref s' incident in
  p = incident
  ∧ Get (ID new) s' = inr incident
  ∧ CreatedAt new = now ∧ UpdatedAt new = now
  ∧ ID new = (if decide (ID old = "") then newID else ID old)
  ∧ Status new = (if decide (Status old = "") then IncidentStatusActive else Status old)
  ∧ Target new = Target old ∧ Severity new = Severity old
  ∧ ResolvedAt new = ResolvedAt old
  ∧ (∀ q, q ≠ incident → deref s' q = deref s q).
Proof.
  intros H. apply Create_success in H as (-> & _ & Hh & Hi). cbv zeta.
  assert (deref s' incident = created now newID (deref s incident)) as Hd.
  { unfold deref at 1. rewrite Hh. apply lookup_total_insert_eq. }
  rewrite Hd. unfold Get. rewrite Hi, lookup_insert_eq. simpl.
  repeat split. intros q Hq. unfold deref. rewrite Hh.
  by apply lookup_total_insert_ne.
Qed.

Lemma X1_Create_sets_defaults_witness :
  let s' := storeWithA in
  let new := deref s' 1%positive in
  (1 = 1)%positive
  ∧ Get (ID new) s' = inr 1%positive
  ∧ CreatedAt new = 100 ∧ UpdatedAt new = 100
  ∧ ID new = "inc-1"
  ∧ Status new = "active"
  ∧ Target new = "ns1" ∧ Severity new = "high"
  ∧ ResolvedAt new = None
  ∧ (∀ q, q ≠ 1%positive →
          deref s' q
          = deref (set_heap callerHeap (persistentState "/data/incidents.json" [])) q).
Proof.
  apply (X1_Create_sets_defaults requireTarget marshalIDs 100 "inc-0a1b2c3d" 1%positive
           (set_heap callerHeap (persistentState "/data/incidents.json" []))
           1%positive storeWithA).
  vm_compute. reflexivity.
Defined.

(** X2: [Create] does not look for the identifier in the store.  When it
    succeeds, the entries under other identifiers are as before and the
    count grows by one if the identifier was free; if the identifier was
    taken the new record replaces the stored one and the count stays. *)
Theorem X2_Create_inserts_or_replaces Validate marshal now newID incident s p s' :
  Create Validate marshal now newID incident s = (inr p, s') →
  let id := ID (deref s' incident) in
  (∀ id', id' ≠ id → Get id' s' = Get id' s)
  ∧ (incidents s !! id = None → Count s' = S (Count s))
  ∧ (∀ old, incidents s !! id = Some old → Count s' = Count s ∧ Get id s' = inr incident).
Proof.
  intros H. apply Create_success in H as (-> & _ & Hh & Hi). cbv zeta.
  assert (deref s' incident = created now newID (deref s incident)) as Hd.
  { unfold deref at 1. rewrite Hh. apply lookup_total_insert_eq. }
  rewrite Hd. unfold Get, Count. rewrite Hi. repeat split.
  - intros id' Hne. by rewrite lookup_insert_ne.
  - intros Hfree. by apply map_size_insert_None.
  - by eapply map_size_insert_Some.
  - by rewrite lookup_insert_eq.
Qed.

Lemma X2_Create_inserts_or_replaces_witness :
  let s := storeWithA in
  let s' := (Create requireTarget marshalIDs 200 "inc-9f8e7d6c" 2%positive storeWithA).2 in
  (∀ id', id' ≠ "inc-1" → Get id' s' = Get id' s)
  ∧ (incidents s !! "inc-1" = None → Count s' = S (Count s))
  ∧ (∀ old, incidents s !! "inc-1" = Some old →
            Count s' = Count s ∧ Get "inc-1" s' = inr 2%positive).
Proof.
  apply (X2_Create_inserts_or_replaces requireTarget marshalIDs 200 "inc-9f8e7d6c"
           2%positive storeWithA 2%positive
           (Create requireTarget marshalIDs 200 "inc-9f8e7d6c" 2%positive storeWithA).2).
  vm_compute. reflexivity.
Defined.

(** *** Delete and Update, every outcome *)

(** X3: the three ways [Delete] can end.  Without an entry for the
    identifier it returns the not-found error and changes nothing at all;
    when it succeeds the entry is gone, the other entries and the heap are
    as before and the count is one less; when persisting fails it returns
    the deletion error wrapping the cause, with the map and the heap as
    before the call. *)
Theorem X3_Delete_outcomes marshal id s :
  match Delete marshal id s with
  | (None, s') =>
    is_Some (incidents s !! id)
    ∧ incidents s' = delete id (incidents s) ∧ heap s' = heap s
    ∧ Get id s' = inl (ErrNotFound id)
    ∧ (∀ id', id' ≠ id → Get id' s' = Get id' s)
    ∧ S (Count s') = Count s
  | (Some (ErrNotFound id'), s') =>
    id' = id ∧ incidents s !! id = None ∧ s' = s
  | (Some (ErrPersistDeletion cause), s') =>
    filePath s ≠ "" ∧ incidents s' = incidents s ∧ heap s' = heap s
  | (Some _, _) => False
  end.
Proof.
  destruct (Delete marshal id s) as [[err|] s'] eqn:HD.
  - destruct err; try (exfalso; revert HD; unfold Delete;
      destruct (incidents s !! id); [|congruence];
      case_decide; [|congruence];
      destruct (saveToFileUnsafe _ _) as [[?|] ?]; congruence).
    + revert HD. unfold Delete. destruct (incidents s !! id) eqn:Hid.
      * case_decide; [|congruence].
        destruct (saveToFileUnsafe _ _) as [[?|] ?]; congruence.
      * by intros [= <- <-].
    + split; [|by eapply Delete_rollback].
      revert HD. unfold Delete. destruct (incidents s !! id); [|congruence].
      case_decide; [|congruence]. done.
  - revert HD. unfold Delete, Get, Count. destruct (incidents s !! id) as [p|] eqn:Hid; [|done].
    assert (incidents s' = delete id (incidents s) ∧ heap s' = heap s →
            is_Some (Some p)
            ∧ incidents s' = delete id (incidents s) ∧ heap s' = heap s
            ∧ match incidents s' !! id with
              | Some incident => inr incident | None => inl (ErrNotFound id) end
              = inl (ErrNotFound id)
            ∧ (∀ id', id' ≠ id →
                 match incidents s' !! id' with
                 | Some incident => inr incident | None => inl (ErrNotFound id') end
                 = match incidents s !! id' with
                   | Some incident => inr incident | None => inl (ErrNotFound id') end)
            ∧ S (size (incidents s')) = size (incidents s)) as Hfin.
    { intros [-> ->]. split; [by eexists|]. split; [done|]. split; [done|].
      rewrite lookup_delete_eq. split; [done|]. split.
      - intros id' Hne. by rewrite lookup_delete_ne.
      - rewrite map_size_delete_Some by eauto.
        assert (size (incidents s) ≠ 0)%nat; [|lia].
        apply map_size_ne_0_lookup. eauto. }
    case_decide.
    + pose proof (saveToFileUnsafe_memory marshal (set_incidents (delete id (incidents s)) s))
        as (Hi & Hh & _).
      destruct (saveToFileUnsafe _ _) as [[e|] s2]; [done|].
      intros [= <-]. apply Hfin. done.
    + intros [= <-]. apply Hfin. done.
Qed.

(** X4: the three ways [Update] can end.  Without an entry for the
    record's identifier it returns the not-found error and changes nothing,
    not even the record's [UpdatedAt]; when it succeeds the caller's pointer
    is stored under the identifier, the entries under other identifiers are
    as before and the count is unchanged; when persisting fails the map is
    as before the call, while the caller's record keeps the new
    [UpdatedAt]. *)
Theorem X4_Update_outcomes marshal now incident s :
  let id := ID (deref s incident) in
  match Update marshal now incident s with
  | (None, s') =>
    is_Some (incidents s !! id)
    ∧ Get id s' = inr incident
    ∧ (∀ id', id' ≠ id → Get id' s' = Get id' s)
    ∧ Count s' = Count s
    ∧ heap s' = <[incident := set_UpdatedAt now (deref s incident)]> (heap s)
  | (Some (ErrNotFound id'), s') =>
    id' = id ∧ incidents s !! id = None ∧ s' = s
  | (Some (ErrPersistUpdate cause), s') =>
    filePath s ≠ "" ∧ incidents s' = incidents s
    ∧ heap s' = <[incident := set_UpdatedAt now (deref s incident)]> (heap s)
  | (Some _, _) => False
  end.
Proof.
  cbv zeta. destruct (Update marshal now incident s) as [[err|] s'] eqn:HU.
  - destruct err; try (exfalso; revert HU; unfold Update;
      destruct (incidents s !! _); [|congruence];
      case_decide; [|congruence];
      destruct (saveToFileUnsafe _ _) as [[?|] ?]; congruence).
    + revert HU. unfold Update. destruct (incidents s !! _) eqn:Hid.
      * case_decide; [|congruence].
        destruct (saveToFileUnsafe _ _) as [[?|] ?]; congruence.
      * by intros [= <- <-].
    + split; [|by eapply Update_rollback].
      revert HU. unfold Update. destruct (incidents s !! _); [|congruence].
      case_decide; [|congruence]. done.
  - destruct (Update_success _ _ _ _ _ HU) as [Hi Hh].
    assert (is_Some (incidents s !! ID (deref s incident))) as [old Hold].
    { revert HU. unfold Update. destruct (incidents s !! _); [by eexists|congruence]. }
    unfold Get, Count. rewrite Hi, lookup_insert_eq.
    split; [by eexists|]. split; [done|]. split; [|split; [|done]].
    + intros id' Hne. by rewrite lookup_insert_ne.
    + apply map_size_insert_Some. eauto.
Qed.

(** *** A store without persistence *)

Lemma set_incidents_outside m s :
  files (set_incidents m s) = files s ∧ calls (set_incidents m s) = calls s
  ∧ faults (set_incidents m s) = faults s ∧ filePath (set_incidents m s) = filePath s.
Proof. done. Qed.

(** X5: a store created without a file path never reaches the file system:
    [Create], [Update], [Delete] and [CleanupOldIncidents] leave the files,
    the trace of outside calls and the pending faults as they were, and the
    only errors they return are the validation error ([Create]) and the
    not-found error ([Update], [Delete]); [CleanupOldIncidents] always
    succeeds. *)
Theorem X5_in_memory_store_makes_no_outside_call
    Validate marshal AddDate range s :
  filePath s = "" →
  let outside := λ s' : State, (files s', calls s', faults s', filePath s') in
  (∀ now newID incident,
     let r := Create Validate marshal now newID incident s in
     outside r.2 = outside s
     ∧ (∀ err, r.1 = inl err → ∃ cause, err = ErrValidation cause))
  ∧ (∀ now incident,
       let r := Update marshal now incident s in
       outside r.2 = outside s
       ∧ (∀ err, r.1 = Some err → err = ErrNotFound (ID (deref s incident))))
  ∧ (∀ id,
       let r := Delete marshal id s in
       outside r.2 = outside s ∧ (∀ err, r.1 = Some err → err = ErrNotFound id))
  ∧ (∀ now retentionDays,
       let r := CleanupOldIncidents marshal AddDate range now retentionDays s in
       outside r.2 = outside s ∧ r.1 = None).
Proof.
  intros Hp. cbv zeta. repeat split.
  - destruct (Validate (deref s incident)) as [e|] eqn:Hv.
    + unfold Create. by rewrite Hv.
    + rewrite (Create_valid _ _ _ _ _ _ Hv). cbv zeta.
      destruct (decide (filePath s = "")); done.
  - destruct (Validate (deref s incident)) as [e|] eqn:Hv.
    + unfold Create. rewrite Hv. simpl. intros err [= <-]. by eexists.
    + rewrite (Create_valid _ _ _ _ _ _ Hv). cbv zeta.
      destruct (decide (filePath s = "")); done.
  - unfold Update. destruct (incidents s !! _); [|done]. cbv zeta.
    case_decide; [|done]. simpl in *. done.
  - unfold Update. destruct (incidents s !! _); [|by intros err [= <-]]. cbv zeta.
    case_decide; [|done]. simpl in *. done.
  - unfold Delete. destruct (incidents s !! _); [|done]. cbv zeta.
    case_decide; [|done]. simpl in *. done.
  - unfold Delete. destruct (incidents s !! _); [|by intros err [= <-]]. cbv zeta.
    case_decide; [|done]. simpl in *. done.
  - unfold CleanupOldIncidents. case_decide; [done|]. cbv zeta.
    destruct (foldl _ _ _) as [m deleted]. simpl.
    rewrite bool_decide_eq_false_2 by (intros H'; by apply H').
    by rewrite andb_false_r.
  - unfold CleanupOldIncidents. case_decide; [done|]. cbv zeta.
    destruct (foldl _ _ _) as [m deleted]. simpl.
    rewrite bool_decide_eq_false_2 by (intros H'; by apply H').
    by rewrite andb_false_r.
Qed.

Lemma X5_in_memory_store_makes_no_outside_call_witness :
  let s := threeIncidents in
  let r := Delete marshalIDs "inc-b" s in
  (files r.2, calls r.2, faults r.2, filePath r.2) = (files s, calls s, faults s, filePath s)
  ∧ (∀ err, r.1 = Some err → err = ErrNotFound "inc-b").
Proof.
  pose proof (X5_in_memory_store_makes_no_outside_call requireTarget marshalIDs utcAddDate
                rangeToList threeIncidents eq_refl) as (_ & _ & H & _).
  exact (H "inc-b").
Defined.

(** *** Writing the file *)

Lemma tempFile_differs path : String.append path ".tmp" ≠ path.
Proof.
  induction path as [|c path IH]; simpl; [done|].
  intros [= H]. by apply IH.
Qed.

(** A successful [saveToFileUnsafe] leaves the marshalled map in the file. *)
Lemma saveToFileUnsafe_written marshal s s' :
  filePath s ≠ "" →
  saveToFileUnsafe marshal s = (None, s') →
  ∃ data, marshal (snapshot s) = Some data ∧ files s' !! filePath s = Some data.
Proof.
  intros Hp. unfold saveToFileUnsafe. destruct (decide (filePath s = "")); [done|].
  cbv zeta. change (snapshot (record (CallMarshal (snapshot s)) s)) with (snapshot s).
  destruct (marshal (snapshot s)) as [data|]; [|by intros [=]].
  destruct s as [m path h fs fl tr]. unfold next_fault. simpl in *.
  destruct fl as [|[] [|[] [|[] ?]]]; simpl; try (by intros [=]);
    intros [= <-]; exists data; (split; [done|]); simpl; by rewrite lookup_insert_eq.
Qed.

(** X6: [saveToFileUnsafe] on a store with a file path replaces the file
    in one step or not at all.  When it succeeds the file holds what
    [json.MarshalIndent] made of the map and no temporary file is left;
    when it fails, for whatever reason, the file is as it was before the
    call (only the temporary file may have been written). *)
Theorem X6_saveToFileUnsafe_atomic marshal s :
  filePath s ≠ "" →
  let tempFile := String.append (filePath s) ".tmp" in
  match saveToFileUnsafe marshal s with
  | (None, s') =>
    ∃ data, marshal (snapshot s) = Some data
            ∧ files s' = <[filePath s := data]> (delete tempFile (files s))
            ∧ files s' !! filePath s = Some data
            ∧ files s' !! tempFile = None
  | (Some err, s') =>
    files s' !! filePath s = files s !! filePath s
    ∧ (∀ path, path ≠ tempFile → files s' !! path = files s !! path)
    ∧ err ≠ ErrNoFilePath
  end.
Proof.
  intros Hp. cbv zeta. pose proof (tempFile_differs (filePath s)) as Htmp.
  unfold saveToFileUnsafe. destruct (decide (filePath s = "")); [done|]. cbv zeta.
  change (snapshot (record (CallMarshal (snapshot s)) s)) with (snapshot s).
  destruct (marshal (snapshot s)) as [data|]; [|done].
  destruct s as [m path h fs fl tr]. unfold next_fault. simpl in *.
  destruct fl as [|[] [|[] [|[] ?]]]; simpl;
    try (split; [done|split; [done|done]]);
    try (split; [by rewrite ?lookup_delete_ne, ?lookup_insert_ne by done
                |split; [|done]; intros p' Hne;
                 by rewrite ?lookup_delete_ne, ?lookup_insert_ne by done]);
    try (exists data; split; [done|]; rewrite delete_insert_eq; split; [done|];
         split; [by rewrite lookup_insert_eq|];
         by rewrite lookup_insert_ne, lookup_delete_eq by done).
Qed.

Lemma X6_saveToFileUnsafe_atomic_witness :
  let s := set_files {["/data/incidents.json" := "inc-0;"]} (agedIncidents [false; true]) in
  match saveToFileUnsafe marshalIDs s with
  | (None, s') =>
    ∃ data, marshalIDs (snapshot s) = Some data
            ∧ files s' = <["/data/incidents.json" := data]>
                           (delete "/data/incidents.json.tmp" (files s))
            ∧ files s' !! "/data/incidents.json" = Some data
            ∧ files s' !! "/data/incidents.json.tmp" = None
  | (Some err, s') =>
    files s' !! "/data/incidents.json" = files s !! "/data/incidents.json"
    ∧ (∀ path, path ≠ "/data/incidents.json.tmp" → files s' !! path = files s !! path)
    ∧ err ≠ ErrNoFilePath
  end.
Proof.
  apply (X6_saveToFileUnsafe_atomic marshalIDs
           (set_files {["/data/incidents.json" := "inc-0;"]} (agedIncidents [false; true]))).
  discriminate.
Defined.

(** *** Starting again from the file *)

(** X7: what a store saved, a new store on the same directory reads.
    After a successful [saveToFileUnsafe], with no further fault of the
    file system, [NewIncidentStoreWithPersistence] hands [json.Unmarshal]
    the very text [json.MarshalIndent] produced for the saved map, on an
    empty map, and the new store holds what [json.Unmarshal] returned.  So
    when the decoder inverts the encoder on that text, the new store shows
    the incidents of the saved one. *)
Theorem X7_saved_store_is_reloaded marshal unmarshal dataDir s s1 :
  filePath s = filepath_Join dataDir "incidents.json" →
  saveToFileUnsafe marshal s = (None, s1) →
  faults s1 = [] →
  ∃ data,
    marshal (snapshot s) = Some data
    ∧ ∀ m h failed,
        unmarshal data (∅, heap s) = (m, h, failed) →
        let r := NewIncidentStoreWithPersistence unmarshal dataDir s1 in
        r.1 = None
        ∧ incidents r.2 = m ∧ heap r.2 = h ∧ filePath r.2 = filePath s
        ∧ (failed = false → (λ p, h !!! p) <$> m = snapshot s →
           snapshot r.2 = snapshot s).
Proof.
  intros Hpath Hsave Hfaults.
  assert (filePath s ≠ "") as Hne by (rewrite Hpath; apply filepath_Join_nonempty).
  destruct (saveToFileUnsafe_written marshal s s1 Hne Hsave) as (data & Hdata & Hfile).
  pose proof (saveToFileUnsafe_memory marshal s) as (_ & Hh & _).
  rewrite Hsave in Hh. simpl in Hh.
  exists data. split; [done|]. intros m h failed Hun. cbv zeta.
  unfold NewIncidentStoreWithPersistence, LoadFromFile, next_fault. cbv zeta. simpl.
  rewrite Hfaults. simpl. rewrite <- Hpath.
  destruct (decide (filePath s = "")); [done|].
  rewrite Hfile. simpl. rewrite Hfaults. simpl. rewrite Hh, Hun.
  destruct failed; simpl; repeat split; done.
Qed.

Lemma X7_saved_store_is_reloaded_witness :
  let s := agedIncidents [] in
  let s1 := (saveToFileUnsafe marshalIDs s).2 in
  ∃ data,
    marshalIDs (snapshot s) = Some data
    ∧ ∀ m h failed,
        unmarshalEmpty data (∅, heap s) = (m, h, failed) →
        let r := NewIncidentStoreWithPersistence unmarshalEmpty "/data" s1 in
        r.1 = None
        ∧ incidents r.2 = m ∧ heap r.2 = h ∧ filePath r.2 = filePath s
        ∧ (failed = false → (λ p, h !!! p) <$> m = snapshot s →
           snapshot r.2 = snapshot s).
Proof.
  apply (X7_saved_store_is_reloaded marshalIDs unmarshalEmpty "/data" (agedIncidents [])
           (saveToFileUnsafe marshalIDs (agedIncidents [])).2);
    vm_compute; reflexivity.
Defined.

(** X8: [NewIncidentStoreWithPersistence] returns an error in one case
    only, when the data directory cannot be created.  Otherwise it returns
    a store whose file path is what [filepath.Join] makes of that directory
    and [incidents.json], the cleaned path, which is never empty, so that
    later changes are persisted, whatever became of the load. *)
Theorem X8_constructor_fails_only_on_mkdir unmarshal dataDir s :
  match NewIncidentStoreWithPersistence unmarshal dataDir s with
  | (Some err, s') =>
    err = ErrMkdir ∧ (∃ rest, faults s = true :: rest)
    ∧ incidents s' = incidents s ∧ filePath s' = filePath s ∧ files s' = files s
  | (None, s') =>
    filePath s' = filepath_Join dataDir "incidents.json"
    ∧ filePath s' ≠ ""
    ∧ (∀ rest, faults s ≠ true :: rest)
  end.
Proof.
  unfold NewIncidentStoreWithPersistence. cbv zeta.
  pose proof (filepath_Join_nonempty dataDir) as Hne.
  destruct s as [m path h fs fl tr]. unfold next_fault. simpl.
  destruct fl as [|[] fl]; simpl.
  - set (fresh := set_filePath _ _).
    assert (filePath (LoadFromFile unmarshal fresh).2 = filePath fresh) as Hfp.
    { unfold LoadFromFile. destruct (decide _); [done|].
      destruct (files fresh !! filePath fresh); [|done]. cbv zeta.
      pose proof (next_fault_memory (record (CallReadFile (filePath fresh)) fresh))
        as (_ & _ & Hf & _).
      destruct (next_fault _) as [[] s1]; simpl in Hf; [done|].
      destruct (unmarshal _ _) as [[m' h'] []]; simpl; done. }
    destruct (LoadFromFile unmarshal fresh) as [[e|] s']; simpl in *;
      rewrite Hfp; repeat split; done.
  - repeat split. by eexists.
  - set (fresh := set_filePath _ _).
    assert (filePath (LoadFromFile unmarshal fresh).2 = filePath fresh) as Hfp.
    { unfold LoadFromFile. destruct (decide _); [done|].
      destruct (files fresh !! filePath fresh); [|done]. cbv zeta.
      pose proof (next_fault_memory (record (CallReadFile (filePath fresh)) fresh))
        as (_ & _ & Hf & _).
      destruct (next_fault _) as [[] s1]; simpl in Hf; [done|].
      destruct (unmarshal _ _) as [[m' h'] []]; simpl; done. }
    destruct (LoadFromFile unmarshal fresh) as [[e|] s']; simpl in *;
      rewrite Hfp; repeat split; done.
Qed.

(** *** Cleaning up again *)

Lemma set_incidents_same s : set_incidents (incidents s) s = s.
Proof. by destruct s. Qed.

Section CleanupRuns.

Variable json_MarshalIndent : gmap string Incident → option string.
Variable AddDate : Time → Z → Time.
Variable range : gmap string ptr → list (string * ptr).

Hypothesis range_entries : ∀ m, range m ≡ₚ map_to_list m.

(** A run over a store in which nothing is expired changes nothing and
    makes no outside call. *)
Lemma Cleanup_nothing_expired now retentionDays s :
  (∀ id p, incidents s !! id = Some p →
           expired (AddDate now (- retentionDays)) (deref s p) = false) →
  CleanupOldIncidents json_MarshalIndent AddDate range now retentionDays s = (None, s).
Proof.
  intros Hnone. destruct (decide (retentionDays ≤ 0)) as [Hle|Hpos].
  { unfold CleanupOldIncidents. by destruct (decide (retentionDays ≤ 0)). }
  rewrite (CleanupOldIncidents_positive _ _ _ range_entries) by lia. cbv zeta.
  set (cutoffTime := AddDate now (- retentionDays)) in *.
  assert (retained cutoffTime s = incidents s) as Hret.
  { unfold retained. apply map_filter_id. intros id p Hid. simpl. by eapply Hnone. }
  destruct (0 <? _)%nat eqn:Hdel.
  - apply Nat.ltb_lt, (Cleanup_loop_deleted range range_entries) in Hdel
      as (id & p & Hid & Hexp).
    rewrite (Hnone _ _ Hid) in Hexp. done.
  - simpl. by rewrite Hret, set_incidents_same.
Qed.

(** X9: a store in which no incident is resolved with a [ResolvedAt] before
    the cutoff is left exactly as it is by [CleanupOldIncidents]: nothing
    is removed, nothing is written to the file, and the call succeeds. *)
Theorem X9_Cleanup_without_expired_is_noop now retentionDays s :
  (∀ id p, incidents s !! id = Some p →
           Status (deref s p) ≠ IncidentStatusResolved
           ∨ ResolvedAt (deref s p) = None
           ∨ (∃ resolvedAt, ResolvedAt (deref s p) = Some resolvedAt
                            ∧ AddDate now (- retentionDays) ≤ resolvedAt)) →
  CleanupOldIncidents json_MarshalIndent AddDate range now retentionDays s = (None, s).
Proof.
  intros H. apply Cleanup_nothing_expired. intros id p Hid.
  apply expired_false. by eapply H.
Qed.

(** X10: cleaning up twice at the same instant is cleaning up once.  The
    second run finds nothing to remove, so it returns success and leaves the
    store and the file system as the first run left them; in particular it
    does not persist again, even when the first run failed to persist. *)
Theorem X10_Cleanup_idempotent now retentionDays s :
  let once := CleanupOldIncidents json_MarshalIndent AddDate range now retentionDays s in
  CleanupOldIncidents json_MarshalIndent AddDate range now retentionDays once.2
  = (None, once.2).
Proof.
  cbv zeta. destruct (decide (retentionDays ≤ 0)) as [Hle|Hpos].
  { unfold CleanupOldIncidents. by destruct (decide (retentionDays ≤ 0)). }
  apply Cleanup_nothing_expired. intros id p.
  rewrite (CleanupOldIncidents_positive _ _ _ range_entries) by lia. cbv zeta.
  set (cutoffTime := AddDate now (- retentionDays)).
  set (cleaned := set_incidents (retained cutoffTime s) s).
  assert (∀ s', incidents s' = retained cutoffTime s → heap s' = heap s →
                incidents s' !! id = Some p → expired cutoffTime (deref s' p) = false)
    as Hfin.
  { intros s' -> Hh Hid. unfold retained in Hid.
    apply map_lookup_filter_Some in Hid as [_ Hexp]. simpl in Hexp.
    unfold deref in *. by rewrite Hh. }
  destruct (_ && _).
  - pose proof (saveToFileUnsafe_memory json_MarshalIndent cleaned) as (Hi & Hh & _).
    destruct (saveToFileUnsafe _ _) as [[e|] s']; exact (Hfin s' Hi Hh).
  - exact (Hfin cleaned eq_refl eq_refl).
Qed.

End CleanupRuns.

Lemma X9_Cleanup_without_expired_is_noop_witness :
  CleanupOldIncidents marshalIDs utcAddDate rangeToList 0 365 (agedIncidents [true])
  = (None, agedIncidents [true]).
Proof.
  apply (X9_Cleanup_without_expired_is_noop marshalIDs utcAddDate rangeToList
           rangeToList_entries 0 365 (agedIncidents [true])).
  intros id p Hid.
  destruct (decide (id = "inc-old")) as [->|];
    [injection Hid as <-; right; right; eexists; split; [reflexivity|vm_compute; discriminate]|].
  destruct (decide (id = "inc-recent")) as [->|];
    [injection Hid as <-; right; right; eexists; split; [reflexivity|vm_compute; discriminate]|].
  destruct (decide (id = "inc-active")) as [->|];
    [injection Hid as <-; left; discriminate|].
  destruct (decide (id = "inc-open")) as [->|];
    [injection Hid as <-; right; left; reflexivity|].
  exfalso. unfold agedIncidents in Hid. simpl in Hid.
  rewrite !lookup_insert_ne in Hid by done. done.
Defined.

Lemma X10_Cleanup_idempotent_witness :
  let once := CleanupOldIncidents marshalIDs utcAddDate rangeToList 0 90
                (agedIncidents [false; true]) in
  once.1 = Some (ErrPersistCleanup ErrRenameTemp)
  ∧ CleanupOldIncidents marshalIDs utcAddDate rangeToList 0 90 once.2 = (None, once.2).
Proof.
  split; [vm_compute; reflexivity|].
  apply (X10_Cleanup_idempotent marshalIDs utcAddDate rangeToList rangeToList_entries 0 90
           (agedIncidents [false; true])).
Defined.

(** *** A failed Create *)

(** X11: when persisting fails, [Create] returns the persistence error
    wrapping the cause; the entries under every other identifier are as
    before, but the caller's record has already been given its identifier,
    its timestamps and its status, and keeps them; no other object of the
    heap is touched. *)
Theorem X11_failed_Create_keeps_other_entries
    Validate marshal now newID incident s cause s' :
  Create Validate marshal now newID incident s = (inl (ErrPersistIncident cause), s') →
  filePath s ≠ ""
  ∧ deref s' incident = created now newID (deref s incident)
  ∧ (∀ q, q ≠ incident → deref s' q = deref s q)
  ∧ (∀ id', id' ≠ ID (deref s' incident) → Get id' s' = Get id' s).
Proof.
  intros H.
  destruct (Validate (deref s incident)) as [e|] eqn:Hv.
  { unfold Create in H. rewrite Hv in H. done. }
  rewrite (Create_valid _ _ _ _ _ _ Hv) in H. cbv zeta in H.
  destruct (decide (filePath s = "")); [done|]. split; [done|].
  pose proof (saveToFileUnsafe_memory marshal
    (set_incidents (<[ID (created now newID (deref s incident)) := incident]> (incidents s))
       (store incident (created now newID (deref s incident)) s))) as (Hi & Hh & _).
  destruct (saveToFileUnsafe _ _) as [[e|] s2]; [|done].
  injection H as <- <-. simpl in Hi, Hh.
  assert (∀ q, deref (set_incidents (delete (ID (created now newID (deref s incident)))
                                      (incidents s2)) s2) q
               = (<[incident := created now newID (deref s incident)]> (heap s)) !!! q) as Hd.
  { intros q. unfold deref. simpl. by rewrite Hh. }
  rewrite !Hd, lookup_total_insert_eq. split; [done|]. split.
  - intros q Hq. rewrite Hd. by rewrite lookup_total_insert_ne.
  - intros id' Hne. unfold Get. simpl. rewrite Hi.
    by rewrite lookup_delete_ne, lookup_insert_ne by done.
Qed.

Lemma X11_failed_Create_keeps_other_entries_witness :
  let s := set_faults [true] threeIncidentsOnDisk in
  let s' := (Create requireTarget marshalIDs 9 "inc-9f8e7d6c" 14%positive s).2 in
  filePath s ≠ ""
  ∧ deref s' 14%positive = created 9 "inc-9f8e7d6c" (deref s 14%positive)
  ∧ (∀ q, q ≠ 14%positive → deref s' q = deref s q)
  ∧ (∀ id', id' ≠ ID (deref s' 14%positive) → Get id' s' = Get id' s).
Proof.
  apply (X11_failed_Create_keeps_other_entries requireTarget marshalIDs 9 "inc-9f8e7d6c"
           14%positive (set_faults [true] threeIncidentsOnDisk) ErrWriteTemp).
  vm_compute. reflexivity.
Defined.

End StorageSpec.

(* ===================================================================== *)
(** ** Properties of the MCO client *)
(* ===================================================================== *)

Module IntegrationsSpec.
Import Integrations.

Section Waits.

Variable Unstructured : Type.
Variable GetName : Unstructured → string.
Variable parsePoolStatus : Unstructured → option MachineConfigPoolStatus.

(** *** Single steps *)

Lemma waitsStarted_app tr1 tr2 :
  waitsStarted (tr1 ++ tr2) = waitsStarted tr1 ++ waitsStarted tr2.
Proof. apply omap_app. Qed.

Lemma interact_world (env : Env Unstructured) w :
  clock w ≤ clock (interact env w)
  ∧ tick (interact env w) = S (tick w)
  ∧ trace (interact env w) = trace w.
Proof. unfold interact. simpl. repeat split. lia. Qed.

Lemma GetPoolStatus_world (env : Env Unstructured) poolName w :
  clock w ≤ clock (GetPoolStatus parsePoolStatus env poolName w).2
  ∧ tick (GetPoolStatus parsePoolStatus env poolName w).2 = S (tick w)
  ∧ trace (GetPoolStatus parsePoolStatus env poolName w).2 = trace w ++ [CallGet poolName].
Proof.
  unfold GetPoolStatus. cbv zeta.
  destruct (answerGet env (tick w) poolName) as [err|pool];
    [|destruct (parsePoolStatus pool)]; simpl; repeat split; lia.
Qed.

Lemma IsPoolStable_world (env : Env Unstructured) poolName w :
  clock w ≤ clock (IsPoolStable parsePoolStatus env poolName w).2
  ∧ tick (IsPoolStable parsePoolStatus env poolName w).2 = S (tick w)
  ∧ trace (IsPoolStable parsePoolStatus env poolName w).2 = trace w ++ [CallGet poolName].
Proof.
  unfold IsPoolStable.
  pose proof (GetPoolStatus_world env poolName w) as H.
  destruct (GetPoolStatus parsePoolStatus env poolName w) as [[err|status] w1]; exact H.
Qed.

(** [IsPoolStable] answers [true] only for an answer of the cluster that
    parses to a stable status; its errors are those of the request and of
    the parser. *)
Lemma IsPoolStable_true (env : Env Unstructured) poolName w w1 :
  IsPoolStable parsePoolStatus env poolName w = (inr true, w1) →
  ∃ pool status, answerGet env (tick w) poolName = inr pool
                 ∧ parsePoolStatus pool = Some status ∧ stable status.
Proof.
  unfold IsPoolStable, GetPoolStatus. cbv zeta.
  destruct (answerGet env (tick w) poolName) as [err|pool]; [done|].
  destruct (parsePoolStatus pool) as [status|] eqn:Hparse; [|done].
  intros [= Hst _]. exists pool, status. split; [done|]. split; [done|].
  unfold stable. apply andb_true_iff in Hst as [Hst H3].
  apply andb_true_iff in Hst as [H1 H2].
  apply negb_true_iff in H1, H2. apply Z.eqb_eq in H3. done.
Qed.

Lemma select_world (env : Env Unstructured) d sel w w1 :
  select_Done_After env d w = (sel, w1) →
  tick w1 = S (tick w) ∧ trace w1 = trace w
  ∧ match sel with
    | TimerFired => clock w + d ≤ clock w1
    | CtxDone err => ∃ at_, ctxDone env = Some (at_, err) ∧ at_ ≤ clock w1
                            ∧ clock w ≤ clock w1
    end.
Proof.
  unfold select_Done_After. cbv zeta.
  destruct (ctxDone env) as [[at_ err]|].
  - destruct (_ || _); intros [= <- <-]; simpl.
    + repeat split. exists at_. split; [done|]. lia.
    + repeat split. lia.
  - intros [= <- <-]; simpl. repeat split. lia.
Qed.

(** *** The loop of one wait *)

Lemma ended_earlier (env : Env Unstructured) poolName timeout deadline w0 w r w' :
  (tick w0 ≤ tick w)%nat →
  ended parsePoolStatus env poolName timeout deadline w r w' →
  ended parsePoolStatus env poolName timeout deadline w0 r w'.
Proof.
  intros Hle [H|[H|(Hr & k & pool & status & tr & Hk & H)]]; [by left|by right; left|].
  right; right. split; [done|]. exists k, pool, status, tr. split; [lia|done].
Qed.

(** One iteration of the loop. *)
Lemma loop_iteration fuel (env : Env Unstructured) poolName timeout deadline w :
  WaitForPoolStable_loop parsePoolStatus (S fuel) env poolName timeout deadline w
  = let w0 := interact env w in
    if clock w0 <? deadline then
      match IsPoolStable parsePoolStatus env poolName w0 with
      | (inr true, w1) => Some (None, emit (InfoStable poolName) w1)
      | (inr false, w1) =>
        afterCheck parsePoolStatus fuel env poolName timeout deadline w1
      | (inl err, w1) =>
        afterCheck parsePoolStatus fuel env poolName timeout deadline
          (emit (WarnCheckFailed err) w1)
      end
    else Some (Some (ErrNotStabilized poolName timeout), w0).
Proof.
  simpl. destruct (_ <? deadline); [|done].
  destruct (IsPoolStable _ _ _ _) as [[err|[|]] w1]; reflexivity.
Qed.

Lemma afterCheck_ended fuel (env : Env Unstructured) poolName timeout deadline w0 w r w' :
  (∀ w r w',
     WaitForPoolStable_loop parsePoolStatus fuel env poolName timeout deadline w
     = Some (r, w') →
     ended parsePoolStatus env poolName timeout deadline w r w'
     ∧ waitsStarted (trace w') = waitsStarted (trace w)
     ∧ (tick w < tick w')%nat) →
  afterCheck parsePoolStatus fuel env poolName timeout deadline w = Some (r, w') →
  (tick w0 ≤ tick w)%nat →
  ended parsePoolStatus env poolName timeout deadline w0 r w'
  ∧ waitsStarted (trace w') = waitsStarted (trace w)
  ∧ (tick w < tick w')%nat.
Proof.
  intros IH. unfold afterCheck.
  pose proof (GetPoolStatus_world env poolName w) as (Hc2 & Ht2 & Htr2).
  destruct (GetPoolStatus parsePoolStatus env poolName w) as [r2 w2].
  simpl in Hc2, Ht2, Htr2.
  destruct (select_Done_After env pollInterval w2) as [sel w3] eqn:Hsel.
  apply select_world in Hsel as (Ht3 & Htr3 & Hsel).
  assert (waitsStarted (trace w3) = waitsStarted (trace w)) as Hw3.
  { rewrite Htr3, Htr2, waitsStarted_app. simpl. by rewrite app_nil_r. }
  destruct sel as [err|].
  - destruct Hsel as (at_ & Hdone & Hat & _). intros [= <- <-] Hle.
    split; [right; left; by exists at_, err|]. split; [done|lia].
  - intros Hloop Hle. apply IH in Hloop as (Hend & Hws & Htk).
    split; [|split; [congruence|lia]].
    eapply ended_earlier; [|exact Hend]. lia.
Qed.

Lemma loop_ended fuel (env : Env Unstructured) poolName timeout deadline w r w' :
  WaitForPoolStable_loop parsePoolStatus fuel env poolName timeout deadline w = Some (r, w') →
  ended parsePoolStatus env poolName timeout deadline w r w'
  ∧ waitsStarted (trace w') = waitsStarted (trace w)
  ∧ (tick w < tick w')%nat.
Proof.
  revert w r w'. induction fuel as [|fuel IH]; intros w r w'; [done|].
  rewrite loop_iteration. cbv zeta.
  pose proof (interact_world env w) as (Hc0 & Ht0 & Htr0).
  set (w0 := interact env w) in *.
  destruct (clock w0 <? deadline) eqn:Hnow.
  2:{ intros [= <- <-]. apply Z.ltb_ge in Hnow. split; [by left|].
      rewrite Htr0. split; [done|lia]. }
  pose proof (IsPoolStable_world env poolName w0) as (Hc1 & Ht1 & Htr1).
  destruct (IsPoolStable parsePoolStatus env poolName w0) as [[err|[|]] w1] eqn:Hstable;
    simpl in Hc1, Ht1, Htr1.
  - intros H. eapply (afterCheck_ended _ _ _ _ _ w) in H as (Hend & Hws & Htk);
      [|exact IH|simpl; lia].
    split; [done|]. split; [|simpl in Htk; lia]. rewrite Hws.
    change (trace (emit (WarnCheckFailed err) w1)) with (trace w1 ++ [WarnCheckFailed err]).
    rewrite waitsStarted_app, Htr1, waitsStarted_app. simpl.
    by rewrite !app_nil_r, ?Htr0.
  - intros [= <- <-]. apply IsPoolStable_true in Hstable as (pool & status & Hans & Hp & Hs).
    split; [|split].
    + right; right. split; [done|]. exists (tick w0), pool, status, (trace w0). simpl.
      rewrite Htr1, <- app_assoc. split; [lia|]. split; [lia|done].
    + simpl. rewrite waitsStarted_app, Htr1, waitsStarted_app. simpl.
      by rewrite !app_nil_r, ?Htr0.
    + simpl. lia.
  - intros H. eapply (afterCheck_ended _ _ _ _ _ w) in H as (Hend & Hws & Htk);
      [|exact IH|lia].
    split; [done|]. split; [|lia].
    rewrite Hws, Htr1, waitsStarted_app. simpl. by rewrite !app_nil_r, ?Htr0.
Qed.

(** The loop returns when it has one iteration for every poll interval
    that fits before the deadline, and one more. *)
Lemma loop_returns fuel (env : Env Unstructured) poolName timeout deadline w :
  deadline - clock w ≤ Z.of_nat fuel * pollInterval →
  is_Some (WaitForPoolStable_loop parsePoolStatus (S fuel) env poolName timeout deadline w).
Proof.
  revert w. induction fuel as [|fuel IH]; intros w Hfuel; rewrite loop_iteration; cbv zeta;
    pose proof (interact_world env w) as (Hc0 & _);
    set (w0 := interact env w) in *;
    (destruct (clock w0 <? deadline) eqn:Hnow; [|by eexists]).
  - apply Z.ltb_lt in Hnow. lia.
  - pose proof (IsPoolStable_world env poolName w0) as (Hc1 & _).
    destruct (IsPoolStable parsePoolStatus env poolName w0) as [r1 w1]. simpl in Hc1.
    assert (∀ w1', clock w1 ≤ clock w1' →
              is_Some (afterCheck parsePoolStatus (S fuel) env poolName timeout deadline w1'))
      as Hrest.
    { intros w1' Hc1'. unfold afterCheck.
      pose proof (GetPoolStatus_world env poolName w1') as (Hc2 & _).
      destruct (GetPoolStatus parsePoolStatus env poolName w1') as [r2 w2]. simpl in Hc2.
      destruct (select_Done_After env pollInterval w2) as [sel w3] eqn:Hsel.
      apply select_world in Hsel as (_ & _ & Hsel).
      destruct sel; [by eexists|]. apply IH.
      unfold pollInterval, Second in *. lia. }
    destruct r1 as [err|[|]]; [apply Hrest; simpl; lia | by eexists | apply Hrest; lia].
Qed.

(** A loop that returned returns the same with more iterations allowed. *)
Lemma loop_more_fuel fuel fuel' (env : Env Unstructured) poolName timeout deadline w x :
  (fuel ≤ fuel')%nat →
  WaitForPoolStable_loop parsePoolStatus fuel env poolName timeout deadline w = Some x →
  WaitForPoolStable_loop parsePoolStatus fuel' env poolName timeout deadline w = Some x.
Proof.
  revert fuel' w. induction fuel as [|fuel IH]; intros fuel' w Hle; [done|].
  destruct fuel' as [|fuel']; [lia|].
  rewrite !loop_iteration. cbv zeta.
  destruct (_ <? deadline); [|done].
  assert (∀ w1, afterCheck parsePoolStatus fuel env poolName timeout deadline w1 = Some x →
                afterCheck parsePoolStatus fuel' env poolName timeout deadline w1 = Some x)
    as Hrest.
  { intros w1. unfold afterCheck.
    destruct (GetPoolStatus _ _ _ _) as [r2 w2].
    destruct (select_Done_After _ _ _) as [[err|] w3]; [done|].
    apply IH. lia. }
  destruct (IsPoolStable _ _ _ _) as [[err|[|]] w1]; [apply Hrest|done|apply Hrest].
Qed.

(** *** One wait *)

(** A wait shows in the trace as one started wait, for its pool and with
    its timeout, and nothing else of that kind. *)
Lemma WaitForPoolStable_waitsStarted fuel (env : Env Unstructured) poolName timeout w r w' :
  WaitForPoolStable parsePoolStatus fuel env poolName timeout w = Some (r, w') →
  waitsStarted (trace w') = waitsStarted (trace w) ++ [(poolName, timeout)].
Proof.
  unfold WaitForPoolStable, time_Now. cbv zeta. intros H.
  apply loop_ended in H as (_ & -> & _). simpl.
  by rewrite waitsStarted_app.
Qed.

Lemma WaitForPoolStable_returns fuel (env : Env Unstructured) poolName timeout w :
  timeout ≤ Z.of_nat fuel * pollInterval →
  is_Some (WaitForPoolStable parsePoolStatus (S fuel) env poolName timeout w).
Proof.
  intros Hfuel. unfold WaitForPoolStable, time_Now. cbv zeta.
  apply loop_returns. lia.
Qed.

(** C9: a wait returns once it is allowed an iteration more than the poll
    intervals that fit in the timeout, with a result that more iterations do
    not change, and it returns in one of three ways only: the timeout
    error, with the clock at or past the deadline; the cancellation error,
    with [ctx] done; or success, its last interaction being a request for
    the pool that found it stable.  An error of the cluster or of the parser
    is never the result. *)
Theorem C9_WaitForPoolStable_outcomes fuel (env : Env Unstructured) poolName timeout w :
  timeout ≤ Z.of_nat fuel * pollInterval →
  ∃ r w',
    (∀ fuel', (fuel ≤ fuel')%nat →
       WaitForPoolStable parsePoolStatus (S fuel') env poolName timeout w = Some (r, w'))
    ∧ ((r = Some (ErrNotStabilized poolName timeout)
        ∧ (time_Now env (emit (InfoWaiting poolName timeout) w)).1 + timeout ≤ clock w')
       ∨ (∃ at_ err, r = Some (ErrCancelled poolName err)
                     ∧ ctxDone env = Some (at_, err) ∧ at_ ≤ clock w')
       ∨ (r = None
          ∧ ∃ k pool status tr,
              (tick w < k)%nat ∧ tick w' = S k
              ∧ answerGet env k poolName = inr pool
              ∧ parsePoolStatus pool = Some status ∧ stable status
              ∧ trace w' = tr ++ [CallGet poolName; InfoStable poolName])).
Proof.
  intros Hfuel.
  destruct (WaitForPoolStable_returns fuel env poolName timeout w Hfuel) as [[r w'] Hret].
  exists r, w'.
  unfold WaitForPoolStable, time_Now in *. cbv zeta in *. split.
  { intros fuel' Hle. eapply loop_more_fuel; [|exact Hret]. lia. }
  apply loop_ended in Hret as ([H|[H|(Hr & k & pool & status & tr & Hk & H)]] & _ & _).
  - by left.
  - by right; left.
  - right; right. split; [done|]. exists k, pool, status, tr. split; [|done].
    simpl in Hk. lia.
Qed.

(** C10: with a timeout of zero or less the wait returns the timeout error
    after reading the clock twice: no request is sent, whatever the cluster
    would have answered. *)
Theorem C10_WaitForPoolStable_nonpositive_timeout
    fuel (env : Env Unstructured) poolName timeout w :
  timeout ≤ 0 →
  ∃ w',
    WaitForPoolStable parsePoolStatus (S fuel) env poolName timeout w
    = Some (Some (ErrNotStabilized poolName timeout), w')
    ∧ w' = interact env (interact env (emit (InfoWaiting poolName timeout) w))
    ∧ trace w' = trace w ++ [InfoWaiting poolName timeout]
    ∧ poolsQueried (trace w') = poolsQueried (trace w)
    ∧ tick w' = S (S (tick w)).
Proof.
  intros Hle. eexists. split; [|split; [reflexivity|]].
  - unfold WaitForPoolStable, time_Now. cbv zeta. rewrite loop_iteration. cbv zeta.
    pose proof (interact_world env (interact env (emit (InfoWaiting poolName timeout) w)))
      as (Hc & _).
    destruct (_ <? _) eqn:Hnow; [|done].
    apply Z.ltb_lt in Hnow. lia.
  - simpl. split; [done|]. split; [|done].
    unfold poolsQueried. rewrite omap_app. simpl. by rewrite app_nil_r.
Qed.

(** *** All pools *)

(** The loop over the pools: either every wait succeeded, in turn, or the
    waits before some pool succeeded in turn, the wait for that pool failed,
    and the loop returned that failure from the world in which that wait
    ended. *)
Lemma WaitForAllPoolsStable_loop_ended fuel (env : Env Unstructured) timeout pools w r w' :
  WaitForAllPoolsStable_loop parsePoolStatus fuel env timeout pools w = Some (r, w') →
  (r = None
   ∧ ∃ wl, waitsInTurn parsePoolStatus fuel env timeout pools w wl
           ∧ w' = emit InfoAllStable wl)
  ∨ (∃ before poolName after err wp,
       pools = before ++ poolName :: after
       ∧ waitsInTurn parsePoolStatus fuel env timeout before w wp
       ∧ WaitForPoolStable parsePoolStatus fuel env poolName timeout wp = Some (Some err, w')
       ∧ r = Some (ErrPoolFailed poolName err)).
Proof.
  revert w. induction pools as [|poolName pools IH]; intros w; simpl.
  - intros [= <- <-]. left. split; [done|]. exists w. split; [constructor|done].
  - destruct (WaitForPoolStable _ _ _ _ _ _) as [[[err|] w1]|] eqn:Hwait; [| |done].
    + intros [= <- <-]. right. exists [], poolName, pools, err, w.
      split; [done|]. split; [constructor|]. done.
    + intros H. apply IH in H as [(Hr & wl & Hturn & Hw')|H].
      * left. split; [done|]. exists wl. split; [|done]. econstructor; eauto.
      * destruct H as (before & p & after & err & wp & -> & Hturn & Hp & Hr).
        right. exists (poolName :: before), p, after, err, wp.
        split; [done|]. split; [econstructor; eauto|]. done.
Qed.

Lemma waitsInTurn_waitsStarted fuel (env : Env Unstructured) timeout pools w w' :
  waitsInTurn parsePoolStatus fuel env timeout pools w w' →
  waitsStarted (trace w') = waitsStarted (trace w) ++ map (λ p, (p, timeout)) pools.
Proof.
  induction 1 as [w|poolName pools w w1 w2 Hwait Hturn IH]; simpl.
  - by rewrite app_nil_r.
  - rewrite IH, (WaitForPoolStable_waitsStarted _ _ _ _ _ _ _ Hwait).
    by rewrite <- app_assoc.
Qed.

Lemma WaitForAllPoolsStable_loop_returns fuel (env : Env Unstructured) timeout pools w :
  timeout ≤ Z.of_nat fuel * pollInterval →
  is_Some (WaitForAllPoolsStable_loop parsePoolStatus (S fuel) env timeout pools w).
Proof.
  intros Hfuel. revert w. induction pools as [|poolName pools IH]; intros w.
  - by eexists.
  - cbn [WaitForAllPoolsStable_loop].
    destruct (WaitForPoolStable_returns fuel env poolName timeout w Hfuel) as [[[err|] w1] ->].
    + by eexists.
    + apply IH.
Qed.

(** C4: when the cluster lists its pools, [WaitForAllPoolsStable] returns
    (given enough iterations for one wait); for an empty list it returns
    success without any wait; otherwise it waits for the pools in the order
    of the list, each with the timeout it was given, and either all waits
    succeed and it returns success, or it returns the failure of the first
    wait that fails, wrapped with the name of the pool, from the world in
    which that wait ended: the waits the trace shows are those for the pools
    up to that one. *)
Theorem C4_WaitForAllPoolsStable_sequential_fail_fast
    fuel (env : Env Unstructured) timeout w items :
  answerList env (tick w) = inr items →
  timeout ≤ Z.of_nat fuel * pollInterval →
  let pools := map GetName items in
  let w0 := (ListMachineConfigPools GetName env (emit (InfoWaitingAll timeout) w)).2 in
  ∃ r w',
    WaitForAllPoolsStable GetName parsePoolStatus (S fuel) env timeout w = Some (r, w')
    ∧ (pools = [] → r = None ∧ waitsStarted (trace w') = waitsStarted (trace w))
    ∧ ((r = None
        ∧ (∃ wl, waitsInTurn parsePoolStatus (S fuel) env timeout pools w0 wl)
        ∧ waitsStarted (trace w')
          = waitsStarted (trace w) ++ map (λ p, (p, timeout)) pools)
       ∨ (∃ before poolName after err wp,
            pools = before ++ poolName :: after
            ∧ waitsInTurn parsePoolStatus (S fuel) env timeout before w0 wp
            ∧ WaitForPoolStable parsePoolStatus (S fuel) env poolName timeout wp
              = Some (Some err, w')
            ∧ r = Some (ErrPoolFailed poolName err)
            ∧ waitsStarted (trace w')
              = waitsStarted (trace w)
                ++ map (λ p, (p, timeout)) (before ++ [poolName]))).
Proof.
  intros Hlist Hfuel pools w0.
  assert (ListMachineConfigPools GetName env (emit (InfoWaitingAll timeout) w)
          = (inr pools, w0)) as HL.
  { subst w0. unfold ListMachineConfigPools. cbv zeta. simpl. by rewrite Hlist. }
  assert (waitsStarted (trace w0) = waitsStarted (trace w)) as Hw0.
  { subst w0. unfold ListMachineConfigPools. cbv zeta.
    destruct (answerList _ _); simpl; rewrite !waitsStarted_app; simpl;
      by rewrite !app_nil_r. }
  unfold WaitForAllPoolsStable. cbv zeta. rewrite HL.
  destruct pools as [|p pools'] eqn:Hpools.
  { simpl. exists None, (emit WarnNoPools w0). split; [done|].
    assert (waitsStarted (trace (emit WarnNoPools w0)) = waitsStarted (trace w)) as Hw.
    { simpl. rewrite waitsStarted_app, Hw0. simpl. by rewrite app_nil_r. }
    split; [done|]. left. split; [done|]. split; [|by rewrite Hw, app_nil_r].
    exists w0. constructor. }
  rewrite <- Hpools in *. replace (length pools =? 0)%nat with false by (by rewrite Hpools).
  destruct (WaitForAllPoolsStable_loop_returns fuel env timeout pools w0 Hfuel)
    as [[r w'] Hret].
  exists r, w'. split; [done|]. split; [by rewrite Hpools|].
  apply WaitForAllPoolsStable_loop_ended in Hret
    as [(Hr & wl & Hturn & ->)|(before & q & after & err & wp & Hsplit & Hturn & Hq & Hr)].
  - left. split; [done|]. split; [by exists wl|].
    simpl. rewrite waitsStarted_app. simpl.
    by rewrite app_nil_r, (waitsInTurn_waitsStarted _ _ _ _ _ _ Hturn), Hw0.
  - right. exists before, q, after, err, wp. repeat (split; [done|]).
    rewrite (WaitForPoolStable_waitsStarted _ _ _ _ _ _ _ Hq).
    rewrite (waitsInTurn_waitsStarted _ _ _ _ _ _ Hturn), Hw0.
    by rewrite map_app, app_assoc.
Qed.

End Waits.

(** *** Runs against the sample clusters *)

(** The first poll fails with an error of the cluster; the wait goes on
    and succeeds at the next poll. *)
Example poll_error_then_stable :
  ∃ w', WaitForPoolStable statusParse 4 flakyThenStable "worker" (30 * Second) startWorld
        = Some (None, w')
        ∧ trace w' = [InfoWaiting "worker" (30 * Second); CallGet "worker";
                      WarnCheckFailed (ErrGetPool "worker" "connection refused");
                      CallGet "worker"; CallGet "worker"; InfoStable "worker"].
Proof. eexists. split; vm_compute; reflexivity. Qed.

Lemma C9_WaitForPoolStable_outcomes_witness :
  ∃ r w',
    (∀ fuel', (3 ≤ fuel')%nat →
       WaitForPoolStable statusParse (S fuel') flakyThenStable "worker" (30 * Second)
         startWorld = Some (r, w'))
    ∧ ((r = Some (ErrNotStabilized "worker" (30 * Second))
        ∧ (time_Now flakyThenStable
             (emit (InfoWaiting "worker" (30 * Second)) startWorld)).1 + 30 * Second
          ≤ clock w')
       ∨ (∃ at_ err, r = Some (ErrCancelled "worker" err)
                     ∧ ctxDone flakyThenStable = Some (at_, err) ∧ at_ ≤ clock w')
       ∨ (r = None
          ∧ ∃ k pool status tr,
              (tick startWorld < k)%nat ∧ tick w' = S k
              ∧ answerGet flakyThenStable k "worker" = inr pool
              ∧ statusParse pool = Some status ∧ stable status
              ∧ trace w' = tr ++ [CallGet "worker"; InfoStable "worker"])).
Proof.
  apply (C9_WaitForPoolStable_outcomes MachineConfigPoolStatus statusParse 3
           flakyThenStable "worker" (30 * Second) startWorld).
  vm_compute. discriminate.
Defined.

Lemma C10_WaitForPoolStable_nonpositive_timeout_witness :
  ∃ w',
    WaitForPoolStable statusParse 1 masterUpdating "worker" 0 startWorld
    = Some (Some (ErrNotStabilized "worker" 0), w')
    ∧ w' = interact masterUpdating
             (interact masterUpdating (emit (InfoWaiting "worker" 0) startWorld))
    ∧ trace w' = trace startWorld ++ [InfoWaiting "worker" 0]
    ∧ poolsQueried (trace w') = poolsQueried (trace startWorld)
    ∧ tick w' = S (S (tick startWorld)).
Proof.
  apply (C10_WaitForPoolStable_nonpositive_timeout MachineConfigPoolStatus statusParse 0
           masterUpdating "worker" 0 startWorld).
  lia.
Defined.

(** ["master"] never becomes stable within its 25 seconds: the call returns
    its failure and ["worker"] is neither waited for nor queried. *)
Example P7_fail_fast :
  ∃ w', WaitForAllPoolsStable statusName statusParse 4 masterUpdating (25 * Second) startWorld
        = Some (Some (ErrPoolFailed "master" (ErrNotStabilized "master" (25 * Second))), w')
        ∧ waitsStarted (trace w') = [("master", 25 * Second)]
        ∧ "worker" ∉ poolsQueried (trace w').
Proof.
  eexists. split; [vm_compute; reflexivity|]. split; [vm_compute; reflexivity|].
  vm_compute. intros H. repeat (apply elem_of_cons in H as [H|H]; [discriminate H|]).
  by apply elem_of_nil in H.
Qed.

Lemma C4_WaitForAllPoolsStable_sequential_fail_fast_witness :
  let pools := map statusName [stablePool "master"; stablePool "worker"] in
  let w0 := (ListMachineConfigPools statusName masterUpdating
               (emit (InfoWaitingAll (25 * Second)) startWorld)).2 in
  ∃ r w',
    WaitForAllPoolsStable statusName statusParse 4 masterUpdating (25 * Second) startWorld
    = Some (r, w')
    ∧ (pools = [] → r = None ∧ waitsStarted (trace w') = waitsStarted (trace startWorld))
    ∧ ((r = None
        ∧ (∃ wl, waitsInTurn statusParse 4 masterUpdating (25 * Second) pools w0 wl)
        ∧ waitsStarted (trace w')
          = waitsStarted (trace startWorld) ++ map (λ p, (p, 25 * Second)) pools)
       ∨ (∃ before poolName after err wp,
            pools = before ++ poolName :: after
            ∧ waitsInTurn statusParse 4 masterUpdating (25 * Second) before w0 wp
            ∧ WaitForPoolStable statusParse 4 masterUpdating poolName (25 * Second) wp
              = Some (Some err, w')
            ∧ r = Some (ErrPoolFailed poolName err)
            ∧ waitsStarted (trace w')
              = waitsStarted (trace startWorld)
                ++ map (λ p, (p, 25 * Second)) (before ++ [poolName]))).
Proof.
  apply (C4_WaitForAllPoolsStable_sequential_fail_fast MachineConfigPoolStatus statusName
           statusParse 3 masterUpdating (25 * Second) startWorld
           [stablePool "master"; stablePool "worker"]).
  - reflexivity.
  - vm_compute. discriminate.
Defined.

(** *** Clamping to int32 *)

(** X12: [safeInt32Convert] saturates.  Its result is always within the
    range of [int32]; a value within the range is returned as it is, with no
    warning; a value beyond it becomes the nearest bound, with the warning
    that names the value; and the conversion keeps the order of values. *)
Theorem X12_safeInt32Convert_saturates (val : Z) :
  inInt32 (safeInt32Convert val).1
  ∧ (safeInt32Convert val).1 = Z.max minInt32 (Z.min maxInt32 val)
  ∧ (inInt32 val → safeInt32Convert val = (val, []))
  ∧ (maxInt32 < val → safeInt32Convert val = (maxInt32, [ExceedsMax val]))
  ∧ (val < minInt32 → safeInt32Convert val = (minInt32, [BelowMin val]))
  ∧ (∀ val', val ≤ val' → (safeInt32Convert val).1 ≤ (safeInt32Convert val').1).
Proof.
  unfold safeInt32Convert, inInt32, maxInt32, minInt32.
  repeat split; intros;
    repeat (match goal with
            | |- context [?a <? ?b] => destruct (Z.ltb_spec a b)
            end; simpl in * ); try lia; try (f_equal; lia).
Qed.

Lemma X12_safeInt32Convert_saturates_witness :
  inInt32 (safeInt32Convert 5000000000).1
  ∧ (safeInt32Convert 5000000000).1 = Z.max minInt32 (Z.min maxInt32 5000000000)
  ∧ (inInt32 5000000000 → safeInt32Convert 5000000000 = (5000000000, []))
  ∧ (maxInt32 < 5000000000 →
     safeInt32Convert 5000000000 = (maxInt32, [ExceedsMax 5000000000]))
  ∧ (5000000000 < minInt32 →
     safeInt32Convert 5000000000 = (minInt32, [BelowMin 5000000000]))
  ∧ (∀ val', 5000000000 ≤ val' →
             (safeInt32Convert 5000000000).1 ≤ (safeInt32Convert val').1).
Proof. exact (X12_safeInt32Convert_saturates 5000000000). Defined.

Lemma safeInt32Convert_inInt32 val : inInt32 (safeInt32Convert val).1.
Proof.
  unfold safeInt32Convert, inInt32, maxInt32, minInt32.
  destruct (Z.ltb_spec 2147483647 val); simpl; [lia|].
  destruct (Z.ltb_spec val (-2147483648)); simpl; lia.
Qed.

Lemma safeInt32Convert_silent val :
  (safeInt32Convert val).2 = [] → (safeInt32Convert val).1 = val.
Proof.
  unfold safeInt32Convert.
  destruct (_ <? val); simpl; [done|]. destruct (val <? _); simpl; done.
Qed.

Section Parsing.

Variable Unstructured : Type.
Variable Obj : Type.
Variable value : Type.
Variable GetName : Unstructured → string.
Variable Object : Unstructured → Obj.
Variable NestedMap : Obj → list string → option Obj.
Variable NestedInt64 : Obj → list string → option Z.
Variable NestedString : Obj → list string → option string.
Variable NestedSlice : Obj → list string → option (list value).
Variable asMap : value → option Obj.

Lemma parseCount_warnings statusMap field set acc :
  (parseCount Obj NestedInt64 statusMap field set acc).2
  = acc.2 ++ match NestedInt64 statusMap [field] with
             | Some count => (safeInt32Convert count).2
             | None => []
             end.
Proof.
  unfold parseCount. destruct (NestedInt64 statusMap [field]) as [count|].
  - by destruct (safeInt32Convert count).
  - by rewrite app_nil_r.
Qed.

Lemma parseCount_status statusMap field set acc :
  (parseCount Obj NestedInt64 statusMap field set acc).1
  = match NestedInt64 statusMap [field] with
    | Some count => set (safeInt32Convert count).1 acc.1
    | None => acc.1
    end.
Proof.
  unfold parseCount. destruct (NestedInt64 statusMap [field]) as [count|]; [|done].
  by destruct (safeInt32Convert count).
Qed.

(** [parseMachineCounts], field by field. *)
Lemma parseMachineCounts_fields statusMap st :
  let st' := (parseMachineCounts Obj NestedInt64 statusMap st).1 in
  MachineCount st' = parsedCount Obj NestedInt64 statusMap "machineCount" (MachineCount st)
  ∧ UpdatedMachineCount st'
    = parsedCount Obj NestedInt64 statusMap "updatedMachineCount" (UpdatedMachineCount st)
  ∧ ReadyMachineCount st' = parsedCount Obj NestedInt64 statusMap "readyMachineCount" (ReadyMachineCount st)
  ∧ DegradedMachineCount st'
    = parsedCount Obj NestedInt64 statusMap "degradedMachineCount" (DegradedMachineCount st)
  ∧ Name st' = Name st ∧ Updating st' = Updating st ∧ Degraded st' = Degraded st
  ∧ CurrentConfiguration st' = CurrentConfiguration st.
Proof.
  cbv zeta. unfold parseMachineCounts, parsedCount. cbv zeta.
  rewrite !parseCount_status. simpl.
  destruct (NestedInt64 statusMap ["machineCount"]),
    (NestedInt64 statusMap ["updatedMachineCount"]),
    (NestedInt64 statusMap ["readyMachineCount"]),
    (NestedInt64 statusMap ["degradedMachineCount"]); simpl; repeat split.
Qed.

Lemma parseMachineCounts_warnings statusMap st :
  (parseMachineCounts Obj NestedInt64 statusMap st).2
  = flat_map (λ field, match NestedInt64 statusMap [field] with
                       | Some count => (safeInt32Convert count).2
                       | None => []
                       end)
      ["machineCount"; "updatedMachineCount"; "readyMachineCount"; "degradedMachineCount"].
Proof.
  unfold parseMachineCounts. cbv zeta. rewrite !parseCount_warnings. simpl.
  by rewrite app_nil_r, <- !app_assoc.
Qed.

Lemma parseConfiguration_fields statusMap st :
  let st' := parseConfiguration Obj NestedString statusMap st in
  MachineCount st' = MachineCount st ∧ UpdatedMachineCount st' = UpdatedMachineCount st
  ∧ ReadyMachineCount st' = ReadyMachineCount st
  ∧ DegradedMachineCount st' = DegradedMachineCount st
  ∧ Name st' = Name st ∧ Updating st' = Updating st ∧ Degraded st' = Degraded st
  ∧ CurrentConfiguration st'
    = default (CurrentConfiguration st) (NestedString statusMap ["configuration"; "name"]).
Proof.
  cbv zeta. unfold parseConfiguration.
  destruct (NestedString statusMap _); simpl; repeat split.
Qed.

(** One condition sets a flag or leaves the status alone. *)
Lemma parseConditions_body_fields st cond :
  let st' := parseConditions_body Obj value NestedString asMap st cond in
  MachineCount st' = MachineCount st ∧ UpdatedMachineCount st' = UpdatedMachineCount st
  ∧ ReadyMachineCount st' = ReadyMachineCount st
  ∧ DegradedMachineCount st' = DegradedMachineCount st
  ∧ Name st' = Name st ∧ CurrentConfiguration st' = CurrentConfiguration st
  ∧ (Updating st' = true
     ↔ Updating st = true ∨ conditionTrue Obj value NestedString asMap "Updating" cond)
  ∧ (Degraded st' = true
     ↔ Degraded st = true ∨ conditionTrue Obj value NestedString asMap "Degraded" cond).
Proof.
  cbv zeta. unfold parseConditions_body, conditionTrue.
  destruct (asMap cond) as [condMap|] eqn:Hmap.
  2:{ repeat split; auto; intros [?|(m & ? & _)]; done. }
  destruct (NestedString condMap ["type"]) as [condType|] eqn:Ht.
  2:{ repeat split; auto; intros [?|(m & [= <-] & ? & _)]; congruence. }
  destruct (NestedString condMap ["status"]) as [condStatus|] eqn:Hs.
  2:{ repeat split; auto; intros [?|(m & [= <-] & _ & ?)]; congruence. }
  repeat (case_bool_decide; simpl); subst; repeat split; auto;
    try (intros _; right; by exists condMap);
    try (intros [?|(m & [= <-] & ? & ?)]; congruence).
Qed.

Lemma parseConditions_loop st (conditions : list value) :
  let st' := foldl (parseConditions_body Obj value NestedString asMap) st conditions in
  MachineCount st' = MachineCount st ∧ UpdatedMachineCount st' = UpdatedMachineCount st
  ∧ ReadyMachineCount st' = ReadyMachineCount st
  ∧ DegradedMachineCount st' = DegradedMachineCount st
  ∧ Name st' = Name st ∧ CurrentConfiguration st' = CurrentConfiguration st
  ∧ (Updating st' = true
     ↔ Updating st = true
       ∨ ∃ cond, cond ∈ conditions
                 ∧ conditionTrue Obj value NestedString asMap "Updating" cond)
  ∧ (Degraded st' = true
     ↔ Degraded st = true
       ∨ ∃ cond, cond ∈ conditions
                 ∧ conditionTrue Obj value NestedString asMap "Degraded" cond).
Proof.
  cbv zeta. revert st. induction conditions as [|cond conditions IH]; intros st; simpl.
  { repeat split; auto; (intros [?|(c & Hin & _)]; [done|by apply elem_of_nil in Hin]). }
  destruct (IH (parseConditions_body Obj value NestedString asMap st cond))
    as (-> & -> & -> & -> & -> & -> & HU & HD).
  destruct (parseConditions_body_fields st cond) as (-> & -> & -> & -> & -> & -> & HU1 & HD1).
  repeat split; try done.
  - intros H. apply HU in H as [H|(c & Hin & Hc)].
    + apply HU1 in H as [H|H]; [by left|]. right. exists cond. split; [left|done].
    + right. exists c. split; [by right|done].
  - intros [H|(c & Hin & Hc)]; apply HU.
    + left. apply HU1. by left.
    + apply elem_of_cons in Hin as [->|Hin].
      * left. apply HU1. by right.
      * right. by exists c.
  - intros H. apply HD in H as [H|(c & Hin & Hc)].
    + apply HD1 in H as [H|H]; [by left|]. right. exists cond. split; [left|done].
    + right. exists c. split; [by right|done].
  - intros [H|(c & Hin & Hc)]; apply HD.
    + left. apply HD1. by left.
    + apply elem_of_cons in Hin as [->|Hin].
      * left. apply HD1. by right.
      * right. by exists c.
Qed.

Local Notation "'parse'" :=
  (parsePoolStatus Unstructured Obj value GetName Object NestedMap NestedInt64
     NestedString NestedSlice asMap).

(** [parsePoolStatus] on a pool that has a status map. *)
Lemma parsePoolStatus_found pool statusMap :
  NestedMap (Object pool) ["status"] = Some statusMap →
  parse pool
  = (Some (parseConditions Obj value NestedString NestedSlice asMap statusMap
             (parseConfiguration Obj NestedString statusMap
                (parseMachineCounts Obj NestedInt64 statusMap
                   (newStatus (GetName pool))).1)),
     (parseMachineCounts Obj NestedInt64 statusMap (newStatus (GetName pool))).2).
Proof.
  intros H. unfold parsePoolStatus. cbv zeta. rewrite H.
  by destruct (parseMachineCounts _ _ _ _).
Qed.

Lemma parsePoolStatus_Some pool st warnings :
  parse pool = (Some st, warnings) →
  ∃ statusMap, NestedMap (Object pool) ["status"] = Some statusMap.
Proof.
  unfold parsePoolStatus. cbv zeta.
  destruct (NestedMap (Object pool) ["status"]) as [statusMap|]; [by eexists|done].
Qed.

Lemma parseConditions_fields statusMap st :
  let st' := parseConditions Obj value NestedString NestedSlice asMap statusMap st in
  MachineCount st' = MachineCount st ∧ UpdatedMachineCount st' = UpdatedMachineCount st
  ∧ ReadyMachineCount st' = ReadyMachineCount st
  ∧ DegradedMachineCount st' = DegradedMachineCount st
  ∧ Name st' = Name st ∧ CurrentConfiguration st' = CurrentConfiguration st
  ∧ (Updating st' = true
     ↔ Updating st = true
       ∨ ∃ cond, cond ∈ conditionsOf Obj value NestedSlice statusMap
                 ∧ conditionTrue Obj value NestedString asMap "Updating" cond)
  ∧ (Degraded st' = true
     ↔ Degraded st = true
       ∨ ∃ cond, cond ∈ conditionsOf Obj value NestedSlice statusMap
                 ∧ conditionTrue Obj value NestedString asMap "Degraded" cond).
Proof.
  cbv zeta. unfold parseConditions, conditionsOf.
  destruct (NestedSlice statusMap ["conditions"]) as [conditions|]; simpl.
  - apply parseConditions_loop.
  - repeat split; auto; (intros [?|(c & Hin & _)]; [done|by apply elem_of_nil in Hin]).
Qed.

(** X13: every machine count of a parsed status is within the range of
    [int32]: it is the reported count clamped, or 0 when the status map
    reports none.  When parsing logged no warning, the counts are exactly
    the reported ones: no count is changed silently. *)
Theorem X13_parsed_counts_are_clamped pool st warnings :
  parse pool = (Some st, warnings) →
  ∃ statusMap,
    NestedMap (Object pool) ["status"] = Some statusMap
    ∧ MachineCount st = parsedCount Obj NestedInt64 statusMap "machineCount" 0
    ∧ UpdatedMachineCount st = parsedCount Obj NestedInt64 statusMap "updatedMachineCount" 0
    ∧ ReadyMachineCount st = parsedCount Obj NestedInt64 statusMap "readyMachineCount" 0
    ∧ DegradedMachineCount st
      = parsedCount Obj NestedInt64 statusMap "degradedMachineCount" 0
    ∧ inInt32 (MachineCount st) ∧ inInt32 (UpdatedMachineCount st)
    ∧ inInt32 (ReadyMachineCount st) ∧ inInt32 (DegradedMachineCount st)
    ∧ (warnings = [] →
       MachineCount st = default 0 (NestedInt64 statusMap ["machineCount"])
       ∧ UpdatedMachineCount st = default 0 (NestedInt64 statusMap ["updatedMachineCount"])
       ∧ ReadyMachineCount st = default 0 (NestedInt64 statusMap ["readyMachineCount"])
       ∧ DegradedMachineCount st
         = default 0 (NestedInt64 statusMap ["degradedMachineCount"])).
Proof.
  intros H. destruct (parsePoolStatus_Some _ _ _ H) as [statusMap Hmap].
  exists statusMap. split; [done|].
  rewrite (parsePoolStatus_found _ _ Hmap) in H. injection H as <- <-.
  destruct (parseConditions_fields statusMap
              (parseConfiguration Obj NestedString statusMap
                 (parseMachineCounts Obj NestedInt64 statusMap (newStatus (GetName pool))).1))
    as (-> & -> & -> & -> & _).
  destruct (parseConfiguration_fields statusMap
              (parseMachineCounts Obj NestedInt64 statusMap (newStatus (GetName pool))).1)
    as (-> & -> & -> & -> & _).
  destruct (parseMachineCounts_fields statusMap (newStatus (GetName pool)))
    as (-> & -> & -> & -> & _).
  simpl. repeat (split; [done|]).
  assert (∀ field, inInt32 (parsedCount Obj NestedInt64 statusMap field 0)) as Hin.
  { intros field. unfold parsedCount. destruct (NestedInt64 statusMap [field]).
    - apply safeInt32Convert_inInt32.
    - unfold inInt32, minInt32, maxInt32. lia. }
  repeat (split; [apply Hin|]).
  rewrite parseMachineCounts_warnings. simpl. unfold parsedCount.
  intros Hw.
  destruct (NestedInt64 statusMap ["machineCount"]) as [c1|],
    (NestedInt64 statusMap ["updatedMachineCount"]) as [c2|],
    (NestedInt64 statusMap ["readyMachineCount"]) as [c3|],
    (NestedInt64 statusMap ["degradedMachineCount"]) as [c4|]; simpl in *;
    repeat match goal with
           | H : _ ++ _ = [] |- _ => apply app_eq_nil in H as [? ?]
           end;
    repeat split; try done; by apply safeInt32Convert_silent.
Qed.

(** X14: the flags of a parsed status come from the conditions alone.
    [Updating] is set exactly when some item of the slice [conditions] is a
    map with type ["Updating"] and status ["True"], and [Degraded]
    likewise; items that are not maps, or lack a type or a status, count
    for nothing, and so does a missing slice.  The name is the name of the
    object and the configuration is [configuration.name], empty when
    absent. *)
Theorem X14_parsed_flags_follow_conditions pool st warnings :
  parse pool = (Some st, warnings) →
  ∃ statusMap,
    NestedMap (Object pool) ["status"] = Some statusMap
    ∧ (Updating st = true
       ↔ ∃ cond, cond ∈ conditionsOf Obj value NestedSlice statusMap
                 ∧ conditionTrue Obj value NestedString asMap "Updating" cond)
    ∧ (Degraded st = true
       ↔ ∃ cond, cond ∈ conditionsOf Obj value NestedSlice statusMap
                 ∧ conditionTrue Obj value NestedString asMap "Degraded" cond)
    ∧ Name st = GetName pool
    ∧ CurrentConfiguration st
      = default "" (NestedString statusMap ["configuration"; "name"]).
Proof.
  intros H. destruct (parsePoolStatus_Some _ _ _ H) as [statusMap Hmap].
  exists statusMap. split; [done|].
  rewrite (parsePoolStatus_found _ _ Hmap) in H. injection H as <- <-.
  destruct (parseConditions_fields statusMap
              (parseConfiguration Obj NestedString statusMap
                 (parseMachineCounts Obj NestedInt64 statusMap (newStatus (GetName pool))).1))
    as (_ & _ & _ & _ & -> & -> & HU & HD).
  destruct (parseConfiguration_fields statusMap
              (parseMachineCounts Obj NestedInt64 statusMap (newStatus (GetName pool))).1)
    as (_ & _ & _ & _ & HN & HU0 & HD0 & ->).
  destruct (parseMachineCounts_fields statusMap (newStatus (GetName pool)))
    as (_ & _ & _ & _ & HN1 & HU1 & HD1 & ->).
  rewrite HU0, HU1 in HU. rewrite HD0, HD1 in HD. rewrite HN, HN1. simpl in *.
  repeat split; try done.
  - intros Hu. apply HU in Hu as [?|?]; done.
  - intros Hc. apply HU. by right.
  - intros Hd. apply HD in Hd as [?|?]; done.
  - intros Hc. apply HD. by right.
Qed.

(** X15: [parsePoolStatus] fails in one case only, when the object has no
    status map, and then logs nothing.  A status map that carries none of
    the fields is no error: it parses to the zero status under the name of
    the object, which the stability predicate accepts. *)
Theorem X15_parse_fails_only_without_status pool :
  ((parse pool).1 = None ↔ NestedMap (Object pool) ["status"] = None)
  ∧ ((parse pool).1 = None → (parse pool).2 = [])
  ∧ (∀ statusMap,
       NestedMap (Object pool) ["status"] = Some statusMap →
       (∀ field, NestedInt64 statusMap [field] = None) →
       NestedString statusMap ["configuration"; "name"] = None →
       NestedSlice statusMap ["conditions"] = None →
       parse pool = (Some (newStatus (GetName pool)), [])
       ∧ stable (newStatus (GetName pool))).
Proof.
  split; [|split].
  - unfold parsePoolStatus. cbv zeta.
    destruct (NestedMap (Object pool) ["status"]) as [statusMap|]; [|done].
    destruct (parseMachineCounts _ _ _ _). simpl. split; done.
  - unfold parsePoolStatus. cbv zeta.
    destruct (NestedMap (Object pool) ["status"]) as [statusMap|]; [|done].
    destruct (parseMachineCounts _ _ _ _). done.
  - intros statusMap Hmap Hcounts Hconf Hconds.
    rewrite (parsePoolStatus_found _ _ Hmap).
    unfold parseMachineCounts, parseCount, parseConfiguration, parseConditions. cbv zeta.
    rewrite !Hcounts, Hconf, Hconds. simpl. split; [done|]. by repeat split.
Qed.

(** X16: what [IsPoolStable] answers for an object that has a status map,
    in terms of the object alone: stable exactly when no condition says
    ["Updating"] or ["Degraded"] is ["True"] and the two counts agree as
    stored, that is after clamping to [int32] and with 0 for a count the
    map does not report. *)
Theorem X16_stability_compares_stored_counts
    (env : Env Unstructured) poolName w pool statusMap :
  answerGet env (tick w) poolName = inr pool →
  NestedMap (Object pool) ["status"] = Some statusMap →
  ∃ b,
    (IsPoolStable
       (parsedStatus Unstructured Obj value GetName Object NestedMap NestedInt64
          NestedString NestedSlice asMap) env poolName w).1 = inr b
    ∧ (b = true
       ↔ (¬ ∃ cond, cond ∈ conditionsOf Obj value NestedSlice statusMap
                    ∧ conditionTrue Obj value NestedString asMap "Updating" cond)
         ∧ (¬ ∃ cond, cond ∈ conditionsOf Obj value NestedSlice statusMap
                      ∧ conditionTrue Obj value NestedString asMap "Degraded" cond)
         ∧ parsedCount Obj NestedInt64 statusMap "updatedMachineCount" 0
           = parsedCount Obj NestedInt64 statusMap "machineCount" 0).
Proof.
  intros Hans Hmap. unfold IsPoolStable, GetPoolStatus, parsedStatus. cbv zeta.
  rewrite Hans, (parsePoolStatus_found _ _ Hmap). simpl.
  eexists. split; [reflexivity|].
  destruct (parseConditions_fields statusMap
              (parseConfiguration Obj NestedString statusMap
                 (parseMachineCounts Obj NestedInt64 statusMap (newStatus (GetName pool))).1))
    as (-> & -> & _ & _ & _ & _ & HU & HD).
  destruct (parseConfiguration_fields statusMap
              (parseMachineCounts Obj NestedInt64 statusMap (newStatus (GetName pool))).1)
    as (-> & -> & _ & _ & _ & HU0 & HD0 & _).
  destruct (parseMachineCounts_fields statusMap (newStatus (GetName pool)))
    as (-> & -> & _ & _ & _ & HU1 & HD1 & _).
  rewrite HU0, HU1 in HU. rewrite HD0, HD1 in HD. simpl in HU, HD.
  rewrite !andb_true_iff, !negb_true_iff, Z.eqb_eq, <- !not_true_iff_false, HU, HD.
  simpl. intuition (try discriminate).
Qed.

End Parsing.

(** *** The parser on the sample objects *)

Example parse_rollingPool :
  jsonParsePoolStatus rollingPool
  = (Some (mkStatus "worker" 3 2 maxInt32 0 true false "rendered-worker-1"),
     [ExceedsMax 5000000000]).
Proof. vm_compute. reflexivity. Qed.

Lemma X13_parsed_counts_are_clamped_witness :
  let st := mkStatus "worker" 3 2 maxInt32 0 true false "rendered-worker-1" in
  ∃ statusMap,
    jsonNestedMap rollingPool ["status"] = Some statusMap
    ∧ MachineCount st = parsedCount jsonObject jsonNestedInt64 statusMap "machineCount" 0
    ∧ UpdatedMachineCount st
      = parsedCount jsonObject jsonNestedInt64 statusMap "updatedMachineCount" 0
    ∧ ReadyMachineCount st
      = parsedCount jsonObject jsonNestedInt64 statusMap "readyMachineCount" 0
    ∧ DegradedMachineCount st
      = parsedCount jsonObject jsonNestedInt64 statusMap "degradedMachineCount" 0
    ∧ inInt32 (MachineCount st) ∧ inInt32 (UpdatedMachineCount st)
    ∧ inInt32 (ReadyMachineCount st) ∧ inInt32 (DegradedMachineCount st)
    ∧ ([ExceedsMax 5000000000] = [] →
       MachineCount st = default 0 (jsonNestedInt64 statusMap ["machineCount"])
       ∧ UpdatedMachineCount st
         = default 0 (jsonNestedInt64 statusMap ["updatedMachineCount"])
       ∧ ReadyMachineCount st = default 0 (jsonNestedInt64 statusMap ["readyMachineCount"])
       ∧ DegradedMachineCount st
         = default 0 (jsonNestedInt64 statusMap ["degradedMachineCount"])).
Proof.
  apply (X13_parsed_counts_are_clamped jsonObject jsonObject jsonValue jsonName (λ o, o)
           jsonNestedMap jsonNestedInt64 jsonNestedString jsonNestedSlice jsonAsMap
           rollingPool).
  vm_compute. reflexivity.
Defined.

Lemma X14_parsed_flags_follow_conditions_witness :
  let st := mkStatus "worker" 3 2 maxInt32 0 true false "rendered-worker-1" in
  ∃ statusMap,
    jsonNestedMap rollingPool ["status"] = Some statusMap
    ∧ (Updating st = true
       ↔ ∃ cond, cond ∈ conditionsOf jsonObject jsonValue jsonNestedSlice statusMap
                 ∧ conditionTrue jsonObject jsonValue jsonNestedString jsonAsMap
                     "Updating" cond)
    ∧ (Degraded st = true
       ↔ ∃ cond, cond ∈ conditionsOf jsonObject jsonValue jsonNestedSlice statusMap
                 ∧ conditionTrue jsonObject jsonValue jsonNestedString jsonAsMap
                     "Degraded" cond)
    ∧ Name st = jsonName rollingPool
    ∧ CurrentConfiguration st
      = default "" (jsonNestedString statusMap ["configuration"; "name"]).
Proof.
  apply (X14_parsed_flags_follow_conditions jsonObject jsonObject jsonValue jsonName
           (λ o, o) jsonNestedMap jsonNestedInt64 jsonNestedString jsonNestedSlice
           jsonAsMap rollingPool _ [ExceedsMax 5000000000]).
  vm_compute. reflexivity.
Defined.

Lemma X15_parse_fails_only_without_status_witness :
  jsonParsePoolStatus blankPool = (Some (newStatus "infra"), [])
  ∧ stable (newStatus "infra").
Proof.
  destruct (X15_parse_fails_only_without_status jsonObject jsonObject jsonValue jsonName
              (λ o, o) jsonNestedMap jsonNestedInt64 jsonNestedString jsonNestedSlice
              jsonAsMap blankPool) as (_ & _ & H).
  exact (H [] eq_refl (λ _, eq_refl) eq_refl eq_refl).
Defined.

(** *** Single checks and the requests of a wait *)

Section Requests.

Variable Unstructured : Type.
Variable parsePoolStatus : Unstructured → option MachineConfigPoolStatus.

(** [IsPoolStable] takes the time of its request. *)
Lemma IsPoolStable_clock (env : Env Unstructured) poolName w :
  clock (IsPoolStable parsePoolStatus env poolName w).2
  = clock w + Z.of_N (elapsed env (tick w)).
Proof.
  unfold IsPoolStable, GetPoolStatus. cbv zeta.
  destruct (answerGet env (tick w) poolName) as [c|p]; [done|].
  by destruct (parsePoolStatus p).
Qed.

(** X17: [IsPoolStable] sends one request and passes its outcome on.  An
    error of the request comes back wrapped with the name of the pool, a
    status that cannot be parsed comes back as the parse error, and
    otherwise the answer is [true] exactly when the parsed status is not
    updating, not degraded and has all its machines updated. *)
Theorem X17_IsPoolStable_one_shot (env : Env Unstructured) poolName w :
  let r := IsPoolStable parsePoolStatus env poolName w in
  trace r.2 = trace w ++ [CallGet poolName]
  ∧ tick r.2 = S (tick w)
  ∧ match answerGet env (tick w) poolName with
    | inl cause => r.1 = inl (ErrGetPool poolName cause)
    | inr pool =>
      match parsePoolStatus pool with
      | None => r.1 = inl ErrParseStatus
      | Some status => ∃ b, r.1 = inr b ∧ (b = true ↔ stable status)
      end
    end.
Proof.
  cbv zeta. unfold IsPoolStable, GetPoolStatus. cbv zeta.
  destruct (answerGet env (tick w) poolName) as [cause|pool]; [done|].
  destruct (parsePoolStatus pool) as [status|]; [|done]. simpl.
  repeat split. eexists. split; [reflexivity|]. unfold stable.
  rewrite !andb_true_iff, !negb_true_iff, Z.eqb_eq. tauto.
Qed.

Lemma poolsQueried_app tr1 tr2 :
  poolsQueried (tr1 ++ tr2) = poolsQueried tr1 ++ poolsQueried tr2.
Proof. apply omap_app. Qed.

(** The requests of a loop that returns, counted. *)
Lemma loop_requests fuel (env : Env Unstructured) poolName timeout deadline w r w' :
  deadline - clock w ≤ Z.of_nat fuel * pollInterval →
  WaitForPoolStable_loop parsePoolStatus (S fuel) env poolName timeout deadline w
  = Some (r, w') →
  ∃ n, (n ≤ 2 * fuel)%nat
       ∧ poolsQueried (trace w') = poolsQueried (trace w) ++ replicate n poolName.
Proof.
  revert w. induction fuel as [|fuel IH]; intros w Hfuel; rewrite loop_iteration; cbv zeta;
    pose proof (interact_world Unstructured env w) as (Hc0 & _ & Htr0);
    set (w0 := interact env w) in *; clearbody w0;
    (destruct (clock w0 <? deadline) eqn:Hnow;
     [|intros [= <- <-]; exists 0%nat; split; [lia|]; by rewrite Htr0, app_nil_r]).
  - apply Z.ltb_lt in Hnow. lia.
  - pose proof (IsPoolStable_world Unstructured parsePoolStatus env poolName w0)
      as (Hc1 & _ & Htr1).
    destruct (IsPoolStable parsePoolStatus env poolName w0) as [r1 w1].
    simpl in Hc1, Htr1.
    assert (∀ w1', clock w1 ≤ clock w1' →
              poolsQueried (trace w1') = poolsQueried (trace w) ++ [poolName] →
              afterCheck parsePoolStatus (S fuel) env poolName timeout deadline w1'
              = Some (r, w') →
              ∃ n, (n ≤ 2 * S fuel)%nat
                   ∧ poolsQueried (trace w')
                     = poolsQueried (trace w) ++ replicate n poolName) as Hrest.
    { intros w1' Hc1' Hq. unfold afterCheck.
      pose proof (GetPoolStatus_world Unstructured parsePoolStatus env poolName w1')
        as (Hc2 & _ & Htr2).
      destruct (GetPoolStatus parsePoolStatus env poolName w1') as [r2 w2].
      simpl in Hc2, Htr2.
      destruct (select_Done_After env pollInterval w2) as [sel w3] eqn:Hsel.
      apply (select_world Unstructured) in Hsel as (_ & Htr3 & Hsel).
      assert (poolsQueried (trace w3) = poolsQueried (trace w) ++ [poolName; poolName])
        as Hq3.
      { rewrite Htr3, Htr2, poolsQueried_app, Hq. simpl. by rewrite <- app_assoc. }
      destruct sel.
      - intros [= <- <-]. exists 2%nat. split; [lia|]. done.
      - intros Hloop. apply IH in Hloop as (n & Hn & Hq').
        + exists (S (S n)). split; [lia|]. rewrite Hq', Hq3. simpl.
          by rewrite <- app_assoc.
        + unfold pollInterval, Second in *. lia. }
    assert (poolsQueried (trace w1) = poolsQueried (trace w) ++ [poolName]) as Hq1.
    { rewrite Htr1, poolsQueried_app, Htr0. done. }
    destruct r1 as [err|[|]].
    + apply Hrest; [simpl; lia|]. simpl. rewrite poolsQueried_app, Hq1. simpl.
      by rewrite app_nil_r.
    + intros [= <- <-]. exists 1%nat. split; [lia|]. simpl.
      rewrite poolsQueried_app, Hq1. simpl. by rewrite app_nil_r.
    + apply Hrest; [lia|done].
Qed.

(** X18: a wait sends a bounded number of requests, all for its own pool:
    at most two for every poll interval that fits in the timeout (one for
    the check, one for the status it logs). *)
Theorem X18_WaitForPoolStable_bounds_requests
    fuel (env : Env Unstructured) poolName timeout w :
  timeout ≤ Z.of_nat fuel * pollInterval →
  ∃ r w' n,
    WaitForPoolStable parsePoolStatus (S fuel) env poolName timeout w = Some (r, w')
    ∧ (n ≤ 2 * fuel)%nat
    ∧ poolsQueried (trace w') = poolsQueried (trace w) ++ replicate n poolName.
Proof.
  intros Hfuel.
  destruct (WaitForPoolStable_returns Unstructured parsePoolStatus fuel env poolName
              timeout w Hfuel) as [[r w'] Hret].
  exists r, w'. unfold WaitForPoolStable, time_Now in *. cbv zeta in *.
  pose proof Hret as Hloop.
  apply loop_requests in Hloop as (n & Hn & Hq); [|simpl; lia].
  exists n. split; [done|]. split; [done|]. rewrite Hq. simpl.
  rewrite poolsQueried_app. simpl. by rewrite app_nil_r.
Qed.

(** X19: a pool that is stable at the first check ends the wait at once,
    with success: one request, no poll interval waited, whatever the state
    of [ctx] (a context that is already done is not looked at).  The first
    check takes place when the second reading of the clock is still before
    the deadline. *)
Theorem X19_stable_pool_returns_at_once
    fuel (env : Env Unstructured) poolName timeout w pool status :
  Z.of_N (elapsed env (S (tick w))) < timeout →
  answerGet env (S (S (tick w))) poolName = inr pool →
  parsePoolStatus pool = Some status →
  stable status →
  ∃ w',
    WaitForPoolStable parsePoolStatus (S fuel) env poolName timeout w = Some (None, w')
    ∧ trace w' = trace w ++ [InfoWaiting poolName timeout; CallGet poolName;
                             InfoStable poolName]
    ∧ tick w' = S (S (S (tick w)))
    ∧ clock w' = clock w + Z.of_N (elapsed env (tick w))
                 + Z.of_N (elapsed env (S (tick w)))
                 + Z.of_N (elapsed env (S (S (tick w)))).
Proof.
  intros Hnow Hans Hparse (HU & HD & HC).
  unfold WaitForPoolStable, time_Now. cbv zeta. rewrite loop_iteration. cbv zeta.
  simpl. destruct (_ <? _) eqn:Hlt; [|apply Z.ltb_ge in Hlt; lia].
  unfold IsPoolStable, GetPoolStatus. cbv zeta. simpl.
  rewrite Hans, Hparse, HU, HD, HC, Z.eqb_refl. simpl.
  eexists. split; [reflexivity|]. simpl. rewrite <- !app_assoc. done.
Qed.

(** X20: cancellation is looked at only after a poll.  A wait that starts
    with [ctx] already done, on a pool that is not stable at the first
    check, still sends its two requests and then returns the cancellation
    error, without waiting for a poll interval. *)
Theorem X20_done_context_is_seen_after_one_poll
    fuel (env : Env Unstructured) poolName timeout w at_ err :
  ctxDone env = Some (at_, err) →
  at_ ≤ clock w →
  Z.of_N (elapsed env (S (tick w))) < timeout →
  (∀ pool status, answerGet env (S (S (tick w))) poolName = inr pool →
                  parsePoolStatus pool = Some status → ¬ stable status) →
  ∃ w',
    WaitForPoolStable parsePoolStatus (S fuel) env poolName timeout w
    = Some (Some (ErrCancelled poolName err), w')
    ∧ poolsQueried (trace w') = poolsQueried (trace w) ++ [poolName; poolName]
    ∧ tick w' = (tick w + 5)%nat
    ∧ clock w' = clock w + Z.of_N (elapsed env (tick w))
                 + Z.of_N (elapsed env (S (tick w)))
                 + Z.of_N (elapsed env (S (S (tick w))))
                 + Z.of_N (elapsed env (S (S (S (tick w))))).
Proof.
  intros Hdone Hat Hnow Hunstable.
  unfold WaitForPoolStable, time_Now. cbv zeta. rewrite loop_iteration. cbv zeta.
  simpl. destruct (_ <? _) eqn:Hlt; [|apply Z.ltb_ge in Hlt; lia].
  set (w0 := interact env (interact env (emit (InfoWaiting poolName timeout) w))).
  pose proof (IsPoolStable_world Unstructured parsePoolStatus env poolName w0)
    as (_ & Htk1 & Htr1).
  change (tick w0) with (S (S (tick w))) in *.
  assert (∀ w1, tick w1 = S (S (S (tick w))) →
                clock w1 = clock w0 + Z.of_N (elapsed env (S (S (tick w)))) →
                poolsQueried (trace w1) = poolsQueried (trace w) ++ [poolName] →
                ∃ w',
                  afterCheck parsePoolStatus fuel env poolName timeout
                    (clock w + Z.of_N (elapsed env (tick w)) + timeout) w1
                  = Some (Some (ErrCancelled poolName err), w')
                  ∧ poolsQueried (trace w') = poolsQueried (trace w) ++ [poolName; poolName]
                  ∧ tick w' = (tick w + 5)%nat
                  ∧ clock w' = clock w + Z.of_N (elapsed env (tick w))
                               + Z.of_N (elapsed env (S (tick w)))
                               + Z.of_N (elapsed env (S (S (tick w))))
                               + Z.of_N (elapsed env (S (S (S (tick w)))))) as Hrest.
  { intros w1 Htk Hck Hq. unfold afterCheck, GetPoolStatus, select_Done_After. cbv zeta.
    rewrite Hdone.
    set (w2 := interact env (emit (CallGet poolName) w1)).
    assert (clock w2 = clock w1 + Z.of_N (elapsed env (S (S (S (tick w)))))) as Hc2.
    { subst w2. simpl. by rewrite Htk. }
    assert ((at_ <? clock w2 + pollInterval) = true) as Hwin.
    { apply Z.ltb_lt. subst w0. simpl in Hck. unfold pollInterval, Second. lia. }
    destruct (answerGet env (tick w1) poolName) as [c|p];
      [|destruct (parsePoolStatus p)]; fold w2; rewrite Hwin; simpl;
      (eexists; split; [reflexivity|]); simpl;
      rewrite poolsQueried_app, Hq, <- app_assoc, Htk; simpl;
      (split; [done|]); (split; [lia|]); subst w0; simpl in *; lia. }
  destruct (IsPoolStable parsePoolStatus env poolName w0) as [[e|[|]] w1] eqn:HS;
    simpl in Htr1, Htk1.
  - apply Hrest; simpl; [done| |].
    + pose proof (IsPoolStable_clock env poolName w0) as Hc. rewrite HS in Hc. done.
    + rewrite poolsQueried_app, Htr1, poolsQueried_app. simpl.
      rewrite poolsQueried_app. simpl. by rewrite !app_nil_r.
  - exfalso.
    apply (IsPoolStable_true Unstructured parsePoolStatus) in HS
      as (pool & status & Ha & Hp & Hst).
    exact (Hunstable pool status Ha Hp Hst).
  - apply Hrest; simpl; [done| |].
    + pose proof (IsPoolStable_clock env poolName w0) as Hc. rewrite HS in Hc. done.
    + rewrite Htr1, poolsQueried_app. simpl.
      rewrite poolsQueried_app. simpl. by rewrite !app_nil_r.
Qed.

Variable GetName : Unstructured → string.

(** X21: when the cluster cannot list its pools, [HealthCheck] and
    [WaitForAllPoolsStable] both return that failure, each under its own
    wrapping, after the one List request: no wait is started and no status
    is requested.  [HealthCheck] succeeds exactly when the list is
    answered. *)
Theorem X21_list_failure_is_returned (env : Env Unstructured) w :
  ((HealthCheck GetName env w).1 = None ↔ ∃ items, answerList env (tick w) = inr items)
  ∧ trace (HealthCheck GetName env w).2 = trace w ++ [CallList]
  ∧ (∀ cause, answerList env (tick w) = inl cause →
       (HealthCheck GetName env w).1 = Some (ErrHealthCheck (ErrListMCP cause))
       ∧ ∀ fuel timeout,
           ∃ w', WaitForAllPoolsStable GetName parsePoolStatus fuel env timeout w
                 = Some (Some (ErrListPools (ErrListMCP cause)), w')
                 ∧ trace w' = trace w ++ [InfoWaitingAll timeout; CallList]).
Proof.
  unfold HealthCheck, WaitForAllPoolsStable, ListMachineConfigPools. cbv zeta. simpl.
  destruct (answerList env (tick w)) as [cause|items]; simpl.
  - split; [split; [done|by intros [? ?]]|]. split; [done|].
    intros ? [= <-]. split; [done|]. intros fuel timeout. eexists. split; [reflexivity|].
    simpl. by rewrite <- app_assoc.
  - split; [split; [by eexists|done]|]. split; done.
Qed.

End Requests.

Lemma X21_list_failure_is_returned_witness :
  (HealthCheck statusName unreachableCancelled startWorld).1
  = Some (ErrHealthCheck (ErrListMCP "context canceled"))
  ∧ ∀ fuel timeout,
      ∃ w', WaitForAllPoolsStable statusName statusParse fuel unreachableCancelled timeout
              startWorld
            = Some (Some (ErrListPools (ErrListMCP "context canceled")), w')
            ∧ trace w' = trace startWorld ++ [InfoWaitingAll timeout; CallList].
Proof.
  destruct (X21_list_failure_is_returned MachineConfigPoolStatus statusParse statusName
              unreachableCancelled startWorld) as (_ & _ & H).
  exact (H "context canceled" eq_refl).
Defined.

(** Two counts beyond [int32] are stored as the same number: the pool is
    reported stable in the middle of its rollout. *)
Example oversized_rollout_is_stable :
  jsonParsedStatus oversizedPool
  = Some (mkStatus "huge" maxInt32 maxInt32 0 0 false false "")
  ∧ (IsPoolStable jsonParsedStatus (clusterOf oversizedPool) "huge" startWorld).1
    = inr true.
Proof. vm_compute. done. Qed.

Lemma X16_stability_compares_stored_counts_witness :
  ∃ b,
    (IsPoolStable jsonParsedStatus (clusterOf oversizedPool) "huge" startWorld).1 = inr b
    ∧ (b = true
       ↔ (¬ ∃ cond, cond ∈ conditionsOf jsonObject jsonValue jsonNestedSlice
                             [("machineCount", JInt64 4000000000);
                              ("updatedMachineCount", JInt64 3000000000)]
                    ∧ conditionTrue jsonObject jsonValue jsonNestedString jsonAsMap
                        "Updating" cond)
         ∧ (¬ ∃ cond, cond ∈ conditionsOf jsonObject jsonValue jsonNestedSlice
                               [("machineCount", JInt64 4000000000);
                                ("updatedMachineCount", JInt64 3000000000)]
                      ∧ conditionTrue jsonObject jsonValue jsonNestedString jsonAsMap
                          "Degraded" cond)
         ∧ parsedCount jsonObject jsonNestedInt64
             [("machineCount", JInt64 4000000000);
              ("updatedMachineCount", JInt64 3000000000)] "updatedMachineCount" 0
           = parsedCount jsonObject jsonNestedInt64
               [("machineCount", JInt64 4000000000);
                ("updatedMachineCount", JInt64 3000000000)] "machineCount" 0).
Proof.
  apply (X16_stability_compares_stored_counts jsonObject jsonObject jsonValue jsonName
           (λ o, o) jsonNestedMap jsonNestedInt64 jsonNestedString jsonNestedSlice
           jsonAsMap (clusterOf oversizedPool) "huge" startWorld oversizedPool).
  - vm_compute. reflexivity.
  - vm_compute. reflexivity.
Defined.

Lemma X18_WaitForPoolStable_bounds_requests_witness :
  ∃ r w' n,
    WaitForPoolStable statusParse 4 flakyThenStable "master" (30 * Second) startWorld
    = Some (r, w')
    ∧ (n ≤ 2 * 3)%nat
    ∧ poolsQueried (trace w') = poolsQueried (trace startWorld) ++ replicate n "master".
Proof.
  apply (X18_WaitForPoolStable_bounds_requests MachineConfigPoolStatus statusParse 3
           flakyThenStable "master" (30 * Second) startWorld).
  vm_compute. discriminate.
Defined.

Lemma X19_stable_pool_returns_at_once_witness :
  ∃ w',
    WaitForPoolStable jsonParsedStatus 1 (clusterOf blankPool) "infra" Second startWorld
    = Some (None, w')
    ∧ trace w' = trace startWorld ++ [InfoWaiting "infra" Second; CallGet "infra";
                                      InfoStable "infra"]
    ∧ tick w' = 3%nat
    ∧ clock w' = 3000000.
Proof.
  apply (X19_stable_pool_returns_at_once jsonObject jsonParsedStatus 0
           (clusterOf blankPool) "infra" Second startWorld blankPool (newStatus "infra")).
  - vm_compute. reflexivity.
  - vm_compute. reflexivity.
  - vm_compute. reflexivity.
  - vm_compute. done.
Defined.

Lemma X20_done_context_is_seen_after_one_poll_witness :
  ∃ w',
    WaitForPoolStable statusParse 1 unreachableCancelled "master" Second startWorld
    = Some (Some (ErrCancelled "master" Canceled), w')
    ∧ poolsQueried (trace w') = poolsQueried (trace startWorld) ++ ["master"; "master"]
    ∧ tick w' = 5%nat
    ∧ clock w' = 4000000.
Proof.
  apply (X20_done_context_is_seen_after_one_poll MachineConfigPoolStatus statusParse 0
           unreachableCancelled "master" Second startWorld 0 Canceled).
  - vm_compute. reflexivity.
  - vm_compute. discriminate.
  - vm_compute. reflexivity.
  - intros pool status H. vm_compute in H. discriminate.
Defined.

End IntegrationsSpec.

(* ===================================================================== *)
(** ** Properties of the historical recommendations *)
(* ===================================================================== *)

Module RecommendationsSpec.

Import Strings.Ascii.
Import PrimFloat.
Import Recommendations.

(** *** Keys *)

Lemma substring_all (s : string) : substring 0 (String.length s) s = s.
Proof. induction s as [|c s IH]; simpl; [done|]. by rewrite IH. Qed.

(** At the first colon a key falls into a part without colon, the colon and
    the rest. *)
Lemma indexColon_Some key i :
  indexColon key = Some i →
  key = substring 0 i key +:+ ":" +:+ substring (S i) (String.length key - S i) key
  ∧ indexColon (substring 0 i key) = None.
Proof.
  revert i. induction key as [|c rest IH]; intros i; simpl; [done|].
  destruct (Strings.Ascii.eqb c ":"%char) eqn:Hc.
  - intros [= <-]. apply Strings.Ascii.eqb_eq in Hc as ->. simpl.
    rewrite Nat.sub_0_r, substring_all. done.
  - destruct (indexColon rest) as [j|]; [|done]. intros [= <-].
    destruct (IH j eq_refl) as [Hkey Hnone]. simpl. rewrite Hc, Hnone. simpl.
    split; [|done].
    change (String c rest
            = String c (substring 0 j rest +:+ ":"
                        +:+ substring (S j) (String.length rest - S j) rest)).
    by rewrite <- Hkey.
Qed.

Lemma indexColon_join a b :
  indexColon a = None →
  indexColon (a +:+ ":" +:+ b) = Some (String.length a)
  ∧ substring 0 (String.length a) (a +:+ ":" +:+ b) = a
  ∧ substring (S (String.length a))
      (String.length (a +:+ ":" +:+ b) - S (String.length a)) (a +:+ ":" +:+ b) = b.
Proof.
  induction a as [|c a IH]; simpl.
  - intros _. rewrite Nat.sub_0_r, substring_all. done.
  - destruct (Strings.Ascii.eqb c ":"%char); [done|].
    destruct (indexColon a) as [j|] eqn:Ha; [done|]. intros _.
    destruct (IH eq_refl) as (-> & -> & ->). done.
Qed.

Lemma splitKey_join a b :
  indexColon a = None → splitKey (a +:+ ":" +:+ b) = (a, b).
Proof.
  intros Ha. destruct (indexColon_join a b Ha) as (Hi & H1 & H2).
  unfold splitKey. rewrite Hi, H1, H2.
  destruct a; done.
Qed.

Lemma splitKey_parts key a b :
  splitKey key = (a, b) → a ≠ "" ∨ b ≠ "" →
  key = a +:+ ":" +:+ b ∧ indexColon a = None.
Proof.
  unfold splitKey. destruct (0 <? String.length key)%nat.
  - destruct (indexColon key) as [i|] eqn:Hi.
    + intros [= <- <-] _. by apply indexColon_Some.
    + intros [= <- <-] [?|?]; done.
  - intros [= <- <-] [?|?]; done.
Qed.

(** X22: splitting a key inverts building it.  A key falls into a
    non-empty pair of an issue type and a namespace exactly when it is the
    two around a colon with no colon in the issue type: the split is at the
    first colon, so colons of the namespace are kept and a colon in what
    was meant as the issue type moves the rest of it to the namespace. *)
Theorem X22_splitKey_inverts_key key issueType namespace :
  issueType ≠ "" ∨ namespace ≠ "" →
  splitKey key = (issueType, namespace)
  ↔ key = issueType +:+ ":" +:+ namespace ∧ indexColon issueType = None.
Proof.
  intros Hne. split.
  - intros Hsplit. by apply splitKey_parts.
  - intros [-> Hnone]. by apply splitKey_join.
Qed.

Lemma X22_splitKey_inverts_key_witness :
  splitKey "high:openshift:monitoring" = ("high", "openshift:monitoring")
  ↔ "high:openshift:monitoring" = "high" +:+ ":" +:+ "openshift:monitoring"
    ∧ indexColon "high" = None.
Proof.
  apply (X22_splitKey_inverts_key "high:openshift:monitoring" "high" "openshift:monitoring").
  left. discriminate.
Defined.

(** *** Counting *)

Lemma increment_lookup key key' m :
  increment key m !! key'
  = if decide (key = key') then Some (default 0 (m !! key) + 1) else m !! key'.
Proof.
  unfold increment. destruct (decide (key = key')) as [->|Hne].
  - by rewrite lookup_insert_eq.
  - by rewrite lookup_insert_ne.
Qed.

Lemma sum_counts_perm (l l' : list (string * Z)) :
  l ≡ₚ l' →
  foldr (λ entry total, entry.2 + total) 0 l
  = foldr (λ entry total, entry.2 + total) 0 l'.
Proof. induction 1; simpl; lia. Qed.

(** Every increment is one more occurrence. *)
Lemma occurrences_increment key m : occurrences (increment key m) = occurrences m + 1.
Proof.
  unfold occurrences, increment. destruct (m !! key) as [c|] eqn:Hm; simpl.
  - rewrite <- insert_delete_eq.
    rewrite (sum_counts_perm _ _
               (map_to_list_insert (delete key m) key (c + 1) (lookup_delete_eq m key))).
    rewrite <- (sum_counts_perm _ _ (map_to_list_delete m key c Hm)). simpl. lia.
  - rewrite (sum_counts_perm _ _ (map_to_list_insert m key 1 Hm)). simpl. lia.
Qed.

(** A counting loop: the occurrences grow by the length of the list, a
    count never shrinks, and a new key is the key of an item and has a
    positive count. *)
Lemma count_loop {A} (keyOf : A → string) (l : list A) (m : gmap string Z) :
  let m' := foldl (λ m x, increment (keyOf x) m) m l in
  occurrences m' = occurrences m + Z.of_nat (length l)
  ∧ ∀ key c, m' !! key = Some c →
      (∃ c0, m !! key = Some c0 ∧ c0 ≤ c)
      ∨ (m !! key = None ∧ 1 ≤ c ∧ ∃ x, x ∈ l ∧ keyOf x = key).
Proof.
  revert m. induction l as [|x l IH]; intros m; cbn [foldl]; cbv zeta.
  { split; [simpl; lia|]. intros key c Hc. left. exists c. split; [done|lia]. }
  destruct (IH (increment (keyOf x) m)) as [Hocc Hkeys]. split.
  { rewrite Hocc, occurrences_increment, length_cons. lia. }
  intros key c Hc. apply Hkeys in Hc as [(c0 & Hc0 & Hle)|(Hnone & Hpos & y & Hy & Hkey)];
    rewrite increment_lookup in *.
  - destruct (decide (keyOf x = key)) as [Heq|Hne].
    + rewrite Heq in Hc0. injection Hc0 as <-.
      destruct (m !! key) as [c00|] eqn:Hm; simpl in *.
      * left. exists c00. split; [done|lia].
      * right. split; [done|]. split; [lia|]. exists x. split; [left|done].
    + left. by exists c0.
  - destruct (decide (keyOf x = key)); [done|].
    right. split; [done|]. split; [done|]. exists y. split; [by right|done].
Qed.

(** *** The loop over the frequencies *)

(** The loop appends one recommendation for every recurring entry, in the
    order of the iteration, and numbers them on from [recID]. *)
Lemma recommend_loop (l : list (string * Z)) (recID : Z) (acc : list Recommendation) :
  ∃ recs,
    foldl recommend_body (recID, acc) l = (recID + Z.of_nat (length recs), acc ++ recs)
    ∧ Forall2 recommends (filter recurring l) recs
    ∧ ∀ k rec, recs !! k = Some rec →
               ID rec = "rec-hist-" +:+ Sprintf_03d (recID + Z.of_nat k + 1).
Proof.
  revert recID acc. induction l as [|[key count] l IH]; intros recID acc.
  { exists []. simpl. rewrite Z.add_0_r, app_nil_r. split; [done|]. split; [constructor|].
    intros k rec. by rewrite lookup_nil. }
  cbn [foldl]. unfold recommend_body at 2.
  destruct (count <? 2) eqn:Hcount.
  { apply Z.ltb_lt in Hcount. rewrite filter_cons_False; [apply IH|].
    unfold recurring. simpl. lia. }
  apply Z.ltb_ge in Hcount.
  destruct (splitKey key) as [issueType namespace] eqn:Hsplit.
  destruct (bool_decide (issueType = "") || bool_decide (namespace = "")) eqn:Hempty.
  { rewrite filter_cons_False; [apply IH|].
    unfold recurring. simpl. rewrite Hsplit. simpl.
    apply orb_true_iff in Hempty as [H|H]; apply bool_decide_eq_true in H; tauto. }
  apply orb_false_iff in Hempty as [Hi Hn].
  apply bool_decide_eq_false in Hi, Hn.
  destruct (splitKey_parts key issueType namespace Hsplit (or_introl Hi)) as [Hkey Hnone].
  rewrite filter_cons_True by (unfold recurring; simpl; rewrite Hsplit; done).
  match goal with
  | |- context [foldl recommend_body (_, acc ++ [?r]) l] => set (rec := r)
  end.
  destruct (IH (recID + 1) (acc ++ [rec])) as (recs & Hloop & Hall & Hids).
  exists (rec :: recs). split; [|split].
  - rewrite Hloop, <- app_assoc, length_cons. f_equal. lia.
  - constructor; [|done]. unfold recommends. subst rec. simpl. by repeat split.
  - intros [|k] r; simpl.
    + intros [= <-]. subst rec. simpl. by rewrite Z.add_0_r.
    + intros Hr. rewrite (Hids k r Hr). do 2 f_equal. lia.
Qed.

(** A filter that every item passes keeps the list. *)
Lemma filter_all {A} (P : A → Prop) `{!∀ x, Decision (P x)} (l : list A) :
  Forall P l → filter P l = l.
Proof.
  induction 1 as [|x l Hx Hl IH]; [done|]. by rewrite filter_cons_True, IH.
Qed.

(** Recurring entries have a count of two at least. *)
Lemma recurring_counts (l : list (string * Z)) :
  (∀ entry, entry ∈ l → 0 ≤ entry.2) →
  2 * Z.of_nat (length (filter recurring l)) ≤ foldr (λ entry total, entry.2 + total) 0 l.
Proof.
  induction l as [|entry l IH]; intros Hpos; [simpl; lia|].
  assert (0 ≤ entry.2) by (apply Hpos; left).
  assert (∀ e, e ∈ l → 0 ≤ e.2) as Hl by (intros e He; apply Hpos; by right).
  specialize (IH Hl). rewrite filter_cons. simpl foldr.
  destruct (decide (recurring entry)) as [(Hcount & _)|_]; [rewrite length_cons|]; lia.
Qed.

(** The thresholds of the confidence against the default threshold. *)
Lemma default_threshold count :
  leb (withDefaultThreshold 0) (calculateHistoricalConfidence count) = true ↔ 3 ≤ count.
Proof.
  unfold calculateHistoricalConfidence.
  destruct (10 <=? count) eqn:H10; [apply Z.leb_le in H10|apply Z.leb_gt in H10].
  { split; [lia|intros _; vm_compute; reflexivity]. }
  destruct (5 <=? count) eqn:H5; [apply Z.leb_le in H5|apply Z.leb_gt in H5].
  { split; [lia|intros _; vm_compute; reflexivity]. }
  destruct (3 <=? count) eqn:H3; [apply Z.leb_le in H3|apply Z.leb_gt in H3].
  { split; [lia|intros _; vm_compute; reflexivity]. }
  split; [|lia]. intros H. vm_compute in H. discriminate.
Qed.

(** [List] with a positive limit returns no more than the limit. *)
Lemma List_within_limit range sort_Slice (f : Storage.ListFilter) s :
  0 < Storage.Limit f →
  Z.of_nat (length (Storage.List range sort_Slice f s)) ≤ Storage.Limit f.
Proof.
  intros Hpos. unfold Storage.List. cbv zeta.
  apply Z.ltb_lt in Hpos as Hpos'. rewrite Hpos'. simpl.
  destruct (Storage.Limit f <? _) eqn:Hlen.
  - rewrite length_take. lia.
  - apply Z.ltb_ge in Hlen. done.
Qed.

(** What [List] returns is stored and satisfies the filter. *)
Lemma List_members range sort_Slice (f : Storage.ListFilter) s p :
  (∀ m, range m ≡ₚ map_to_list m) →
  (∀ less l, sort_Slice less l ≡ₚ l) →
  p ∈ Storage.List range sort_Slice f s →
  ∃ id, Storage.incidents s !! id = Some p
        ∧ Storage.matchesFilter f (Storage.deref s p).
Proof.
  intros Hrange Hsort Hp.
  assert (p ∈ sort_Slice
            (λ i j, Storage.After (Storage.CreatedAt (Storage.deref s i))
                      (Storage.CreatedAt (Storage.deref s j)))
            (foldl (Storage.List_body f s) [] (range (Storage.incidents s)))) as Hin.
  { unfold Storage.List in Hp. cbv zeta in Hp.
    destruct (_ && _); [|done]. by apply subseteq_take in Hp. }
  rewrite Hsort, StorageSpec.List_loop, Hrange in Hin. simpl in Hin.
  apply list_elem_of_fmap in Hin as [[id q] [-> Hin]].
  apply list_elem_of_filter in Hin as [Hm Hin].
  apply elem_of_map_to_list in Hin. by exists id.
Qed.

Section History.

Variable Workflow : Type.
Variable WIssueType : Workflow → string.
Variable WNamespace : Workflow → string.
Variable range : gmap string Storage.ptr → list (string * Storage.ptr).
Variable sort_Slice :
  (Storage.ptr → Storage.ptr → bool) → list Storage.ptr → list Storage.ptr.
Variable rangeFrequency : gmap string Z → list (string * Z).

(** A [range] over [issueFrequency] yields every entry once, in some order. *)
Hypothesis rangeFrequency_entries : ∀ m, rangeFrequency m ≡ₚ map_to_list m.

Local Notation "'frequency'" :=
  (issueFrequency Workflow WIssueType WNamespace range sort_Slice).
Local Notation "'history'" :=
  (getHistoricalRecommendations Workflow WIssueType WNamespace range sort_Slice
     rangeFrequency).

(** The recommendations stand against the recurring entries, one for one. *)
Lemma history_entries orchestrator reqNamespace s :
  Forall2 recommends
    (filter recurring (rangeFrequency (frequency orchestrator reqNamespace s)))
    (history orchestrator reqNamespace s)
  ∧ ∀ k rec, history orchestrator reqNamespace s !! k = Some rec →
             ID rec = "rec-hist-" +:+ Sprintf_03d (Z.of_nat k + 1).
Proof.
  unfold getHistoricalRecommendations. cbv zeta.
  destruct (recommend_loop (rangeFrequency (frequency orchestrator reqNamespace s)) 0 [])
    as (recs & Hloop & Hall & Hids).
  rewrite Hloop. simpl. split; [done|]. intros k rec Hk. by rewrite (Hids k rec Hk).
Qed.

Lemma frequency_entry m key count :
  (key, count) ∈ rangeFrequency m ↔ m !! key = Some count.
Proof. rewrite rangeFrequency_entries. apply elem_of_map_to_list. Qed.

(** Every recommendation has its entry in the map. *)
Lemma history_backed orchestrator reqNamespace s rec :
  rec ∈ history orchestrator reqNamespace s →
  ∃ count,
    frequency orchestrator reqNamespace s !! (IssueType rec +:+ ":" +:+ Namespace rec)
    = Some count
    ∧ recommends (IssueType rec +:+ ":" +:+ Namespace rec, count) rec.
Proof.
  intros Hrec. destruct (history_entries orchestrator reqNamespace s) as [Hall _].
  apply list_elem_of_lookup in Hrec as [k Hk].
  destruct (Forall2_lookup_r _ _ _ _ _ Hall Hk) as ([key count] & Hentry & Hrecommends).
  apply list_elem_of_lookup_2, list_elem_of_filter in Hentry as [_ Hentry].
  apply frequency_entry in Hentry.
  pose proof Hrecommends as (Hkey & _). simpl in Hkey. subst key.
  by exists count.
Qed.

(** The keys of the recurring entries are distinct. *)
Lemma recurring_keys_NoDup m : NoDup (filter recurring (rangeFrequency m)).*1.
Proof.
  apply (sublist_NoDup _ (rangeFrequency m).*1).
  - rewrite rangeFrequency_entries. apply NoDup_fst_map_to_list.
  - apply fmap_sublist, sublist_filter.
Qed.

(** X23: the historical recommendations are the recurring issues, one
    each.  Every recommendation has an entry in the frequency map under its
    issue type and namespace around a colon, with a count of two or more
    that fixes its severity and confidence; every entry with such a count
    whose key splits into a non-empty issue type and namespace has a
    recommendation; identifiers count up from [rec-hist-001] in the order of
    the list; and no two recommendations share issue type and namespace. *)
Theorem X23_recommendations_are_recurring_issues orchestrator reqNamespace s :
  let freq := frequency orchestrator reqNamespace s in
  let recs := history orchestrator reqNamespace s in
  (∀ rec, rec ∈ recs →
     ∃ count, freq !! (IssueType rec +:+ ":" +:+ Namespace rec) = Some count
              ∧ recommends (IssueType rec +:+ ":" +:+ Namespace rec, count) rec)
  ∧ (∀ key count, freq !! key = Some count → recurring (key, count) →
       ∃ rec, rec ∈ recs ∧ recommends (key, count) rec)
  ∧ (∀ k rec, recs !! k = Some rec →
       ID rec = "rec-hist-" +:+ Sprintf_03d (Z.of_nat k + 1))
  ∧ (∀ k1 k2 rec1 rec2,
       recs !! k1 = Some rec1 → recs !! k2 = Some rec2 →
       IssueType rec1 = IssueType rec2 → Namespace rec1 = Namespace rec2 → k1 = k2).
Proof.
  cbv zeta. destruct (history_entries orchestrator reqNamespace s) as [Hall Hids].
  split; [|split; [|split]].
  - intros rec. apply history_backed.
  - intros key count Hfreq Hrec.
    assert ((key, count) ∈ filter recurring
              (rangeFrequency (frequency orchestrator reqNamespace s))) as Hin.
    { apply list_elem_of_filter. split; [done|]. by apply frequency_entry. }
    apply list_elem_of_lookup in Hin as [k Hk].
    destruct (Forall2_lookup_l _ _ _ _ _ Hall Hk) as (rec & Hrecs & Hrecommends).
    exists rec. split; [|done]. by eapply list_elem_of_lookup_2.
  - exact Hids.
  - intros k1 k2 rec1 rec2 H1 H2 Hissue Hns.
    destruct (Forall2_lookup_r _ _ _ _ _ Hall H1) as (e1 & He1 & (Hk1 & _)).
    destruct (Forall2_lookup_r _ _ _ _ _ Hall H2) as (e2 & He2 & (Hk2 & _)).
    eapply NoDup_lookup; [apply recurring_keys_NoDup| |].
    + rewrite list_lookup_fmap, He1. simpl. reflexivity.
    + rewrite list_lookup_fmap, He2. simpl. by rewrite Hk1, Hk2, Hissue, Hns.
Qed.

(** X24: without orchestrator, a request for a namespace gets historical
    recommendations for that namespace only, each for a severity that a
    stored incident of the namespace has, provided no severity of the
    namespace contains a colon; the namespace filter of the handler then
    removes none of them. *)
Theorem X24_request_namespace_is_kept reqNamespace s :
  (∀ m, range m ≡ₚ map_to_list m) →
  (∀ less l, sort_Slice less l ≡ₚ l) →
  reqNamespace ≠ "" →
  (∀ id p, Storage.incidents s !! id = Some p →
           Storage.Target (Storage.deref s p) = reqNamespace →
           indexColon (Storage.Severity (Storage.deref s p)) = None) →
  let recs := history None reqNamespace s in
  (∀ rec, rec ∈ recs →
     Namespace rec = reqNamespace
     ∧ ∃ id p, Storage.incidents s !! id = Some p
               ∧ Storage.Severity (Storage.deref s p) = IssueType rec
               ∧ Storage.Target (Storage.deref s p) = reqNamespace)
  ∧ filterByNamespace reqNamespace recs = recs.
Proof.
  intros Hrange Hsort Hns Hcolon. cbv zeta.
  assert (∀ rec, rec ∈ history None reqNamespace s →
            Namespace rec = reqNamespace
            ∧ ∃ id p, Storage.incidents s !! id = Some p
                      ∧ Storage.Severity (Storage.deref s p) = IssueType rec
                      ∧ Storage.Target (Storage.deref s p) = reqNamespace) as Hrecs.
  { intros rec Hrec.
    apply history_backed in Hrec as (count & Hfreq & Hkey & Hnone & _).
    unfold issueFrequency in Hfreq. cbv zeta in Hfreq. simpl in Hfreq.
    match type of Hfreq with
    | foldl ?f ∅ ?l !! _ = _ =>
      destruct (count_loop (λ inc, incidentKey (Storage.deref s inc)) l ∅) as [_ Hkeys]
    end.
    apply Hkeys in Hfreq as [(c0 & Hc0 & _)|(_ & _ & inc & Hinc & Hinckey)];
      [by rewrite lookup_empty in Hc0|].
    apply (List_members _ _ _ _ _ Hrange Hsort) in Hinc as (id & Hid & Hmatch & _).
    destruct Hmatch as [Hempty|Htarget]; [done|]. simpl in Htarget.
    assert (splitKey (incidentKey (Storage.deref s inc))
            = (Storage.Severity (Storage.deref s inc), Storage.Target (Storage.deref s inc)))
      as Hsplit by (apply splitKey_join; eauto).
    rewrite Hinckey, splitKey_join in Hsplit by done. injection Hsplit as Hsev Htgt.
    split; [congruence|]. exists id, inc. by rewrite <- Hsev. }
  split; [exact Hrecs|].
  unfold filterByNamespace. destruct (decide (reqNamespace = "")); [done|].
  apply filter_all, Forall_forall. intros rec Hrec. by apply Hrecs.
Qed.

(** X25: [List] is asked for 100 incidents at most, and a recommendation
    takes two occurrences: there are never more recommendations than half
    of 100 and the number of workflows. *)
Theorem X25_recommendations_are_bounded orchestrator reqNamespace s :
  (2 * length (getHistoricalRecommendations Workflow WIssueType WNamespace range
                 sort_Slice rangeFrequency orchestrator reqNamespace s)
   ≤ 100 + length (default [] orchestrator))%nat.
Proof.
  destruct (history_entries orchestrator reqNamespace s) as [Hall _].
  apply Forall2_length in Hall. rewrite <- Hall.
  set (freq := frequency orchestrator reqNamespace s).
  pose proof (List_within_limit range sort_Slice
                (Storage.mkListFilter reqNamespace "" "" 100) s) as Hlimit.
  simpl in Hlimit. specialize (Hlimit eq_refl).
  unfold issueFrequency in freq. cbv zeta in freq.
  set (incidents := Storage.List range sort_Slice
                      (Storage.mkListFilter reqNamespace "" "" 100) s) in *.
  destruct (count_loop (λ inc, incidentKey (Storage.deref s inc)) incidents ∅)
    as [Hocc1 Hkeys1].
  set (m1 := foldl (λ m inc, increment (incidentKey (Storage.deref s inc)) m) ∅ incidents)
    in *.
  destruct (count_loop (λ wf, WIssueType wf +:+ ":" +:+ WNamespace wf)
              (default [] orchestrator) m1) as [Hocc2 Hkeys2].
  fold freq in Hocc2, Hkeys2.
  assert (∀ entry, entry ∈ rangeFrequency freq → 0 ≤ entry.2) as Hpos.
  { intros [key c] Hin. apply frequency_entry in Hin. simpl.
    apply Hkeys2 in Hin as [(c0 & Hc0 & Hle)|(_ & Hc & _)]; [|lia].
    apply Hkeys1 in Hc0 as [(c00 & Hc00 & _)|(_ & Hc0 & _)]; [|lia].
    by rewrite lookup_empty in Hc00. }
  apply recurring_counts in Hpos.
  rewrite (sum_counts_perm _ _ (rangeFrequency_entries freq)) in Hpos.
  fold (occurrences freq) in Hpos.
  assert (occurrences ∅ = 0) as Hempty by (unfold occurrences; by rewrite map_to_list_empty).
  lia.
Qed.

(** X26: with the default threshold of the handler, a historical
    recommendation is returned exactly when its issue occurred three times
    or more: the recommendation of an issue that occurred twice has a
    confidence below the default. *)
Theorem X26_default_threshold_asks_three_occurrences orchestrator reqNamespace s rec :
  let freq := frequency orchestrator reqNamespace s in
  let recs := history orchestrator reqNamespace s in
  rec ∈ filterByConfidence (withDefaultThreshold 0) recs
  ↔ rec ∈ recs
    ∧ ∃ count, freq !! (IssueType rec +:+ ":" +:+ Namespace rec) = Some count ∧ 3 ≤ count.
Proof.
  cbv zeta. unfold filterByConfidence. rewrite list_elem_of_filter. split.
  - intros [Hleb Hrec]. split; [done|].
    destruct (history_backed _ _ _ _ Hrec) as (count & Hfreq & Hrecommends).
    exists count. split; [done|].
    destruct Hrecommends as (_ & _ & _ & _ & _ & _ & _ & Hconf & _).
    rewrite Hconf in Hleb. by apply default_threshold.
  - intros [Hrec (count & Hfreq & Hcount)]. split; [|done].
    destruct (history_backed _ _ _ _ Hrec) as (count' & Hfreq' & Hrecommends).
    rewrite Hfreq in Hfreq'. injection Hfreq' as <-.
    destruct Hrecommends as (_ & _ & _ & _ & _ & _ & _ & Hconf & _).
    rewrite Hconf. by apply default_threshold.
Qed.

End History.

(** *** The handler on the sample stores *)

Lemma map_to_list_entries (m : gmap string Z) : map_to_list m ≡ₚ map_to_list m.
Proof. done. Qed.

(** The two incidents of severity ["low"] among the three of ["ns1"] give
    the one recommendation, which the default threshold removes. *)
Example history_of_threeIncidents :
  (λ rec, (ID rec, IssueType rec, Namespace rec, Severity rec, Evidence rec))
    <$> historyOf "ns1" Storage.threeIncidents
  = [("rec-hist-001", "low", "ns1", "low",
      ["Issue occurred 2 times in recent history";
       "Pattern detected in namespace: ns1"])]
  ∧ filterByConfidence (withDefaultThreshold 0) (historyOf "ns1" Storage.threeIncidents)
    = [].
Proof. vm_compute. done. Qed.

(** A colon in the severity moves the rest of the severity into the
    namespace, and the namespace filter of the handler removes the
    recommendation. *)
Example colon_in_severity :
  (λ rec, (IssueType rec, Namespace rec)) <$> historyOf "ns1" colonSeverities
  = [("sev", "1:ns1")]
  ∧ filterByNamespace "ns1" (historyOf "ns1" colonSeverities) = [].
Proof. vm_compute. done. Qed.

Lemma X23_recommendations_are_recurring_issues_witness :
  let freq := frequencyOf "ns1" Storage.threeIncidents in
  let recs := historyOf "ns1" Storage.threeIncidents in
  (∀ rec, rec ∈ recs →
     ∃ count, freq !! (IssueType rec +:+ ":" +:+ Namespace rec) = Some count
              ∧ recommends (IssueType rec +:+ ":" +:+ Namespace rec, count) rec)
  ∧ (∀ key count, freq !! key = Some count → recurring (key, count) →
       ∃ rec, rec ∈ recs ∧ recommends (key, count) rec)
  ∧ (∀ k rec, recs !! k = Some rec →
       ID rec = "rec-hist-" +:+ Sprintf_03d (Z.of_nat k + 1))
  ∧ (∀ k1 k2 rec1 rec2,
       recs !! k1 = Some rec1 → recs !! k2 = Some rec2 →
       IssueType rec1 = IssueType rec2 → Namespace rec1 = Namespace rec2 → k1 = k2).
Proof.
  exact (X23_recommendations_are_recurring_issues pairWorkflow fst snd
           Storage.rangeToList Storage.mergeSlice map_to_list map_to_list_entries
           None "ns1" Storage.threeIncidents).
Defined.

Lemma X24_request_namespace_is_kept_witness :
  let recs := historyOf "ns1" Storage.threeIncidents in
  (∀ rec, rec ∈ recs →
     Namespace rec = "ns1"
     ∧ ∃ id p, Storage.incidents Storage.threeIncidents !! id = Some p
               ∧ Storage.Severity (Storage.deref Storage.threeIncidents p) = IssueType rec
               ∧ Storage.Target (Storage.deref Storage.threeIncidents p) = "ns1")
  ∧ filterByNamespace "ns1" recs = recs.
Proof.
  apply (X24_request_namespace_is_kept pairWorkflow fst snd
           Storage.rangeToList Storage.mergeSlice map_to_list map_to_list_entries
           "ns1" Storage.threeIncidents).
  - exact StorageSpec.rangeToList_entries.
  - exact StorageSpec.mergeSlice_permutes.
  - discriminate.
  - assert (map_Forall
              (λ _ p, indexColon (Storage.Severity (Storage.deref Storage.threeIncidents p))
                      = None)
              (Storage.incidents Storage.threeIncidents)) as Hall.
    { apply (bool_decide_unpack _). vm_compute. exact I. }
    intros id p Hid _. exact (Hall id p Hid).
Defined.

Lemma X25_recommendations_are_bounded_witness :
  (2 * length (historyOf "ns1" Storage.threeIncidents) ≤ 100 + 0)%nat.
Proof.
  exact (X25_recommendations_are_bounded pairWorkflow fst snd
           Storage.rangeToList Storage.mergeSlice map_to_list map_to_list_entries
           None "ns1" Storage.threeIncidents).
Defined.

Lemma X26_default_threshold_asks_three_occurrences_witness :
  historyOf "ns1" Storage.threeIncidents = [lowTwice]
  ∧ (lowTwice ∈ filterByConfidence (withDefaultThreshold 0)
                  (historyOf "ns1" Storage.threeIncidents)
     ↔ lowTwice ∈ historyOf "ns1" Storage.threeIncidents
       ∧ ∃ count, frequencyOf "ns1" Storage.threeIncidents
                    !! (IssueType lowTwice +:+ ":" +:+ Namespace lowTwice) = Some count
                  ∧ 3 ≤ count).
Proof.
  split; [vm_compute; reflexivity|].
  exact (X26_default_threshold_asks_three_occurrences pairWorkflow fst snd
           Storage.rangeToList Storage.mergeSlice map_to_list map_to_list_entries
           None "ns1" Storage.threeIncidents lowTwice).
Defined.

End RecommendationsSpec.
